(** * BST visualizer: the instrumented tree engine and the layout pass

    Shallow embedding of [src/bst.js] (identical, method for method, to
    [src/react-bst/src/bst.js]) and of [computePositions] / [collectEdges]
    from [src/react-bst/src/BSTVisualizer.jsx].

    JavaScript objects are mutable and shared by reference, so [BSTNode]
    objects live in an explicit object store and a child link is a reference
    into it.  The methods of [BinarySearchTree] run in a small state-and-error
    monad over that store; loops and recursive helpers take a [fuel] argument
    and get stuck when it runs out.

    Node values are the results of [parseInt] that passed the [isNaN] guard
    of the callers, that is integers; they are modelled as [Z]. *)

From Stdlib Require Import ZArith List Lia String DecimalString.
From stdpp Require Import base option list gmap sorting.

Local Open Scope nat_scope.

(** ** Data model *)

(** [const Action = { VISITED: 'visited', ... }] *)
Inductive Action : Type :=
| VISITED | COMPARED | MOVED_LEFT | MOVED_RIGHT | INSERTED | FOUND | NOT_FOUND.

#[global] Instance Action_eq_dec : EqDecision Action.
Proof. solve_decision. Defined.

(** A step record [{ node, action, description }]; [node] is a node value or
    [null]. *)
Record Step : Type := mkStep {
  node : option Z;
  action : Action;
  description : string
}.

(** A reference to a [BSTNode] object: its index in the object store. *)
Abbreviation ref := nat (only parsing).

(** [class BSTNode { value; left; right }] with [null] as [None]. *)
Record BSTNode : Type := mkBSTNode {
  value : Z;
  left : option ref;
  right : option ref
}.

(** [class BinarySearchTree { root }] together with the store holding the
    node objects it has allocated. *)
Record BinarySearchTree : Type := mkBST {
  root : option ref;
  heap : list BSTNode
}.

(** [new BinarySearchTree()] *)
Definition new_BinarySearchTree : BinarySearchTree :=
  {| root := None; heap := [] |}.

(** ** The method monad: state passing with failure *)

Definition M (A : Type) : Type :=
  BinarySearchTree -> option (A * BinarySearchTree).

Definition ret {A} (a : A) : M A := fun s => Some (a, s).

Definition bind {A B} (m : M A) (k : A -> M B) : M B :=
  fun s => match m s with
           | Some (a, s') => k a s'
           | None => None
           end.

(** Out of fuel, or a dereference of a reference that is not in the store. *)
Definition stuck {A} : M A := fun _ => None.

Notation "'let*' p ':=' m 'in' k" := (bind m (fun p => k))
  (at level 10, p name, m at level 100, k at level 200, only parsing).

(** [this.root] *)
Definition getRoot : M (option ref) := fun s => Some (root s, s).

(** [this.root = p] *)
Definition setRoot (p : option ref) : M unit :=
  fun s => Some (tt, {| root := p; heap := heap s |}).

(** [new BSTNode(v)]: a fresh object with both children [null]. *)
Definition newBSTNode (v : Z) : M ref :=
  fun s => Some (length (heap s),
                 {| root := root s; heap := heap s ++ [mkBSTNode v None None] |}).

(** Reading the fields of the object behind a reference. *)
Definition load (a : ref) : M BSTNode :=
  fun s => match heap s !! a with
           | Some n => Some (n, s)
           | None => None
           end.

(** [a.left = p] *)
Definition setLeft (a : ref) (p : option ref) : M unit :=
  fun s => match heap s !! a with
           | Some n => Some (tt, {| root := root s;
                                    heap := <[a := mkBSTNode (value n) p (right n)]> (heap s) |})
           | None => None
           end.

(** [a.right = p] *)
Definition setRight (a : ref) (p : option ref) : M unit :=
  fun s => match heap s !! a with
           | Some n => Some (tt, {| root := root s;
                                    heap := <[a := mkBSTNode (value n) (left n) p]> (heap s) |})
           | None => None
           end.

(** ** Step records *)

(** The rendering of a number inside a template literal. *)
Definition show (z : Z) : string := NilZero.string_of_int (Z.to_int z).

(** [steps.push(s)] *)
Definition push (steps : list Step) (s : Step) : list Step := steps ++ [s].

Section StepRecords.
Local Open Scope string_scope.

Definition inserted_as_root (v : Z) : Step :=
  mkStep (Some v) INSERTED ("Inserted " ++ show v ++ " as root").
Definition visiting (c : Z) : Step :=
  mkStep (Some c) VISITED ("Visiting node " ++ show c).
Definition comparing (v c : Z) : Step :=
  mkStep (Some c) COMPARED ("Comparing " ++ show v ++ " with " ++ show c).
Definition moving_left (v c : Z) : Step :=
  mkStep (Some c) MOVED_LEFT (show v ++ " < " ++ show c ++ ", moving left").
Definition moving_right (v c : Z) : Step :=
  mkStep (Some c) MOVED_RIGHT (show v ++ " > " ++ show c ++ ", moving right").
Definition inserted_left (v c : Z) : Step :=
  mkStep (Some v) INSERTED ("Inserted " ++ show v ++ " as left child of " ++ show c).
Definition inserted_right (v c : Z) : Step :=
  mkStep (Some v) INSERTED ("Inserted " ++ show v ++ " as right child of " ++ show c).
Definition already_exists (v c : Z) : Step :=
  mkStep (Some c) FOUND (show v ++ " already exists, skipping").
Definition tree_is_empty (v : Z) : Step :=
  mkStep None NOT_FOUND ("Tree is empty, " ++ show v ++ " not found").
Definition found (v c : Z) : Step :=
  mkStep (Some c) FOUND ("Found " ++ show v ++ "!").
Definition not_found (v : Z) : Step :=
  mkStep None NOT_FOUND (show v ++ " not found in tree").
Definition move_left_from (c : Z) : Step :=
  mkStep (Some c) MOVED_LEFT ("Moving left from " ++ show c).
Definition move_right_from (c : Z) : Step :=
  mkStep (Some c) MOVED_RIGHT ("Moving right from " ++ show c).
Definition visited (c : Z) : Step :=
  mkStep (Some c) VISITED ("Visited " ++ show c).
End StepRecords.

(** ** [insert] *)

(** The [while (true)] loop of [insert]; one unit of fuel per iteration. *)
Fixpoint insert_loop (fuel : nat) (v : Z) (newNode current : ref)
    (steps : list Step) : M (list Step) :=
  match fuel with
  | O => stuck
  | S fuel' =>
    let* cur := load current in
    let steps := push steps (visiting (value cur)) in
    let steps := push steps (comparing v (value cur)) in
    if (v <? value cur)%Z then
      let steps := push steps (moving_left v (value cur)) in
      match left cur with
      | None =>
        let* _ := setLeft current (Some newNode) in
        ret (push steps (inserted_left v (value cur)))
      | Some l => insert_loop fuel' v newNode l steps
      end
    else if (v >? value cur)%Z then
      let steps := push steps (moving_right v (value cur)) in
      match right cur with
      | None =>
        let* _ := setRight current (Some newNode) in
        ret (push steps (inserted_right v (value cur)))
      | Some r => insert_loop fuel' v newNode r steps
      end
    else
      ret (push steps (already_exists v (value cur)))
  end.

Definition insert (fuel : nat) (v : Z) : M (list Step) :=
  let steps := [] in
  let* newNode := newBSTNode v in
  let* r := getRoot in
  match r with
  | None =>
    let* _ := setRoot (Some newNode) in
    ret (push steps (inserted_as_root v))
  | Some current => insert_loop fuel v newNode current steps
  end.

(** ** [search] *)

(** The [while (current !== null)] loop of [search] together with the code
    after it: leaving the loop pushes the final not-found step, the [return]
    inside the loop skips it.  The loop test costs no fuel, each run of the
    body costs one unit. *)
Fixpoint search_loop (fuel : nat) (v : Z) (current : option ref)
    (steps : list Step) : M (list Step) :=
  match current with
  | None => ret (push steps (not_found v))
  | Some c =>
    match fuel with
    | O => stuck
    | S fuel' =>
      let* cur := load c in
      let steps := push steps (visiting (value cur)) in
      let steps := push steps (comparing v (value cur)) in
      if (v =? value cur)%Z then
        ret (push steps (found v (value cur)))
      else if (v <? value cur)%Z then
        search_loop fuel' v (left cur) (push steps (moving_left v (value cur)))
      else
        search_loop fuel' v (right cur) (push steps (moving_right v (value cur)))
    end
  end.

Definition search (fuel : nat) (v : Z) : M (list Step) :=
  let steps := [] in
  let* r := getRoot in
  match r with
  | None => ret (push steps (tree_is_empty v))
  | Some _ => search_loop fuel v r steps
  end.

(** ** Traversals *)

(** The helpers push onto the caller's [steps] array; the array is threaded
    through.  A call on [null] returns at once; a call on a node costs one
    unit of fuel. *)
Fixpoint _inorderHelper (fuel : nat) (n : option ref) (steps : list Step)
    : M (list Step) :=
  match n with
  | None => ret steps
  | Some a =>
    match fuel with
    | O => stuck
    | S fuel' =>
      let* nd := load a in
      let* steps :=
        match left nd with
        | Some _ => _inorderHelper fuel' (left nd) (push steps (move_left_from (value nd)))
        | None => ret steps
        end in
      let steps := push steps (visited (value nd)) in
      match right nd with
      | Some _ => _inorderHelper fuel' (right nd) (push steps (move_right_from (value nd)))
      | None => ret steps
      end
    end
  end.

Definition inorderTraversal (fuel : nat) : M (list Step) :=
  let* r := getRoot in _inorderHelper fuel r [].

Fixpoint _preorderHelper (fuel : nat) (n : option ref) (steps : list Step)
    : M (list Step) :=
  match n with
  | None => ret steps
  | Some a =>
    match fuel with
    | O => stuck
    | S fuel' =>
      let* nd := load a in
      let steps := push steps (visited (value nd)) in
      let* steps :=
        match left nd with
        | Some _ => _preorderHelper fuel' (left nd) (push steps (move_left_from (value nd)))
        | None => ret steps
        end in
      match right nd with
      | Some _ => _preorderHelper fuel' (right nd) (push steps (move_right_from (value nd)))
      | None => ret steps
      end
    end
  end.

Definition preorderTraversal (fuel : nat) : M (list Step) :=
  let* r := getRoot in _preorderHelper fuel r [].

Fixpoint _postorderHelper (fuel : nat) (n : option ref) (steps : list Step)
    : M (list Step) :=
  match n with
  | None => ret steps
  | Some a =>
    match fuel with
    | O => stuck
    | S fuel' =>
      let* nd := load a in
      let* steps :=
        match left nd with
        | Some _ => _postorderHelper fuel' (left nd) (push steps (move_left_from (value nd)))
        | None => ret steps
        end in
      let* steps :=
        match right nd with
        | Some _ => _postorderHelper fuel' (right nd) (push steps (move_right_from (value nd)))
        | None => ret steps
        end in
      ret (push steps (visited (value nd)))
    end
  end.

Definition postorderTraversal (fuel : nat) : M (list Step) :=
  let* r := getRoot in _postorderHelper fuel r [].

(** ** [clear] *)

Definition clear : M unit := setRoot None.

(** Inserting a list of values one after the other, as the sample-tree
    builders of the callers do with [forEach]. *)
Fixpoint insertAll (fuel : nat) (vs : list Z) : M unit :=
  match vs with
  | [] => ret tt
  | v :: vs' => let* _ := insert fuel v in insertAll fuel vs'
  end.

(** ** Abstraction: the tree of objects behind a reference *)

(** The shape reachable from a reference: every node with the reference of
    its object and its value. *)
Inductive tree : Type :=
| Leaf
| Node (l : tree) (a : ref) (x : Z) (r : tree).

(** [repr h p t]: following [left] and [right] links in the store [h] from
    the reference [p] unfolds exactly into [t]. *)
Inductive repr (h : list BSTNode) : option ref -> tree -> Prop :=
| repr_null : repr h None Leaf
| repr_node a n l r :
    h !! a = Some n ->
    repr h (left n) l ->
    repr h (right n) r ->
    repr h (Some a) (Node l a (value n) r).

(** References and values of a tree, both in in-order. *)
Fixpoint refs (t : tree) : list ref :=
  match t with
  | Leaf => []
  | Node l a _ r => refs l ++ a :: refs r
  end.

Fixpoint values (t : tree) : list Z :=
  match t with
  | Leaf => []
  | Node l _ x r => values l ++ x :: values r
  end.

Fixpoint size (t : tree) : nat :=
  match t with
  | Leaf => 0
  | Node l _ _ r => size l + 1 + size r
  end.

Fixpoint height (t : tree) : nat :=
  match t with
  | Leaf => 0
  | Node l _ _ r => S (Nat.max (height l) (height r))
  end.

(** The tree object [s] holds the tree [t]: the links from [root] unfold into
    [t] and no object occurs twice in it. *)
Definition represents (s : BinarySearchTree) (t : tree) : Prop :=
  repr (heap s) (root s) t /\ NoDup (refs t).

(** The BST property: at every node, the values of the left subtree are
    strictly smaller and those of the right subtree strictly greater. *)
Fixpoint bst (t : tree) : Prop :=
  match t with
  | Leaf => True
  | Node l _ x r =>
    (forall y, y ∈ values l -> (y < x)%Z) /\
    (forall y, y ∈ values r -> (x < y)%Z) /\
    bst l /\ bst r
  end.

(** *** What the loops do, read off the tree *)

(** The steps pushed by [insert_loop] started at the root of [t]. *)
Fixpoint insert_steps (v : Z) (t : tree) : list Step :=
  match t with
  | Leaf => []
  | Node l _ c r =>
    visiting c :: comparing v c ::
    if (v <? c)%Z then
      moving_left v c ::
      match l with
      | Leaf => [inserted_left v c]
      | Node _ _ _ _ => insert_steps v l
      end
    else if (v >? c)%Z then
      moving_right v c ::
      match r with
      | Leaf => [inserted_right v c]
      | Node _ _ _ _ => insert_steps v r
      end
    else [already_exists v c]
  end.

(** The tree after [insert_loop] has linked (or dropped) the object [n]. *)
Fixpoint insert_tree (n : ref) (v : Z) (t : tree) : tree :=
  match t with
  | Leaf => Node Leaf n v Leaf
  | Node l a c r =>
    if (v <? c)%Z then Node (insert_tree n v l) a c r
    else if (v >? c)%Z then Node l a c (insert_tree n v r)
    else t
  end.

(** The steps pushed by [search_loop] started at the root of [t]. *)
Fixpoint search_steps (v : Z) (t : tree) : list Step :=
  match t with
  | Leaf => [not_found v]
  | Node l _ c r =>
    visiting c :: comparing v c ::
    if (v =? c)%Z then [found v c]
    else if (v <? c)%Z then moving_left v c :: search_steps v l
    else moving_right v c :: search_steps v r
  end.

Definition is_node (t : tree) : bool :=
  match t with Leaf => false | Node _ _ _ _ => true end.

Definition descend (s : Step) (t : tree) (k : list Step) : list Step :=
  if is_node t then s :: k else [].

Fixpoint inorder_steps (t : tree) : list Step :=
  match t with
  | Leaf => []
  | Node l _ c r =>
    descend (move_left_from c) l (inorder_steps l) ++
    visited c ::
    descend (move_right_from c) r (inorder_steps r)
  end.

Fixpoint preorder_steps (t : tree) : list Step :=
  match t with
  | Leaf => []
  | Node l _ c r =>
    visited c ::
    descend (move_left_from c) l (preorder_steps l) ++
    descend (move_right_from c) r (preorder_steps r)
  end.

Fixpoint postorder_steps (t : tree) : list Step :=
  match t with
  | Leaf => []
  | Node l _ c r =>
    descend (move_left_from c) l (postorder_steps l) ++
    descend (move_right_from c) r (postorder_steps r) ++
    [visited c]
  end.

(** Whether the descent for [v] ends on a node holding [v]. *)
Fixpoint hit (v : Z) (t : tree) : bool :=
  match t with
  | Leaf => false
  | Node l _ c r =>
    if (v <? c)%Z then hit v l
    else if (v >? c)%Z then hit v r
    else true
  end.

(** [h'] is [h] with one [null] link of one object set to [nn]. *)
Definition links_one (h h' : list BSTNode) (nn : ref) : Prop :=
  exists p n, h !! p = Some n /\
    ((left n = None /\ h' = <[p := mkBSTNode (value n) (Some nn) (right n)]> h) \/
     (right n = None /\ h' = <[p := mkBSTNode (value n) (left n) (Some nn)]> h)).

(** The steps [insert] returns. *)
Definition insert_trace (v : Z) (t : tree) : list Step :=
  match t with
  | Leaf => [inserted_as_root v]
  | Node _ _ _ _ => insert_steps v t
  end.

(** ** The BST property, stated on the objects themselves *)

(** [reach h p b]: the object [b] is [p] or lies below it. *)
Inductive reach (h : list BSTNode) : option ref -> ref -> Prop :=
| reach_here a : reach h (Some a) a
| reach_left a n b : h !! a = Some n -> reach h (left n) b -> reach h (Some a) b
| reach_right a n b : h !! a = Some n -> reach h (right n) b -> reach h (Some a) b.

(** For every node of the tree, every value in its left subtree is strictly
    less than the node's value and every value in its right subtree is
    strictly greater. *)
Definition BSTProperty (s : BinarySearchTree) : Prop :=
  forall a n, reach (heap s) (root s) a -> heap s !! a = Some n ->
    (forall b m, reach (heap s) (left n) b -> heap s !! b = Some m ->
                 (value m < value n)%Z) /\
    (forall b m, reach (heap s) (right n) b -> heap s !! b = Some m ->
                 (value n < value m)%Z).

(** A computation that never changes the tree object or its nodes. *)
Definition readonly {A} (m : M A) : Prop :=
  forall s a s', m s = Some (a, s') -> s' = s.

(** ** Reading step sequences *)

(** The steps that only record progress of a walk. *)
Definition progress (st : Step) : Prop :=
  action st = VISITED \/ action st = COMPARED \/
  action st = MOVED_LEFT \/ action st = MOVED_RIGHT.

(** The steps that report how an operation ended. *)
Definition outcome (st : Step) : Prop :=
  action st = INSERTED \/ action st = FOUND \/ action st = NOT_FOUND.

(** The node values of the VISITED steps, in order. *)
Definition visited_values (steps : list Step) : list Z :=
  omap (fun st => if decide (action st = VISITED) then node st else None) steps.

Definition visited_count (steps : list Step) : nat :=
  length (filter (fun st => action st = VISITED) steps).

Definition is_move (st : Step) : Prop :=
  action st = MOVED_LEFT \/ action st = MOVED_RIGHT.

Definition move_count (steps : list Step) : nat :=
  length (filter is_move steps).

(** The movement steps as (node, direction) pairs, in order. *)
Definition moves (steps : list Step) : list (option Z * Action) :=
  (fun st => (node st, action st)) <$> filter is_move steps.

(** [precedes a b steps]: an occurrence of [a] comes before one of [b]. *)
Definition precedes (a b : Step) (steps : list Step) : Prop :=
  exists s1 s2 s3, steps = s1 ++ a :: s2 ++ b :: s3.

(** [is_child s p c]: some node of the tree holds [p] and one of its two
    children holds [c]. *)
Definition is_child (s : BinarySearchTree) (p c : Z) : Prop :=
  exists a n b m,
    reach (heap s) (root s) a /\ heap s !! a = Some n /\
    (left n = Some b \/ right n = Some b) /\ heap s !! b = Some m /\
    value n = p /\ value m = c.

(** *** The same notions on the represented tree *)

Definition root_value (t : tree) : option Z :=
  match t with Leaf => None | Node _ _ x _ => Some x end.

Inductive child_in : tree -> Z -> Z -> Prop :=
| child_left l a x r c : root_value l = Some c -> child_in (Node l a x r) x c
| child_right l a x r c : root_value r = Some c -> child_in (Node l a x r) x c
| child_below_left l a x r p c : child_in l p c -> child_in (Node l a x r) p c
| child_below_right l a x r p c : child_in r p c -> child_in (Node l a x r) p c.

(** The links of a tree: one pair per present child, tagged with the parent's
    value and the side. *)
Fixpoint links (t : tree) : list (option Z * Action) :=
  match t with
  | Leaf => []
  | Node l _ x r =>
    (if is_node l then (Some x, MOVED_LEFT) :: links l else []) ++
    (if is_node r then (Some x, MOVED_RIGHT) :: links r else [])
  end.

(** Number of links from the root down to the node holding [v] (root: 0). *)
Fixpoint depth (v : Z) (t : tree) : option nat :=
  match t with
  | Leaf => None
  | Node l _ x r =>
    if (v =? x)%Z then Some 0
    else match depth v l with
         | Some d => Some (S d)
         | None => S <$> depth v r
         end
  end.

(** ** A sample tree *)

(** The tree the callers build from [50, 30, 70, 20, 40, 60, 80]. *)
Definition sample_values : list Z := [50; 30; 70; 20; 40; 60; 80]%Z.

Definition sample : BinarySearchTree :=
  {| root := Some 0;
     heap := [mkBSTNode 50 (Some 1) (Some 2);
              mkBSTNode 30 (Some 3) (Some 4);
              mkBSTNode 70 (Some 5) (Some 6);
              mkBSTNode 20 None None;
              mkBSTNode 40 None None;
              mkBSTNode 60 None None;
              mkBSTNode 80 None None] |}.

Definition sample_tree : tree :=
  Node (Node (Node Leaf 3 20 Leaf) 1 30 (Node Leaf 4 40 Leaf))
       0 50
       (Node (Node Leaf 5 60 Leaf) 2 70 (Node Leaf 6 80 Leaf)).

(** The sample tree after [clear()]: no root, the old objects still in the
    store. *)
Definition cleared_sample : BinarySearchTree :=
  {| root := None; heap := heap sample |}.

(** A tree holding 50 alone. *)
Definition single : BinarySearchTree :=
  {| root := Some 0; heap := [mkBSTNode 50 None None] |}.

(** ** Layout: [computePositions] and [collectEdges] of [BSTVisualizer.jsx] *)

(** [const CONFIG = { NODE_RADIUS: 25, ... }] *)
Module CONFIG.
Definition NODE_RADIUS : Z := 25.
Definition HORIZONTAL_SPACING : Z := 60.
Definition VERTICAL_SPACING : Z := 80.
Definition PADDING : Z := 50.
End CONFIG.

(** A position record [{ x, y, node }]; [node] is the node object. *)
Module Position.
Record t : Type := mk { x : Z; y : Z; node : ref }.
End Position.

(** [calculateWidths(node)], writing into the [widths] map, which is keyed by
    node object.  The recursion follows links in the store [h] and costs one
    unit of fuel per node entered. *)
Fixpoint calculateWidths (fuel : nat) (h : list BSTNode) (n : option ref)
    (widths : gmap nat Z) : option (Z * gmap nat Z) :=
  match n with
  | None => Some (0%Z, widths)
  | Some a =>
    match fuel with
    | O => None
    | S fuel' =>
      nd ← h !! a;
      '(leftWidth, widths) ← calculateWidths fuel' h (left nd) widths;
      '(rightWidth, widths) ← calculateWidths fuel' h (right nd) widths;
      let totalWidth := (leftWidth + 1 + rightWidth)%Z in
      Some (totalWidth, <[a := totalWidth]> widths)
    end
  end.

(** [assignPositions(node, depth, leftBound)], writing into the [positions]
    map, which is keyed by node value.  A width missing from [widths] (which
    would make [x] not a number) is modelled as getting stuck. *)
Fixpoint assignPositions (fuel : nat) (h : list BSTNode) (widths : gmap nat Z)
    (n : option ref) (depth leftBound : Z) (positions : gmap Z Position.t)
    : option (gmap Z Position.t) :=
  match n with
  | None => Some positions
  | Some a =>
    match fuel with
    | O => None
    | S fuel' =>
      nd ← h !! a;
      leftWidth ← match left nd with
                  | Some l => widths !! l
                  | None => Some 0%Z
                  end;
      let x := (CONFIG.PADDING + (leftBound + leftWidth) * CONFIG.HORIZONTAL_SPACING)%Z in
      let y := (CONFIG.PADDING + depth * CONFIG.VERTICAL_SPACING)%Z in
      let positions := <[value nd := Position.mk x y a]> positions in
      positions ← assignPositions fuel' h widths (left nd) (depth + 1) leftBound positions;
      assignPositions fuel' h widths (right nd) (depth + 1)
                      (leftBound + leftWidth + 1) positions
    end
  end.

Definition computePositions (fuel : nat) (h : list BSTNode) (root : option ref)
    : option (gmap Z Position.t) :=
  match root with
  | None => Some ∅
  | Some _ =>
    '(_, widths) ← calculateWidths fuel h root ∅;
    assignPositions fuel h widths root 0 0 ∅
  end.

(** The direction tag of an edge: ['left'] or ['right']. *)
Inductive Direction : Type := dir_left | dir_right.

(** An edge record [{ parent, child, direction }]; a position looked up for a
    value that has none is [undefined], here [None]. *)
Record Edge : Type := mkEdge {
  parent : option Position.t;
  child : option Position.t;
  direction : Direction
}.

(** The inner [traverse(node)] of [collectEdges], pushing onto [edges]. *)
Fixpoint traverse (fuel : nat) (h : list BSTNode) (positions : gmap Z Position.t)
    (n : option ref) (edges : list Edge) : option (list Edge) :=
  match n with
  | None => Some edges
  | Some a =>
    match fuel with
    | O => None
    | S fuel' =>
      nd ← h !! a;
      let parentPos := positions !! value nd in
      edges ← match left nd with
              | Some l =>
                ln ← h !! l;
                let childPos := positions !! value ln in
                traverse fuel' h positions (left nd)
                         (edges ++ [mkEdge parentPos childPos dir_left])
              | None => Some edges
              end;
      match right nd with
      | Some r =>
        rn ← h !! r;
        let childPos := positions !! value rn in
        traverse fuel' h positions (right nd)
                 (edges ++ [mkEdge parentPos childPos dir_right])
      | None => Some edges
      end
    end
  end.

Definition collectEdges (fuel : nat) (h : list BSTNode) (root : option ref)
    (positions : gmap Z Position.t) : option (list Edge) :=
  traverse fuel h positions root [].

(** *** The layout as the specification words it *)

(** Width pass: [width(node) = width(left) + 1 + width(right)], and 0 for an
    absent node. *)
Fixpoint width (t : tree) : Z :=
  match t with
  | Leaf => 0
  | Node l _ _ r => width l + 1 + width r
  end.

(** Position pass: a node at [depth] with [leftBound] gets
    [x = PADDING + (leftBound + width(left)) * HORIZONTAL_SPACING] and
    [y = PADDING + depth * VERTICAL_SPACING]; the left subtree keeps
    [leftBound], the right one starts at [leftBound + width(left) + 1]. *)
Fixpoint placements (t : tree) (depth leftBound : Z) : list (Z * Position.t) :=
  match t with
  | Leaf => []
  | Node l a v r =>
    (v, Position.mk
          (CONFIG.PADDING + (leftBound + width l) * CONFIG.HORIZONTAL_SPACING)
          (CONFIG.PADDING + depth * CONFIG.VERTICAL_SPACING) a)
    :: placements l (depth + 1) leftBound
    ++ placements r (depth + 1) (leftBound + width l + 1)
  end.

(** [subtree s t]: [s] is [t] or the tree below one of its nodes. *)
Inductive subtree : tree -> tree -> Prop :=
| subtree_refl t : subtree t t
| subtree_left s l a v r : subtree s l -> subtree s (Node l a v r)
| subtree_right s l a v r : subtree s r -> subtree s (Node l a v r).

(** Writing a list of entries into a map, in order. *)
Definition set_all (l : list (Z * Position.t)) (m : gmap Z Position.t)
    : gmap Z Position.t :=
  foldl (fun m kv => <[kv.1 := kv.2]> m) m l.

(** Every width recorded in [w] is the width of the tree behind its key. *)
Definition widths_ok (h : list BSTNode) (w : gmap nat Z) : Prop :=
  forall a z, w !! a = Some z -> exists s, repr h (Some a) s /\ z = width s.

(** ** The tree objects a caller can produce *)

(** Starting from [new BinarySearchTree()], any sequence of method calls. *)
Inductive reachable : BinarySearchTree -> Prop :=
| reachable_new : reachable new_BinarySearchTree
| reachable_insert s fuel v steps s' :
    reachable s -> insert fuel v s = Some (steps, s') -> reachable s'
| reachable_search s fuel v steps s' :
    reachable s -> search fuel v s = Some (steps, s') -> reachable s'
| reachable_inorder s fuel steps s' :
    reachable s -> inorderTraversal fuel s = Some (steps, s') -> reachable s'
| reachable_preorder s fuel steps s' :
    reachable s -> preorderTraversal fuel s = Some (steps, s') -> reachable s'
| reachable_postorder s fuel steps s' :
    reachable s -> postorderTraversal fuel s = Some (steps, s') -> reachable s'
| reachable_clear s s' :
    reachable s -> clear s = Some (tt, s') -> reachable s'.

(** ** Further notions used to describe the code *)

(** [holds s x]: some node of the tree holds the value [x]. *)
Definition holds (s : BinarySearchTree) (x : Z) : Prop :=
  exists a n, reach (heap s) (root s) a /\ heap s !! a = Some n /\ value n = x.

(** ** [getTreeStructure] of [src/bst.js] *)

(** The [position] of a node record and the [direction] of an edge record:
    ['root'], ['left'] or ['right']. *)
Inductive Side : Type := side_root | side_left | side_right.

(** A node record [{ id, value, position }]. *)
Module StructNode.
Record t : Type := mk { id : Z; value : Z; position : Side }.
End StructNode.

(** An edge record [{ from, to, direction }]. *)
Module StructEdge.
Record t : Type := mk { from : Z; to : Z; direction : Side }.
End StructEdge.

(** [_buildStructure(node, parentId, position, nodes, edges, nodeId)]; the two
    arrays are threaded through.  Ids are JavaScript numbers: doubling is
    exact below 2^53, and the theorems on ids assume a tree no higher than
    53, which keeps every id below that. *)
Fixpoint _buildStructure (fuel : nat) (n : option ref) (parentId : option Z)
    (position : Side) (nodes : list StructNode.t) (edges : list StructEdge.t)
    (nodeId : Z) : M (list StructNode.t * list StructEdge.t) :=
  match n with
  | None => ret (nodes, edges)
  | Some a =>
    match fuel with
    | O => stuck
    | S fuel' =>
      let* nd := load a in
      let nodes := nodes ++ [StructNode.mk nodeId (value nd) position] in
      let edges := match parentId with
                   | Some p => edges ++ [StructEdge.mk p nodeId position]
                   | None => edges
                   end in
      let* ne :=
        match left nd with
        | Some _ => _buildStructure fuel' (left nd) (Some nodeId) side_left
                                    nodes edges (nodeId * 2)
        | None => ret (nodes, edges)
        end in
      match right nd with
      | Some _ => _buildStructure fuel' (right nd) (Some nodeId) side_right
                                  ne.1 ne.2 (nodeId * 2 + 1)
      | None => ret ne
      end
    end
  end.

(** [getTreeStructure()], returning [{ nodes, edges }] as a pair. *)
Definition getTreeStructure (fuel : nat)
    : M (list StructNode.t * list StructEdge.t) :=
  let* r := getRoot in _buildStructure fuel r None side_root [] [] 1.

(** *** The same, read off the tree *)

Fixpoint structure_nodes (t : tree) (side : Side) (i : Z) : list StructNode.t :=
  match t with
  | Leaf => []
  | Node l _ x r =>
    StructNode.mk i x side
    :: structure_nodes l side_left (i * 2)
    ++ structure_nodes r side_right (i * 2 + 1)
  end.

Fixpoint structure_edges (t : tree) (parentId : option Z) (side : Side) (i : Z)
    : list StructEdge.t :=
  match t with
  | Leaf => []
  | Node l _ x r =>
    match parentId with Some p => [StructEdge.mk p i side] | None => [] end
    ++ structure_edges l (Some i) side_left (i * 2)
    ++ structure_edges r (Some i) side_right (i * 2 + 1)
  end.

(** The edge that leads to a node: from the id halved, on the node's side. *)
Definition edge_to (nd : StructNode.t) : StructEdge.t :=
  StructEdge.mk (StructNode.id nd `div` 2) (StructNode.id nd) (StructNode.position nd).

(** Values in pre-order. *)
Fixpoint preorder_values (t : tree) : list Z :=
  match t with
  | Leaf => []
  | Node l _ x r => x :: preorder_values l ++ preorder_values r
  end.

(** The way down to every node, in pre-order: [false] for left, [true] for
    right, nearest the root first. *)
Fixpoint paths (t : tree) : list (list bool) :=
  match t with
  | Leaf => []
  | Node l _ _ r => [] :: ((cons false) <$> paths l) ++ ((cons true) <$> paths r)
  end.

(** The id at the end of a path that starts at the node with id [i]. *)
Definition id_along (i : Z) (p : list bool) : Z :=
  foldl (fun a (b : bool) => if b then a * 2 + 1 else a * 2)%Z i p.

(** ** Edges of the laid-out tree *)

(** The edges [collectEdges] pushes, read off the tree. *)
Fixpoint edge_list (positions : gmap Z Position.t) (t : tree) : list Edge :=
  match t with
  | Leaf => []
  | Node l _ x r =>
    match root_value l with
    | Some c => mkEdge (positions !! x) (positions !! c) dir_left :: edge_list positions l
    | None => []
    end ++
    match root_value r with
    | Some c => mkEdge (positions !! x) (positions !! c) dir_right :: edge_list positions r
    | None => []
    end
  end.

(** An edge the renderer can draw: both ends have a position, the child lies
    one row below the parent, to the left of it for a 'left' edge and to the
    right of it for a 'right' edge. *)
Definition well_placed (e : Edge) : Prop :=
  exists pp pc,
    parent e = Some pp /\ child e = Some pc /\
    Position.y pc = (Position.y pp + CONFIG.VERTICAL_SPACING)%Z /\
    match direction e with
    | dir_left => (Position.x pc < Position.x pp)%Z
    | dir_right => (Position.x pp < Position.x pc)%Z
    end.

(** ** [BSTRenderer.computePositions] of the plain-JavaScript renderer *)

(** The returned object: [{ width: 0 }] for no tree, [{ width, positions }]
    otherwise. *)
Module Computed.
Record t : Type := mk { width : Z; positions : option (gmap Z Position.t) }.
End Computed.

(** [computePositions(root)] of [BSTRenderer].  The renderer keeps its map
    [this.nodePositions] between calls; the method clears it first.  Its two
    passes [_calculateWidths] and [_assignPositions] have the bodies of
    [calculateWidths] and [assignPositions] above, with [widths] passed along
    and [this.nodePositions] written.  The pair returned is the result object
    and the renderer's map afterwards. *)
Definition BSTRenderer_computePositions (fuel : nat) (h : list BSTNode)
    (root : option ref) (nodePositions : gmap Z Position.t)
    : option (Computed.t * gmap Z Position.t) :=
  let nodePositions : gmap Z Position.t := ∅ in
  match root with
  | None => Some (Computed.mk 0 None, nodePositions)
  | Some a =>
    '(_, widths) ← calculateWidths fuel h root ∅;
    nodePositions ← assignPositions fuel h widths root 0 0 nodePositions;
    let width := match widths !! a with
                 | Some w => if (w =? 0)%Z then 1%Z else w
                 | None => 1%Z
                 end in
    Some (Computed.mk width (Some nodePositions), nodePositions)
  end.

(** ** Size of the drawing in [BSTVisualizer] *)

(** [Math.max(...)] of a non-empty argument list. *)
Definition Math_max (x : Z) (xs : list Z) : Z := foldl Z.max x xs.

(** [svgWidth] and [svgHeight]: the largest coordinate plus margins, or a
    fixed size when there are no positions.  The order in which the map hands
    out its values does not matter to the maximum. *)
Definition svgWidth (positions : gmap Z Position.t) : Z :=
  match (map_to_list positions).*2 with
  | [] => 400
  | p :: ps =>
    Math_max (Position.x p) (Position.x <$> ps)
    + CONFIG.PADDING + CONFIG.NODE_RADIUS + 50
  end.

Definition svgHeight (positions : gmap Z Position.t) : Z :=
  match (map_to_list positions).*2 with
  | [] => 300
  | p :: ps =>
    Math_max (Position.y p) (Position.y <$> ps)
    + CONFIG.PADDING + CONFIG.NODE_RADIUS + 50
  end.

(** ** [cloneTree] of [App.jsx] *)

(** An object literal [{ value, left, right }]: a fresh object in the store. *)
Definition newObject (n : BSTNode) : M ref :=
  fun s => Some (length (heap s), {| root := root s; heap := heap s ++ [n] |}).

(** [cloneTree(node)]: the fields of the literal are evaluated in order
    (value, left clone, right clone) before the object is created. *)
Fixpoint cloneTree (fuel : nat) (n : option ref) : M (option ref) :=
  match n with
  | None => ret None
  | Some a =>
    match fuel with
    | O => stuck
    | S fuel' =>
      let* nd := load a in
      let* l := cloneTree fuel' (left nd) in
      let* r := cloneTree fuel' (right nd) in
      let* c := newObject (mkBSTNode (value nd) l r) in
      ret (Some c)
    end
  end.

(** A tree with the references of its objects forgotten: values and shape
    only. *)
Fixpoint unlabel (t : tree) : tree :=
  match t with
  | Leaf => Leaf
  | Node l _ x r => Node (unlabel l) 0 x (unlabel r)
  end.

(** The coordinates of a position. *)
Definition coordinates (p : Position.t) : Z * Z := (Position.x p, Position.y p).

(** The tree that inserting [vs] one by one builds, references forgotten. *)
Definition built_shape (vs : list Z) (t : tree) : tree :=
  foldl (fun t v => insert_tree 0 v t) t vs.

(** ** [BSTAnimator] of [src/animator.js] *)

(** The highlight classes of [stateMap]. *)
Inductive Highlight : Type := hl_active | hl_compared | hl_found | hl_inserted.

(** What the animator does to the outside: calls on the renderer and calls of
    the three callbacks.  The progress object handed to [onStatusChange] is
    recorded without its [percentage], a rounded floating-point quotient. *)
Inductive Event : Type :=
| ev_clearHighlights
| ev_highlightNode (v : Z) (state : Highlight)
| ev_highlightEdge (v : Z) (d : Direction)
| ev_onStepChange (step : Step) (current total : nat)
| ev_onStatusChange (current total : nat) (playing : bool) (currentStep : option Step)
| ev_onComplete.

Module BSTAnimator.

(** The fields of the animator, whether each callback is installed, and the
    surroundings: the timeouts that are set and have neither fired nor been
    cleared, the next timeout id (ids are positive, hence truthy), and the
    calls made so far. *)
Record t : Type := mk {
  steps : list Step;
  currentIndex : nat;
  isPlaying : bool;
  speed : Z;
  timeoutId : option nat;
  onStepChange : bool;
  onComplete : bool;
  onStatusChange : bool;
  timers : list nat;
  nextTimer : nat;
  log : list Event
}.

Definition set_steps (x : list Step) (a : t) : t :=
  mk x (currentIndex a) (isPlaying a) (speed a) (timeoutId a)
     (onStepChange a) (onComplete a) (onStatusChange a) (timers a) (nextTimer a) (log a).
Definition set_currentIndex (x : nat) (a : t) : t :=
  mk (steps a) x (isPlaying a) (speed a) (timeoutId a)
     (onStepChange a) (onComplete a) (onStatusChange a) (timers a) (nextTimer a) (log a).
Definition set_isPlaying (x : bool) (a : t) : t :=
  mk (steps a) (currentIndex a) x (speed a) (timeoutId a)
     (onStepChange a) (onComplete a) (onStatusChange a) (timers a) (nextTimer a) (log a).
Definition set_speed (x : Z) (a : t) : t :=
  mk (steps a) (currentIndex a) (isPlaying a) x (timeoutId a)
     (onStepChange a) (onComplete a) (onStatusChange a) (timers a) (nextTimer a) (log a).
Definition set_timeoutId (x : option nat) (a : t) : t :=
  mk (steps a) (currentIndex a) (isPlaying a) (speed a) x
     (onStepChange a) (onComplete a) (onStatusChange a) (timers a) (nextTimer a) (log a).
Definition set_timers (x : list nat) (a : t) : t :=
  mk (steps a) (currentIndex a) (isPlaying a) (speed a) (timeoutId a)
     (onStepChange a) (onComplete a) (onStatusChange a) x (nextTimer a) (log a).
Definition set_nextTimer (x : nat) (a : t) : t :=
  mk (steps a) (currentIndex a) (isPlaying a) (speed a) (timeoutId a)
     (onStepChange a) (onComplete a) (onStatusChange a) (timers a) x (log a).

(** One more call made. *)
Definition emit (e : Event) (a : t) : t :=
  mk (steps a) (currentIndex a) (isPlaying a) (speed a) (timeoutId a)
     (onStepChange a) (onComplete a) (onStatusChange a) (timers a) (nextTimer a)
     (log a ++ [e]).

(** [new BSTAnimator(renderer)], with or without callbacks. *)
Definition new (onStepChange onComplete onStatusChange : bool) : t :=
  mk [] 0 false 800 None onStepChange onComplete onStatusChange [] 1 [].

(** [setTimeout(() => this._executeStep(), this.speed)]: a new pending
    timeout; its id is returned. *)
Definition setTimeout (a : t) : nat * t :=
  (nextTimer a, set_nextTimer (S (nextTimer a)) (set_timers (timers a ++ [nextTimer a]) a)).

(** [clearTimeout(id)] *)
Definition clearTimeout (id : nat) (a : t) : t :=
  set_timers (filter (fun i => i <> id) (timers a)) a.

(** [_notifyStatus()], with [getProgress()] inlined. *)
Definition _notifyStatus (a : t) : t :=
  if onStatusChange a
  then emit (ev_onStatusChange (currentIndex a) (length (steps a)) (isPlaying a)
                               (steps a !! currentIndex a)) a
  else a.

Definition stateMap (act : Action) : Highlight :=
  match act with
  | VISITED => hl_active
  | COMPARED => hl_compared
  | FOUND => hl_found
  | INSERTED => hl_inserted
  | NOT_FOUND => hl_active
  | MOVED_LEFT => hl_active
  | MOVED_RIGHT => hl_active
  end.

(** [_highlightStep(step, clearPrevious)] *)
Definition _highlightStep (step : Step) (clearPrevious : bool) (a : t) : t :=
  let a := if clearPrevious then emit ev_clearHighlights a else a in
  match node step with
  | None => a
  | Some v =>
    let a := emit (ev_highlightNode v (stateMap (action step))) a in
    let a := match action step with
             | MOVED_LEFT => emit (ev_highlightEdge v dir_left) a
             | MOVED_RIGHT => emit (ev_highlightEdge v dir_right) a
             | _ => a
             end in
    if onStepChange a
    then emit (ev_onStepChange step (currentIndex a) (length (steps a))) a
    else a
  end.

(** The methods return [None] where JavaScript would throw, which is when a
    step is read past the end of [steps]. *)

Definition pause (a : t) : t :=
  let a := set_isPlaying false a in
  let a := match timeoutId a with
           | Some id => set_timeoutId None (clearTimeout id a)
           | None => a
           end in
  _notifyStatus a.

Definition stop (a : t) : t :=
  let a := pause a in
  let a := set_currentIndex 0 a in
  let a := emit ev_clearHighlights a in
  _notifyStatus a.

Definition setSteps (new_steps : list Step) (a : t) : t :=
  let a := stop a in
  let a := set_steps new_steps a in
  let a := set_currentIndex 0 a in
  _notifyStatus a.

Definition setSpeed (ms : Z) (a : t) : t := set_speed ms a.

Definition _executeStep (a : t) : option t :=
  if negb (isPlaying a) || (length (steps a) <=? currentIndex a)
  then
    let a := set_isPlaying false a in
    let a := _notifyStatus a in
    Some (if onComplete a then emit ev_onComplete a else a)
  else
    step ← steps a !! currentIndex a;
    let a := _highlightStep step true a in
    let a := set_currentIndex (S (currentIndex a)) a in
    let a := _notifyStatus a in
    let '(id, a) := setTimeout a in
    Some (set_timeoutId (Some id) a).

Definition play (a : t) : option t :=
  if length (steps a) =? 0 then Some a
  else
    let a := if length (steps a) <=? currentIndex a then set_currentIndex 0 a else a in
    let a := set_isPlaying true a in
    let a := _notifyStatus a in
    _executeStep a.

Definition stepForward (a : t) : option t :=
  if currentIndex a <? length (steps a) then
    step ← steps a !! currentIndex a;
    let a := _highlightStep step true a in
    let a := set_currentIndex (S (currentIndex a)) a in
    let a := _notifyStatus a in
    Some (if (length (steps a) <=? currentIndex a) && onComplete a
          then emit ev_onComplete a else a)
  else Some a.

(** The [for] loop of [stepBackward], from [i] for [n] rounds. *)
Fixpoint replay (i n : nat) (a : t) : option t :=
  match n with
  | O => Some a
  | S n' =>
    step ← steps a !! i;
    replay (S i) n' (_highlightStep step false a)
  end.

Definition stepBackward (a : t) : option t :=
  if 0 <? currentIndex a then
    let a := set_currentIndex (currentIndex a - 1) a in
    let a := emit ev_clearHighlights a in
    a ← replay 0 (currentIndex a) a;
    a ← (if 0 <? currentIndex a
         then step ← steps a !! (currentIndex a - 1);
              Some (_highlightStep step true a)
         else Some a);
    Some (_notifyStatus a)
  else Some a.

(** [goToStep(index)], for an integer [index]. *)
Definition goToStep (index : Z) (a : t) : option t :=
  if (0 <=? index)%Z && (index <? Z.of_nat (length (steps a)))%Z then
    let a := set_currentIndex (Z.to_nat index) a in
    let a := emit ev_clearHighlights a in
    step ← steps a !! Z.to_nat index;
    let a := _highlightStep step true a in
    Some (_notifyStatus a)
  else Some a.

(** The pending timeout [id] fires and runs its callback; a timeout that is
    not pending does not fire. *)
Definition fire (id : nat) (a : t) : option t :=
  if decide (id ∈ timers a)
  then _executeStep (clearTimeout id a)
  else Some a.

(** What can be done to an animator. *)
Inductive call : Type :=
| c_setSteps (new_steps : list Step)
| c_setSpeed (ms : Z)
| c_play
| c_pause
| c_stop
| c_stepForward
| c_stepBackward
| c_goToStep (index : Z)
| c_fire (id : nat).

Definition run (c : call) (a : t) : option t :=
  match c with
  | c_setSteps st => Some (setSteps st a)
  | c_setSpeed ms => Some (setSpeed ms a)
  | c_play => play a
  | c_pause => Some (pause a)
  | c_stop => Some (stop a)
  | c_stepForward => stepForward a
  | c_stepBackward => stepBackward a
  | c_goToStep i => goToStep i a
  | c_fire id => fire id a
  end.

(** The oldest pending timeout fires, [n] times over; nothing happens once
    none is pending. *)
Fixpoint fire_next (n : nat) (a : t) : option t :=
  match n with
  | O => Some a
  | S n' =>
    match timers a with
    | [] => Some a
    | id :: _ => a ← fire id a; fire_next n' a
    end
  end.

(** The node highlights in a list of calls, in order. *)
Definition highlights (l : list Event) : list (Z * Highlight) :=
  omap (fun e => match e with ev_highlightNode v h => Some (v, h) | _ => None end) l.

(** The node highlights that replaying a list of steps asks for. *)
Definition highlights_of (l : list Step) : list (Z * Highlight) :=
  omap (fun st => v ← node st; Some (v, stateMap (action st))) l.

(** Number of completion callbacks in a list of calls. *)
Definition completions (l : list Event) : nat :=
  length (omap (fun e => match e with ev_onComplete => Some tt | _ => None end) l).

(** What one step puts on the screen: the calls [_highlightStep] makes on the
    renderer after clearing. *)
Definition drawing (step : Step) : list Event :=
  match node step with
  | None => []
  | Some v =>
    ev_highlightNode v (stateMap (action step)) ::
    match action step with
    | MOVED_LEFT => [ev_highlightEdge v dir_left]
    | MOVED_RIGHT => [ev_highlightEdge v dir_right]
    | _ => []
    end
  end.

(** What is on the screen after a list of calls: the highlights asked for
    since the renderer last cleared them. *)
Definition screen_after (shown : list Event) (e : Event) : list Event :=
  match e with
  | ev_clearHighlights => []
  | ev_highlightNode _ _ | ev_highlightEdge _ _ => shown ++ [e]
  | _ => shown
  end.

Definition on_screen (l : list Event) : list Event := foldl screen_after [] l.

(** The calls [_notifyStatus] and [_highlightStep] make. *)
Definition status_calls (a : t) : list Event :=
  if onStatusChange a
  then [ev_onStatusChange (currentIndex a) (length (steps a)) (isPlaying a)
                          (steps a !! currentIndex a)]
  else [].

Definition step_calls (step : Step) (clearPrevious : bool) (a : t) : list Event :=
  (if clearPrevious then [ev_clearHighlights] else []) ++
  match node step with
  | None => []
  | Some _ =>
    drawing step ++
    if onStepChange a
    then [ev_onStepChange step (currentIndex a) (length (steps a))]
    else []
  end.

(** All the animator's fields but the calls made. *)
Definition set_log (x : list Event) (a : t) : t :=
  mk (steps a) (currentIndex a) (isPlaying a) (speed a) (timeoutId a)
     (onStepChange a) (onComplete a) (onStatusChange a) (timers a) (nextTimer a) x.

(** The index is within [steps]. *)
Definition in_range (a : t) : Prop := currentIndex a <= length (steps a).

(** A timeout is pending exactly while playing, and then it is the one the
    animator remembers, the only one. *)
Definition one_timer (a : t) : Prop :=
  if isPlaying a
  then exists id, timers a = [id] /\ timeoutId a = Some id
  else timers a = [].

End BSTAnimator.
(** *** Basic facts about [repr] *)

Lemma repr_frame h h' p t :
  repr h p t ->
  (forall b, b ∈ refs t -> h' !! b = h !! b) ->
  repr h' p t.
Proof.
  induction 1 as [|a n l r Ha _ IHl _ IHr]; intros Hfr; [constructor|].
  simpl in Hfr. constructor.
  - rewrite Hfr; [done|]. set_solver.
  - apply IHl. intros b Hb. apply Hfr. set_solver.
  - apply IHr. intros b Hb. apply Hfr. set_solver.
Qed.

Lemma repr_refs_lt h p t b : repr h p t -> b ∈ refs t -> b < length h.
Proof.
  induction 1 as [|a n l r Ha _ IHl _ IHr]; simpl; [set_solver|].
  rewrite elem_of_app, elem_of_cons. intros [?|[->|?]]; auto.
  by eapply lookup_lt_Some.
Qed.

Lemma repr_app h k p t : repr h p t -> repr (h ++ k) p t.
Proof.
  intros H. eapply repr_frame; [exact H|].
  intros b Hb. apply lookup_app_l. by eapply repr_refs_lt.
Qed.

Lemma repr_inj h p t t' : repr h p t -> repr h p t' -> t = t'.
Proof.
  intros H. revert t'.
  induction H as [|a n l r Ha _ IHl _ IHr]; intros t' H'; inversion H'; subst; [done|].
  assert (n0 = n) as -> by congruence.
  f_equal; auto.
Qed.

Lemma repr_Leaf h p : repr h p Leaf -> p = None.
Proof. by inversion 1. Qed.

Lemma repr_Node h p l a x r :
  repr h p (Node l a x r) ->
  exists n, p = Some a /\ h !! a = Some n /\ value n = x /\
            repr h (left n) l /\ repr h (right n) r.
Proof. inversion 1; subst. eauto 10. Qed.

(** *** The loops compute what the tree says *)

Lemma push3 (steps : list Step) a b c k :
  push (push (push steps a) b) c ++ k = steps ++ a :: b :: c :: k.
Proof. unfold push. by rewrite <- !app_assoc. Qed.

Lemma insert_loop_spec v nn t : forall fuel h rt cur steps,
  is_node t = true ->
  repr h (Some cur) t ->
  NoDup (refs t) ->
  nn ∉ refs t ->
  h !! nn = Some (mkBSTNode v None None) ->
  height t <= fuel ->
  exists h',
    insert_loop fuel v nn cur steps (mkBST rt h)
      = Some (steps ++ insert_steps v t, mkBST rt h') /\
    repr h' (Some cur) (insert_tree nn v t) /\
    (forall b, b ∉ refs t -> h' !! b = h !! b) /\
    (if hit v t then h' = h else links_one h h' nn).
Proof.
  induction t as [|l IHl a x r IHr]; intros fuel h rt cur steps Hn Hrep Hnd Hfresh Hnn Hfuel;
    [discriminate|].
  apply repr_Node in Hrep as (n & [= ->] & Ha & <- & Hl & Hr).
  destruct fuel as [|fuel]; simpl in Hfuel; [lia|].
  simpl in Hnd, Hfresh.
  apply NoDup_app in Hnd as (Hndl & Hal & Hndr).
  apply NoDup_cons in Hndr as (Har & Hndr).
  cbn [insert_loop insert_steps insert_tree hit]. unfold bind at 1, load. cbn [heap]. rewrite Ha.
  destruct (v <? value n)%Z eqn:Hlt; [|destruct (v >? value n)%Z eqn:Hgt].
  - destruct l as [|ll la lx lr].
    + apply repr_Leaf in Hl. rewrite Hl.
      unfold bind, setLeft, ret. cbn [heap root]. rewrite Ha.
      eexists. split; [|split; [|split]].
      * unfold push. by rewrite <- !app_assoc.
      * assert (a <> nn) by set_solver.
        assert (a < length h) by (by eapply lookup_lt_Some).
        replace (value n) with (value (mkBSTNode (value n) (Some nn) (right n))) at 2 by done.
        constructor.
        -- by apply list_lookup_insert_eq.
        -- cbn [left]. replace v with (value (mkBSTNode v None None)) by done.
           constructor; cbn [left right]; [|constructor..].
           by rewrite list_lookup_insert_ne.
        -- cbn [right]. eapply repr_frame; [exact Hr|].
           intros b Hb. apply list_lookup_insert_ne. set_solver.
      * intros b Hb. apply list_lookup_insert_ne. set_solver.
      * exists a, n. split; [done|]. by left.
    + pose proof Hl as Hl'. apply repr_Node in Hl' as (nl & Hla & _).
      rewrite Hla.
      destruct (IHl fuel h rt la (push (push (push steps (visiting (value n)))
                  (comparing v (value n))) (moving_left v (value n))))
        as (h' & Hrun & Hrep' & Hfr & Hmut);
        [done|by rewrite <- Hla|done|set_solver|done|simpl in *; lia|].
      exists h'. split; [|split; [|split]].
      * rewrite Hrun. by rewrite push3.
      * assert (h' !! a = Some n) as Ha' by (rewrite Hfr; [done|set_solver]).
        constructor; [done|by rewrite Hla|].
        eapply repr_frame; [exact Hr|].
        intros b Hb. apply Hfr. set_solver.
      * intros b Hb. apply Hfr. set_solver.
      * done.
  - destruct r as [|rl ra rx rr].
    + apply repr_Leaf in Hr. rewrite Hr.
      unfold bind, setRight, ret. cbn [heap root]. rewrite Ha.
      eexists. split; [|split; [|split]].
      * unfold push. by rewrite <- !app_assoc.
      * assert (a <> nn) by set_solver.
        assert (a < length h) by (by eapply lookup_lt_Some).
        replace (value n) with (value (mkBSTNode (value n) (left n) (Some nn))) at 2 by done.
        constructor.
        -- by apply list_lookup_insert_eq.
        -- cbn [left]. eapply repr_frame; [exact Hl|].
           intros b Hb. apply list_lookup_insert_ne. set_solver.
        -- cbn [right]. replace v with (value (mkBSTNode v None None)) by done.
           constructor; cbn [left right]; [|constructor..].
           by rewrite list_lookup_insert_ne.
      * intros b Hb. apply list_lookup_insert_ne. set_solver.
      * exists a, n. split; [done|]. by right.
    + pose proof Hr as Hr'. apply repr_Node in Hr' as (nr & Hra & _).
      rewrite Hra.
      destruct (IHr fuel h rt ra (push (push (push steps (visiting (value n)))
                  (comparing v (value n))) (moving_right v (value n))))
        as (h' & Hrun & Hrep' & Hfr & Hmut);
        [done|by rewrite <- Hra|done|set_solver|done|simpl in *; lia|].
      exists h'. split; [|split; [|split]].
      * rewrite Hrun. by rewrite push3.
      * assert (h' !! a = Some n) as Ha' by (rewrite Hfr; [done|set_solver]).
        constructor; [done| |by rewrite Hra].
        eapply repr_frame; [exact Hl|].
        intros b Hb. apply Hfr. set_solver.
      * intros b Hb. apply Hfr. set_solver.
      * done.
  - exists h. split; [|split; [|split]]; try done.
    + unfold ret, push. by rewrite <- !app_assoc.
    + by constructor.
Qed.

Lemma search_loop_spec v t : forall fuel s p steps,
  repr (heap s) p t ->
  height t <= fuel ->
  search_loop fuel v p steps s = Some (steps ++ search_steps v t, s).
Proof.
  induction t as [|l IHl a x r IHr]; intros fuel s p steps Hrep Hfuel.
  - apply repr_Leaf in Hrep as ->. by destruct fuel.
  - apply repr_Node in Hrep as (n & -> & Ha & <- & Hl & Hr).
    destruct fuel as [|fuel]; simpl in Hfuel; [lia|].
    cbn [search_loop search_steps]. unfold bind at 1, load. rewrite Ha.
    destruct (v =? value n)%Z; [|destruct (v <? value n)%Z].
    + unfold ret, push. by rewrite <- !app_assoc.
    + rewrite (IHl fuel s (left n)); [|done|lia]. by rewrite push3.
    + rewrite (IHr fuel s (right n)); [|done|lia]. by rewrite push3.
Qed.

(** The three helpers share their shape; [descend_run] is the guarded
    recursive call [if (child !== null) { push; recurse }]. *)
Lemma descend_run (helper : option ref -> list Step -> M (list Step))
    h p t mv (k : list Step) s steps :
  repr h p t ->
  (forall st, helper p st s = Some (st ++ k, s)) ->
  match p with
  | Some _ => helper p (push steps mv)
  | None => ret steps
  end s = Some (steps ++ descend mv t k, s).
Proof.
  intros Hrep Hrun. unfold descend. destruct Hrep; cbn [is_node].
  - unfold ret. by rewrite app_nil_r.
  - rewrite Hrun. unfold push. by rewrite <- app_assoc.
Qed.

Lemma inorderHelper_spec t : forall fuel s p steps,
  repr (heap s) p t ->
  height t <= fuel ->
  _inorderHelper fuel p steps s = Some (steps ++ inorder_steps t, s).
Proof.
  induction t as [|l IHl a x r IHr]; intros fuel s p steps Hrep Hfuel.
  - apply repr_Leaf in Hrep as ->. destruct fuel; cbn; unfold ret; by rewrite app_nil_r.
  - apply repr_Node in Hrep as (n & -> & Ha & <- & Hl & Hr).
    destruct fuel as [|fuel]; simpl in Hfuel; [lia|].
    cbn [_inorderHelper inorder_steps]. unfold bind at 1, load. rewrite Ha.
    unfold bind.
    erewrite (descend_run (_inorderHelper fuel)); [|exact Hl|intros; apply IHl; [done|lia]].
    erewrite (descend_run (_inorderHelper fuel)); [|exact Hr|intros; apply IHr; [done|lia]].
    unfold push. by rewrite <- !app_assoc.
Qed.

Lemma preorderHelper_spec t : forall fuel s p steps,
  repr (heap s) p t ->
  height t <= fuel ->
  _preorderHelper fuel p steps s = Some (steps ++ preorder_steps t, s).
Proof.
  induction t as [|l IHl a x r IHr]; intros fuel s p steps Hrep Hfuel.
  - apply repr_Leaf in Hrep as ->. destruct fuel; cbn; unfold ret; by rewrite app_nil_r.
  - apply repr_Node in Hrep as (n & -> & Ha & <- & Hl & Hr).
    destruct fuel as [|fuel]; simpl in Hfuel; [lia|].
    cbn [_preorderHelper preorder_steps]. unfold bind at 1, load. rewrite Ha.
    unfold bind.
    erewrite (descend_run (_preorderHelper fuel)); [|exact Hl|intros; apply IHl; [done|lia]].
    erewrite (descend_run (_preorderHelper fuel)); [|exact Hr|intros; apply IHr; [done|lia]].
    unfold push. by rewrite <- !app_assoc.
Qed.

Lemma postorderHelper_spec t : forall fuel s p steps,
  repr (heap s) p t ->
  height t <= fuel ->
  _postorderHelper fuel p steps s = Some (steps ++ postorder_steps t, s).
Proof.
  induction t as [|l IHl a x r IHr]; intros fuel s p steps Hrep Hfuel.
  - apply repr_Leaf in Hrep as ->. destruct fuel; cbn; unfold ret; by rewrite app_nil_r.
  - apply repr_Node in Hrep as (n & -> & Ha & <- & Hl & Hr).
    destruct fuel as [|fuel]; simpl in Hfuel; [lia|].
    cbn [_postorderHelper postorder_steps]. unfold bind at 1, load. rewrite Ha.
    unfold bind.
    erewrite (descend_run (_postorderHelper fuel)); [|exact Hl|intros; apply IHl; [done|lia]].
    erewrite (descend_run (_postorderHelper fuel)); [|exact Hr|intros; apply IHr; [done|lia]].
    unfold ret, push. by rewrite <- !app_assoc.
Qed.

(** *** Facts about [insert_tree] and [hit] *)

Lemma perm_insert_right {A} (l k : list A) a n :
  l ++ a :: n :: k ≡ₚ n :: l ++ a :: k.
Proof.
  rewrite (Permutation_middle l (a :: k) n).
  apply Permutation_app_head, Permutation_swap.
Qed.

Lemma insert_tree_hit n v t : hit v t = true -> insert_tree n v t = t.
Proof.
  induction t as [|l IHl a x r IHr]; simpl; [done|].
  destruct (v <? x)%Z; [|destruct (v >? x)%Z]; intros; f_equal; auto.
Qed.

Lemma refs_insert_tree n v t : hit v t = false -> refs (insert_tree n v t) ≡ₚ n :: refs t.
Proof.
  induction t as [|l IHl a x r IHr]; simpl; [done|].
  destruct (v <? x)%Z; [|destruct (v >? x)%Z]; intros H; simpl; [| |done].
  - by rewrite IHl.
  - rewrite IHr by done. apply perm_insert_right.
Qed.

Lemma values_insert_tree n v t : hit v t = false -> values (insert_tree n v t) ≡ₚ v :: values t.
Proof.
  induction t as [|l IHl a x r IHr]; simpl; [done|].
  destruct (v <? x)%Z; [|destruct (v >? x)%Z]; intros H; simpl; [| |done].
  - by rewrite IHl.
  - rewrite IHr by done. apply perm_insert_right.
Qed.

Lemma size_insert_tree n v t : hit v t = false -> size (insert_tree n v t) = S (size t).
Proof.
  induction t as [|l IHl a x r IHr]; simpl; [done|].
  destruct (v <? x)%Z; [|destruct (v >? x)%Z]; intros H; simpl; [| |done].
  - rewrite IHl by done. lia.
  - rewrite IHr by done. lia.
Qed.

Lemma elem_of_values_insert_tree n v t y :
  y ∈ values (insert_tree n v t) <-> y = v \/ y ∈ values t.
Proof.
  destruct (hit v t) eqn:Hh.
  - rewrite insert_tree_hit by done. split; [auto|]. intros [->|?]; [|done].
    clear n. induction t as [|l IHl a x r IHr]; simpl in *; [done|].
    rewrite elem_of_app, elem_of_cons.
    destruct (v <? x)%Z eqn:?; [|destruct (v >? x)%Z eqn:?]; [auto..|].
    right; left. lia.
  - rewrite values_insert_tree by done. by rewrite elem_of_cons.
Qed.

Lemma bst_hit v t : bst t -> hit v t = true <-> v ∈ values t.
Proof.
  induction t as [|l IHl a x r IHr]; simpl.
  - intros _. split; [done|]. by intros ?%elem_of_nil.
  - intros (Hl & Hr & Hbl & Hbr). rewrite elem_of_app, elem_of_cons.
    destruct (v <? x)%Z eqn:Hlt; [|destruct (v >? x)%Z eqn:Hgt].
    + rewrite IHl by done. split; [auto|]. intros [?|[->|?%Hr]]; [done|lia..].
    + rewrite IHr by done. split; [auto|]. intros [?%Hl|[->|?]]; [lia..|done].
    + split; [|done]. intros _. right; left. lia.
Qed.

Lemma bst_insert_tree n v t : bst t -> bst (insert_tree n v t).
Proof.
  induction t as [|l IHl a x r IHr]; simpl.
  - intros _. repeat split; by intros ? ?%elem_of_nil.
  - intros (Hl & Hr & Hbl & Hbr).
    destruct (v <? x)%Z eqn:Hlt; [|destruct (v >? x)%Z eqn:Hgt]; simpl.
    + repeat split; auto. intros y [->|?]%elem_of_values_insert_tree; [lia|auto].
    + repeat split; auto. intros y [->|?]%elem_of_values_insert_tree; [lia|auto].
    + done.
Qed.

Lemma height_le_size t : height t <= size t.
Proof. induction t; simpl; lia. Qed.

Lemma size_values t : length (values t) = size t.
Proof. induction t; simpl; [done|]. rewrite length_app. simpl. lia. Qed.

Lemma size_refs t : length (refs t) = size t.
Proof. induction t; simpl; [done|]. rewrite length_app. simpl. lia. Qed.

(** *** The methods on a represented tree *)

Lemma insert_spec fuel v s t :
  represents s t ->
  height t <= fuel ->
  let nn := length (heap s) in
  let h0 := heap s ++ [mkBSTNode v None None] in
  exists s',
    insert fuel v s = Some (insert_trace v t, s') /\
    represents s' (insert_tree nn v t) /\
    match t with
    | Leaf => s' = mkBST (Some nn) h0
    | Node _ _ _ _ =>
      root s' = root s /\
      if hit v t then heap s' = h0 else links_one h0 (heap s') nn
    end.
Proof.
  destruct s as [rt h]. intros [Hrep Hnd] Hfuel nn h0. cbn [heap root] in *.
  assert (Hnn : h0 !! nn = Some (mkBSTNode v None None)) by apply list_lookup_middle, eq_refl.
  assert (Hfresh : nn ∉ refs t).
  { intros Hin. eapply repr_refs_lt in Hin; [|exact Hrep]. unfold nn in Hin. lia. }
  unfold insert, bind, newBSTNode, getRoot. cbn [heap root].
  destruct t as [|l a x r].
  - apply repr_Leaf in Hrep as ->. unfold setRoot, ret. cbn [heap root].
    eexists. split; [done|]. split; [|done]. split; cbn [heap root insert_tree refs].
    + replace v with (value (mkBSTNode v None None)) at 2 by done.
      constructor; [done|constructor..].
    + apply NoDup_singleton.
  - pose proof Hrep as (n & -> & _)%repr_Node.
    destruct (insert_loop_spec v nn (Node l a x r) fuel h0 (Some a) a [])
      as (h' & Hrun & Hrep' & Hfr & Hmut); [done|by apply repr_app|done..|].
    subst nn h0. exists (mkBST (Some a) h'). split; [by rewrite Hrun|].
    split; [|done]. split; [done|]. cbn [heap root].
    destruct (hit v (Node l a x r)) eqn:Hh.
    + by rewrite insert_tree_hit.
    + rewrite refs_insert_tree by done. by apply NoDup_cons.
Qed.

Lemma search_spec fuel v s t :
  represents s t ->
  height t <= fuel ->
  search fuel v s
    = Some (match t with Leaf => [tree_is_empty v] | Node _ _ _ _ => search_steps v t end, s).
Proof.
  intros [Hrep _] Hfuel. unfold search, bind, getRoot.
  destruct Hrep as [|a n l r Ha Hl Hr]; [done|].
  erewrite search_loop_spec; [done| |done]. by constructor.
Qed.

Lemma inorderTraversal_spec fuel s t :
  represents s t -> height t <= fuel ->
  inorderTraversal fuel s = Some (inorder_steps t, s).
Proof.
  intros [Hrep _] Hfuel. unfold inorderTraversal, bind, getRoot.
  by erewrite inorderHelper_spec.
Qed.

Lemma preorderTraversal_spec fuel s t :
  represents s t -> height t <= fuel ->
  preorderTraversal fuel s = Some (preorder_steps t, s).
Proof.
  intros [Hrep _] Hfuel. unfold preorderTraversal, bind, getRoot.
  by erewrite preorderHelper_spec.
Qed.

Lemma postorderTraversal_spec fuel s t :
  represents s t -> height t <= fuel ->
  postorderTraversal fuel s = Some (postorder_steps t, s).
Proof.
  intros [Hrep _] Hfuel. unfold postorderTraversal, bind, getRoot.
  by erewrite postorderHelper_spec.
Qed.

Lemma size_insert_tree_le n v t : size (insert_tree n v t) <= S (size t).
Proof.
  destruct (hit v t) eqn:Hh.
  - rewrite insert_tree_hit by done. lia.
  - by rewrite size_insert_tree.
Qed.

(** Inserting [vs] one by one into a represented search tree. *)
Lemma insertAll_spec vs : forall fuel s t,
  represents s t ->
  bst t ->
  size t + length vs <= fuel ->
  exists s' t',
    insertAll fuel vs s = Some (tt, s') /\
    represents s' t' /\
    bst t' /\
    (forall y, y ∈ values t' <-> y ∈ vs \/ y ∈ values t) /\
    size t' <= size t + length vs.
Proof.
  induction vs as [|v vs IH]; intros fuel s t Hrep Hbst Hfuel.
  - exists s, t. split_and!; [done..| |simpl; lia].
    intros y. split; [auto|]. by intros [?%elem_of_nil|?].
  - simpl in Hfuel. pose proof (height_le_size t).
    destruct (insert_spec fuel v s t) as (s1 & Hrun & Hrep1 & _); [done|lia|].
    pose proof (size_insert_tree_le (length (heap s)) v t).
    destruct (IH fuel s1 _ Hrep1) as (s' & t' & Hrun' & Hrep' & Hbst' & Hval & Hsz);
      [by apply bst_insert_tree|lia|].
    exists s', t'. cbn [insertAll]. unfold bind. rewrite Hrun.
    split_and!; [done..| |simpl; lia].
    intros y. rewrite Hval, elem_of_values_insert_tree. set_solver.
Qed.

Lemma insertAll_app fuel vs1 vs2 s :
  insertAll fuel (vs1 ++ vs2) s
  = (let* _ := insertAll fuel vs1 in insertAll fuel vs2) s.
Proof.
  revert s. induction vs1 as [|v vs1 IH]; intros s; [done|].
  cbn [app insertAll]. unfold bind in *.
  destruct (insert fuel v s) as [[? s1]|]; [|done]. apply IH.
Qed.

Lemma represents_empty s : root s = None -> represents s Leaf.
Proof. intros Hroot. split; [rewrite Hroot|]; constructor. Qed.

(** Inserting [vs] one by one into an empty tree. *)
Lemma built_spec s0 vs fuel :
  root s0 = None ->
  length vs <= fuel ->
  exists s t,
    insertAll fuel vs s0 = Some (tt, s) /\
    represents s t /\ bst t /\
    (forall y, y ∈ values t <-> y ∈ vs) /\
    height t <= fuel.
Proof.
  intros Hroot Hfuel.
  destruct (insertAll_spec vs fuel s0 Leaf) as (s & t & ? & ? & ? & Hval & Hsz);
    [by apply represents_empty|done|simpl; lia|].
  exists s, t. split_and!; [done..| |].
  - intros y. rewrite Hval. simpl. set_solver.
  - pose proof (height_le_size t). simpl in Hsz. lia.
Qed.

Lemma reach_refs h p t b : repr h p t -> reach h p b -> b ∈ refs t.
Proof.
  induction 1 as [|a n l r Ha _ IHl _ IHr]; intros Hr; inversion Hr; subst; simpl.
  - set_solver.
  - assert (n0 = n) as -> by congruence. set_solver.
  - assert (n0 = n) as -> by congruence. set_solver.
Qed.

Lemma refs_reach h p t b : repr h p t -> b ∈ refs t -> reach h p b.
Proof.
  induction 1 as [|a n l r Ha _ IHl _ IHr]; simpl; [by intros ?%elem_of_nil|].
  rewrite elem_of_app, elem_of_cons. intros [?|[->|?]].
  - eapply reach_left; eauto.
  - constructor.
  - eapply reach_right; eauto.
Qed.

Lemma reach_values h p t b m :
  repr h p t -> reach h p b -> h !! b = Some m -> value m ∈ values t.
Proof.
  induction 1 as [|a n l r Ha _ IHl _ IHr]; intros Hr Hb; inversion Hr; subst; simpl.
  - assert (m = n) as -> by congruence. set_solver.
  - assert (n0 = n) as -> by congruence. set_solver.
  - assert (n0 = n) as -> by congruence. set_solver.
Qed.

Lemma bst_BSTProperty s t : represents s t -> bst t -> BSTProperty s.
Proof.
  intros [Hrep _]. unfold BSTProperty.
  induction Hrep as [|a n l r Ha Hl IHl Hr IHr]; intros Hbst b nb Hreach Hb.
  - inversion Hreach.
  - destruct Hbst as (Hlt & Hgt & Hbl & Hbr).
    inversion Hreach; subst.
    + assert (nb = n) as -> by congruence. split; intros c m Hc Hm.
      * eapply Hlt, reach_values; eauto.
      * eapply Hgt, reach_values; eauto.
    + assert (n0 = n) as -> by congruence. eauto.
    + assert (n0 = n) as -> by congruence. eauto.
Qed.

(** *** The shape of the step sequences of [insert] and [search] *)

Ltac solve_progress :=
  repeat (apply Forall_cons; split; [unfold progress; simpl; tauto|]);
  first [assumption | by apply Forall_nil].

Lemma search_steps_snoc v t :
  exists k st,
    search_steps v t = k ++ [st] /\ Forall progress k /\
    (if hit v t then st = found v v else st = not_found v).
Proof.
  induction t as [|l (kl & sl & El & Fl & Hl) a x r (kr & sr & Er & Fr & Hr)]; simpl.
  - by exists [], (not_found v).
  - destruct (v =? x)%Z eqn:Heq.
    + apply Z.eqb_eq in Heq as <-. rewrite Z.ltb_irrefl, Z.gtb_ltb, Z.ltb_irrefl.
      exists [visiting v; comparing v v], (found v v).
      split_and!; [done| |done]. solve_progress.
    + apply Z.eqb_neq in Heq. destruct (v <? x)%Z eqn:Hlt.
      * exists (visiting x :: comparing v x :: moving_left v x :: kl), sl.
        rewrite El. split_and!; [done| |done].
        solve_progress.
      * assert ((v >? x)%Z = true) as -> by lia.
        exists (visiting x :: comparing v x :: moving_right v x :: kr), sr.
        rewrite Er. split_and!; [done| |done].
        solve_progress.
Qed.

Lemma insert_steps_snoc v t :
  is_node t = true ->
  exists k st,
    insert_steps v t = k ++ [st] /\ Forall progress k /\ length k = length (insert_steps v t) - 1 /\
    (if hit v t then st = already_exists v v
     else action st = INSERTED /\ node st = Some v).
Proof.
  induction t as [|l IHl a x r IHr]; [done|]. intros _. simpl.
  destruct (v <? x)%Z eqn:Hlt; [|destruct (v >? x)%Z eqn:Hgt].
  - destruct l as [|ll la lx lr].
    + exists [visiting x; comparing v x; moving_left v x], (inserted_left v x).
      split_and!; [done| |done..]. solve_progress.
    + destruct IHl as (k & st & E & F & Hlen & Hst); [done|].
      exists (visiting x :: comparing v x :: moving_left v x :: k), st.
      rewrite E. split_and!; [done| | |done].
      * solve_progress.
      * simpl. rewrite length_app. simpl. lia.
  - destruct r as [|rl ra rx rr].
    + exists [visiting x; comparing v x; moving_right v x], (inserted_right v x).
      split_and!; [done| |done..]. solve_progress.
    + destruct IHr as (k & st & E & F & Hlen & Hst); [done|].
      exists (visiting x :: comparing v x :: moving_right v x :: k), st.
      rewrite E. split_and!; [done| | |done].
      * solve_progress.
      * simpl. rewrite length_app. simpl. lia.
  - assert (x = v) as -> by lia.
    exists [visiting v; comparing v v], (already_exists v v).
    split_and!; [done| |done..]. solve_progress.
Qed.

(** *** The sample tree *)

Lemma repr_node' h a x pl pr l r :
  h !! a = Some (mkBSTNode x pl pr) ->
  repr h pl l -> repr h pr r ->
  repr h (Some a) (Node l a x r).
Proof. intros Ha Hl Hr. by apply (repr_node h a (mkBSTNode x pl pr)). Qed.

Lemma sample_built :
  insertAll 7 sample_values new_BinarySearchTree = Some (tt, sample).
Proof. reflexivity. Qed.

Lemma sample_represents : represents sample sample_tree.
Proof.
  split.
  - repeat (eapply repr_node'; [reflexivity| |]); apply repr_null.
  - apply (bool_decide_unpack (NoDup _)). by vm_compute.
Qed.

Lemma sample_bst : bst sample_tree.
Proof. cbn. split_and!; try done; intros y Hy; set_unfold; lia. Qed.


(** *** Step counts of [insert] against the depth of the node *)

Lemma depth_None v t : v ∉ values t -> depth v t = None.
Proof.
  induction t as [|l IHl a x r IHr]; simpl; [done|].
  rewrite elem_of_app, elem_of_cons. intros Hin.
  destruct (v =? x)%Z eqn:Heq; [apply Z.eqb_eq in Heq; tauto|].
  rewrite IHl, IHr by tauto. done.
Qed.

Lemma insert_steps_length_hit v t :
  bst t -> hit v t = true ->
  exists d, depth v t = Some d /\ length (insert_steps v t) = 3 * d + 3.
Proof.
  induction t as [|l IHl a x r IHr]; simpl; [done|].
  intros (Hlt & Hgt & Hbl & Hbr).
  destruct (v <? x)%Z eqn:Hl; [|destruct (v >? x)%Z eqn:Hg]; intros Hh.
  - assert ((v =? x)%Z = false) as -> by lia.
    destruct (IHl Hbl Hh) as (d & -> & Hlen). exists (S d). split; [done|].
    destruct l; [done|]. simpl in *. lia.
  - assert ((v =? x)%Z = false) as -> by lia.
    rewrite depth_None by (intros ?%Hlt; lia).
    destruct (IHr Hbr Hh) as (d & -> & Hlen). exists (S d). split; [done|].
    destruct r; [done|]. simpl in *. lia.
  - assert ((v =? x)%Z = true) as -> by lia. by exists 0.
Qed.

Lemma insert_steps_length_new n v t :
  bst t -> is_node t = true -> hit v t = false ->
  exists d, depth v (insert_tree n v t) = Some d /\
            length (insert_steps v t) = 3 * d + 1.
Proof.
  induction t as [|l IHl a x r IHr]; simpl; [done|].
  intros (Hlt & Hgt & Hbl & Hbr) _.
  destruct (v <? x)%Z eqn:Hl; [|destruct (v >? x)%Z eqn:Hg]; intros Hh; [| |done]; simpl.
  - assert ((v =? x)%Z = false) as -> by lia.
    destruct l as [|ll la lx lr].
    + simpl. rewrite Z.eqb_refl. by exists 1.
    + destruct (IHl Hbl eq_refl Hh) as (d & -> & Hlen). exists (S d). split; [done|].
      simpl in *. lia.
  - assert ((v =? x)%Z = false) as -> by lia.
    rewrite depth_None by (intros ?%Hlt; lia).
    destruct r as [|rl ra rx rr].
    + simpl. rewrite Z.eqb_refl. by exists 1.
    + destruct (IHr Hbr eq_refl Hh) as (d & -> & Hlen). exists (S d). split; [done|].
      simpl in *. lia.
Qed.

(** *** Traversal steps: the same steps in three orders *)

Lemma descend_node mv t k : is_node t = true -> descend mv t k = mv :: k.
Proof. unfold descend. by intros ->. Qed.

Lemma descend_perm mv t k k' : k ≡ₚ k' -> descend mv t k ≡ₚ descend mv t k'.
Proof. intros Hk. unfold descend. destruct (is_node t); [|done]. by constructor. Qed.

Lemma preorder_inorder_perm t : preorder_steps t ≡ₚ inorder_steps t.
Proof.
  induction t as [|l IHl a x r IHr]; simpl; [done|].
  rewrite (descend_perm _ l _ _ IHl), (descend_perm _ r _ _ IHr).
  apply Permutation_middle.
Qed.

Lemma postorder_inorder_perm t : postorder_steps t ≡ₚ inorder_steps t.
Proof.
  induction t as [|l IHl a x r IHr]; simpl; [done|].
  rewrite (descend_perm _ l _ _ IHl), (descend_perm _ r _ _ IHr).
  apply Permutation_app_head. symmetry. apply Permutation_cons_append.
Qed.

Lemma visited_values_app k1 k2 :
  visited_values (k1 ++ k2) = visited_values k1 ++ visited_values k2.
Proof. apply omap_app. Qed.

Lemma visited_values_descend mv t k :
  is_move mv -> visited_values (descend mv t k) = if is_node t then visited_values k else [].
Proof.
  intros Hmv. unfold descend. destruct (is_node t); [|done].
  unfold visited_values. simpl. rewrite decide_False; [done|].
  destruct Hmv as [-> | ->]; discriminate.
Qed.

Lemma visited_values_inorder t : visited_values (inorder_steps t) = values t.
Proof.
  induction t as [|l IHl a x r IHr]; simpl; [done|].
  rewrite visited_values_app. change (visited x :: ?k) with ([visited x] ++ k).
  rewrite visited_values_app, !visited_values_descend, IHl, IHr by (by constructor).
  destruct l, r; simpl; by rewrite ?app_nil_r.
Qed.

Lemma visited_count_inorder t : visited_count (inorder_steps t) = size t.
Proof.
  unfold visited_count.
  induction t as [|l IHl a x r IHr]; simpl; [done|].
  rewrite filter_app, filter_cons_True by done.
  rewrite length_app. unfold descend. simpl.
  destruct l, r; simpl in *; rewrite ?filter_cons_False by (simpl; discriminate); simpl; lia.
Qed.

Lemma moves_app k1 k2 : moves (k1 ++ k2) = moves k1 ++ moves k2.
Proof. unfold moves. by rewrite filter_app, fmap_app. Qed.

Lemma moves_visited x k : moves (visited x :: k) = moves k.
Proof.
  unfold moves. rewrite filter_cons_False; [done|].
  unfold is_move. simpl. intros [?|?]; discriminate.
Qed.

Lemma moves_descend_left x t k :
  moves (descend (move_left_from x) t k)
  = if is_node t then (Some x, MOVED_LEFT) :: moves k else [].
Proof.
  unfold descend. destruct (is_node t); [|done].
  unfold moves. rewrite filter_cons_True; [done|]. by left.
Qed.

Lemma moves_descend_right x t k :
  moves (descend (move_right_from x) t k)
  = if is_node t then (Some x, MOVED_RIGHT) :: moves k else [].
Proof.
  unfold descend. destruct (is_node t); [|done].
  unfold moves. rewrite filter_cons_True; [done|]. by right.
Qed.

Lemma moves_inorder t : moves (inorder_steps t) = links t.
Proof.
  induction t as [|l IHl a x r IHr]; simpl; [done|].
  by rewrite moves_app, moves_visited, moves_descend_left, moves_descend_right, IHl, IHr.
Qed.

Lemma length_links t : length (links t) = size t - 1.
Proof.
  induction t as [|l IHl a x r IHr]; simpl; [done|].
  rewrite length_app. destruct l, r; simpl in *; lia.
Qed.

Lemma move_count_moves k : move_count k = length (moves k).
Proof. unfold move_count, moves. by rewrite length_fmap. Qed.

Lemma length_inorder_steps t : length (inorder_steps t) = size t + (size t - 1).
Proof.
  induction t as [|l IHl a x r IHr]; simpl; [done|].
  rewrite length_app. unfold descend. simpl.
  destruct l, r; simpl in *; lia.
Qed.

(** *** Values of a search tree are strictly ascending in in-order *)

Lemma bst_sorted t : bst t -> StronglySorted Z.lt (values t).
Proof.
  induction t as [|l IHl a x r IHr]; simpl; [constructor|].
  intros (Hlt & Hgt & Hbl & Hbr).
  apply StronglySorted_app_2; [|auto|].
  - intros y z Hy [->|Hz]%elem_of_cons; [auto|].
    apply Hlt in Hy. apply Hgt in Hz. lia.
  - constructor; [auto|]. apply Forall_forall. auto.
Qed.

Lemma sorted_NoDup (l : list Z) : StronglySorted Z.lt l -> NoDup l.
Proof.
  induction 1 as [|x l Hs IH Hall]; constructor; [|done].
  intros Hx. rewrite Forall_forall in Hall. apply Hall in Hx. lia.
Qed.

(** *** Order of parent and child in the traversals *)

Lemma precedes_in_in a b k1 k2 : a ∈ k1 -> b ∈ k2 -> precedes a b (k1 ++ k2).
Proof.
  intros (p1 & q1 & ->)%list_elem_of_split (p2 & q2 & ->)%list_elem_of_split.
  exists p1, (q1 ++ p2), q2. by rewrite <- !app_assoc.
Qed.

Lemma precedes_app_l a b k k' : precedes a b k -> precedes a b (k' ++ k).
Proof.
  intros (s1 & s2 & s3 & ->). exists (k' ++ s1), s2, s3. by rewrite <- app_assoc.
Qed.

Lemma precedes_app_r a b k k' : precedes a b k -> precedes a b (k ++ k').
Proof.
  intros (s1 & s2 & s3 & ->). exists s1, s2, (s3 ++ k').
  by rewrite <- !app_assoc, <- !app_comm_cons, <- !app_assoc.
Qed.

Lemma precedes_cons a b k st : precedes a b k -> precedes a b (st :: k).
Proof. apply (precedes_app_l a b k [st]). Qed.

Lemma child_in_is_node t p c : child_in t p c -> is_node t = true.
Proof. by destruct 1. Qed.

Lemma root_value_is_node t c : root_value t = Some c -> is_node t = true.
Proof. by destruct t. Qed.

Lemma root_in_preorder t c : root_value t = Some c -> visited c ∈ preorder_steps t.
Proof. destruct t; [done|]. intros [= ->]. simpl. by left. Qed.

Lemma root_in_postorder t c : root_value t = Some c -> visited c ∈ postorder_steps t.
Proof. destruct t; [done|]. intros [= ->]. simpl. set_solver. Qed.

Lemma preorder_parent_first t p c :
  child_in t p c -> precedes (visited p) (visited c) (preorder_steps t).
Proof.
  induction 1 as [l a x r c Hc|l a x r c Hc|l a x r p c Hch IH|l a x r p c Hch IH]; simpl.
  - apply (precedes_in_in _ _ [visited x]); [by left|].
    rewrite descend_node by (by eapply root_value_is_node).
    apply elem_of_app; left. right. by apply root_in_preorder.
  - apply (precedes_in_in _ _ [visited x]); [by left|].
    rewrite (descend_node _ r) by (by eapply root_value_is_node).
    apply elem_of_app; right. right. by apply root_in_preorder.
  - apply precedes_cons, precedes_app_r.
    rewrite descend_node by (by eapply child_in_is_node).
    by apply precedes_cons.
  - apply precedes_cons, precedes_app_l.
    rewrite descend_node by (by eapply child_in_is_node).
    by apply precedes_cons.
Qed.

Lemma postorder_parent_last t p c :
  child_in t p c -> precedes (visited c) (visited p) (postorder_steps t).
Proof.
  induction 1 as [l a x r c Hc|l a x r c Hc|l a x r p c Hch IH|l a x r p c Hch IH]; simpl.
  - apply precedes_in_in; [|set_solver].
    rewrite descend_node by (by eapply root_value_is_node).
    right. by apply root_in_postorder.
  - apply precedes_app_l, precedes_in_in; [|set_solver].
    rewrite descend_node by (by eapply root_value_is_node).
    right. by apply root_in_postorder.
  - apply precedes_app_r.
    rewrite descend_node by (by eapply child_in_is_node).
    by apply precedes_cons.
  - apply precedes_app_l, precedes_app_r.
    rewrite descend_node by (by eapply child_in_is_node).
    by apply precedes_cons.
Qed.

Lemma repr_root_value h b m t : repr h (Some b) t -> h !! b = Some m -> root_value t = Some (value m).
Proof. inversion 1; subst. intros. simpl. congruence. Qed.

Lemma reach_child_in h p t a n b m :
  repr h p t ->
  reach h p a -> h !! a = Some n ->
  left n = Some b \/ right n = Some b ->
  h !! b = Some m ->
  child_in t (value n) (value m).
Proof.
  induction 1 as [|a0 n0 l r Ha0 Hl IHl Hr IHr]; intros Hreach Ha Hlr Hb; inversion Hreach; subst.
  - assert (n = n0) as -> by congruence. destruct Hlr as [Hlr|Hlr].
    + apply child_left. rewrite Hlr in Hl. by eapply repr_root_value.
    + apply child_right. rewrite Hlr in Hr. by eapply repr_root_value.
  - assert (n1 = n0) as -> by congruence. apply child_below_left. auto.
  - assert (n1 = n0) as -> by congruence. apply child_below_right. auto.
Qed.

Lemma is_child_child_in s t p c : represents s t -> is_child s p c -> child_in t p c.
Proof.
  intros [Hrep _] (a & n & b & m & Hreach & Ha & Hlr & Hb & <- & <-).
  by eapply reach_child_in.
Qed.

(** *** Read-only computations *)

Lemma readonly_ret {A} (a : A) : readonly (ret a).
Proof. intros s b s' [= _ ->]. done. Qed.

Lemma readonly_stuck {A} : readonly (@stuck A).
Proof. intros s b s'. discriminate. Qed.

Lemma readonly_bind {A B} (m : M A) (k : A -> M B) :
  readonly m -> (forall a, readonly (k a)) -> readonly (bind m k).
Proof.
  intros Hm Hk s b s'. unfold bind.
  destruct (m s) as [[a s1]|] eqn:E; [|discriminate].
  apply Hm in E as ->. apply Hk.
Qed.

Lemma readonly_getRoot : readonly getRoot.
Proof. intros s b s' [= _ ->]. done. Qed.

Lemma readonly_load a : readonly (load a).
Proof. intros s b s'. unfold load. destruct (heap s !! a); [|discriminate]. by intros [= _ ->]. Qed.

Create HintDb readonly.
#[local] Hint Resolve readonly_ret readonly_stuck readonly_getRoot readonly_load : readonly.

Lemma readonly_search_loop fuel v : forall current steps,
  readonly (search_loop fuel v current steps).
Proof.
  induction fuel as [|fuel IH]; intros [c|] steps; cbn [search_loop]; auto with readonly.
  apply readonly_bind; [auto with readonly|]. intros cur.
  destruct (v =? value cur)%Z; [auto with readonly|].
  destruct (v <? value cur)%Z; apply IH.
Qed.

Lemma readonly_search fuel v : readonly (search fuel v).
Proof.
  unfold search. apply readonly_bind; [auto with readonly|]. intros [c|]; [|auto with readonly].
  apply readonly_search_loop.
Qed.

Lemma readonly_inorderHelper fuel : forall n steps, readonly (_inorderHelper fuel n steps).
Proof.
  induction fuel as [|fuel IH]; intros [a|] steps; cbn [_inorderHelper]; auto with readonly.
  apply readonly_bind; [auto with readonly|]. intros nd.
  apply readonly_bind.
  - destruct (left nd); [apply IH|auto with readonly].
  - intros st. destruct (right nd); [apply IH|auto with readonly].
Qed.

Lemma readonly_preorderHelper fuel : forall n steps, readonly (_preorderHelper fuel n steps).
Proof.
  induction fuel as [|fuel IH]; intros [a|] steps; cbn [_preorderHelper]; auto with readonly.
  apply readonly_bind; [auto with readonly|]. intros nd.
  apply readonly_bind.
  - destruct (left nd); [apply IH|auto with readonly].
  - intros st. destruct (right nd); [apply IH|auto with readonly].
Qed.

Lemma readonly_postorderHelper fuel : forall n steps, readonly (_postorderHelper fuel n steps).
Proof.
  induction fuel as [|fuel IH]; intros [a|] steps; cbn [_postorderHelper]; auto with readonly.
  apply readonly_bind; [auto with readonly|]. intros nd.
  apply readonly_bind.
  - destruct (left nd); [apply IH|auto with readonly].
  - intros st. apply readonly_bind.
    + destruct (right nd); [apply IH|auto with readonly].
    + auto with readonly.
Qed.

Lemma readonly_traversals fuel :
  readonly (inorderTraversal fuel) /\
  readonly (preorderTraversal fuel) /\
  readonly (postorderTraversal fuel).
Proof.
  split_and!; (apply readonly_bind; [auto with readonly|]); intros r.
  - apply readonly_inorderHelper.
  - apply readonly_preorderHelper.
  - apply readonly_postorderHelper.
Qed.

(** *** Outcome steps *)

Lemma filter_outcome_progress k : Forall progress k -> filter outcome k = [].
Proof.
  induction 1 as [|st k Hst _ IH]; [done|].
  rewrite filter_cons_False; [done|].
  unfold progress, outcome in *. intros [?|[?|?]]; destruct Hst as [?|[?|[?|?]]]; congruence.
Qed.

Lemma filter_outcome_snoc k st :
  Forall progress k -> outcome st -> filter outcome (k ++ [st]) = [st].
Proof.
  intros Hk Hst. rewrite filter_app, filter_outcome_progress by done.
  by rewrite filter_cons_True.
Qed.

(** *** Fuel only decides whether a run finishes *)

Lemma insert_loop_fuel_mono fuel : forall fuel' v nn cur steps s res,
  insert_loop fuel v nn cur steps s = Some res ->
  fuel <= fuel' ->
  insert_loop fuel' v nn cur steps s = Some res.
Proof.
  induction fuel as [|fuel IH]; intros fuel' v nn cur steps s res Hrun Hle; [done|].
  destruct fuel' as [|fuel']; [lia|].
  cbn [insert_loop] in *. unfold bind, load in *.
  destruct (heap s !! cur) as [n|]; [|done].
  destruct (v <? value n)%Z; [|destruct (v >? value n)%Z]; [| |done].
  - destruct (left n); [|done]. apply IH; [done|lia].
  - destruct (right n); [|done]. apply IH; [done|lia].
Qed.

Lemma insert_fuel_mono fuel fuel' v s res :
  insert fuel v s = Some res -> fuel <= fuel' -> insert fuel' v s = Some res.
Proof.
  unfold insert, bind, newBSTNode, getRoot. cbn [root heap].
  destruct (root s); [|done]. apply insert_loop_fuel_mono.
Qed.

(** Every tree object a caller can produce holds a search tree. *)
Lemma reachable_represents s : reachable s -> exists t, represents s t /\ bst t.
Proof.
  induction 1 as [|s fuel v steps s' _ (t & Hrep & Hbst) Hrun
                  |s fuel v steps s' _ IH Hrun
                  |s fuel steps s' _ IH Hrun
                  |s fuel steps s' _ IH Hrun
                  |s fuel steps s' _ IH Hrun
                  |s s' _ _ Hrun].
  - exists Leaf. split; [by apply represents_empty|done].
  - destruct (insert_spec (Nat.max fuel (height t)) v s t Hrep) as (s1 & Hrun1 & Hrep1 & _);
      [lia|].
    eapply insert_fuel_mono in Hrun; [|apply (Nat.le_max_l fuel (height t))].
    assert (s1 = s') as -> by congruence.
    eexists. split; [done|]. by apply bst_insert_tree.
  - by apply readonly_search in Hrun as ->.
  - by apply readonly_traversals in Hrun as ->.
  - by apply readonly_traversals in Hrun as ->.
  - by apply readonly_traversals in Hrun as ->.
  - injection Hrun as <-. exists Leaf. split; [by apply represents_empty|done].
Qed.

(** *** The layout passes *)

Lemma width_size t : width t = Z.of_nat (size t).
Proof. induction t; simpl; lia. Qed.

Lemma calculateWidths_spec t : forall fuel h p w,
  repr h p t ->
  height t <= fuel ->
  widths_ok h w ->
  exists w',
    calculateWidths fuel h p w = Some (width t, w') /\
    widths_ok h w' /\
    (forall a, a ∈ refs t \/ is_Some (w !! a) -> is_Some (w' !! a)).
Proof.
  induction t as [|l IHl a x r IHr]; intros fuel h p w Hrep Hfuel Hok.
  - apply repr_Leaf in Hrep as ->. exists w. split_and!; [by destruct fuel|done|].
    intros a [?%elem_of_nil|?]; done.
  - pose proof Hrep as Hrep0.
    apply repr_Node in Hrep as (n & -> & Ha & <- & Hl & Hr).
    destruct fuel as [|fuel]; simpl in Hfuel; [lia|].
    destruct (IHl fuel h (left n) w) as (w1 & E1 & Hok1 & Hcov1); [done|lia|done|].
    destruct (IHr fuel h (right n) w1) as (w2 & E2 & Hok2 & Hcov2); [done|lia|done|].
    exists (<[a := (width l + 1 + width r)%Z]> w2). split_and!.
    + cbn [calculateWidths]. rewrite Ha. simpl. rewrite E1. simpl. by rewrite E2.
    + intros b z. rewrite lookup_insert. case_decide as Hb; [|apply Hok2].
      intros [= <-]. subst b. by exists (Node l a (value n) r).
    + intros b Hb. rewrite lookup_insert. case_decide; [done|].
      apply Hcov2. simpl in Hb. rewrite elem_of_app, elem_of_cons in Hb.
      destruct Hb as [[?|[->|?]]|?]; [right; apply Hcov1; by left|done|by left|].
      right. apply Hcov1. by right.
Qed.

Lemma set_all_app l1 l2 m : set_all (l1 ++ l2) m = set_all l2 (set_all l1 m).
Proof. apply foldl_app. Qed.

Lemma assignPositions_spec t : forall fuel h w p d lb pos,
  repr h p t ->
  height t <= fuel ->
  widths_ok h w ->
  (forall a, a ∈ refs t -> is_Some (w !! a)) ->
  assignPositions fuel h w p d lb pos = Some (set_all (placements t d lb) pos).
Proof.
  induction t as [|l IHl a x r IHr]; intros fuel h w p d lb pos Hrep Hfuel Hok Hcov.
  - apply repr_Leaf in Hrep as ->. by destruct fuel.
  - apply repr_Node in Hrep as (n & -> & Ha & <- & Hl & Hr).
    destruct fuel as [|fuel]; simpl in Hfuel; [lia|].
    assert (Hlw : match left n with Some l0 => w !! l0 | None => Some 0%Z end
                  = Some (width l)).
    { destruct (left n) as [la|] eqn:Eleft.
      - destruct (Hcov la) as [z Hz].
        { inversion Hl; subst. simpl. set_solver. }
        destruct (Hok la z Hz) as (s & Hs & ->). rewrite Hz.
        by rewrite (repr_inj _ _ _ _ Hs Hl).
      - by inversion Hl. }
    cbn [assignPositions]. rewrite Ha. simpl. rewrite Hlw. simpl.
    rewrite (IHl fuel h w); [|done|lia|done|]; cycle 1.
    { intros b Hb. apply Hcov. simpl. set_solver. }
    simpl. rewrite (IHr fuel h w); [|done|lia|done|]; cycle 1.
    { intros b Hb. apply Hcov. simpl. set_solver. }
    by rewrite set_all_app.
Qed.

Lemma lookup_set_all l : forall m k p,
  NoDup l.*1 ->
  set_all l m !! k = Some p <-> (k, p) ∈ l \/ ((k ∉ l.*1) /\ m !! k = Some p).
Proof.
  induction l as [|[k0 p0] l IH]; intros m k p Hnd.
  - simpl. split; [intros; right; split; [apply not_elem_of_nil|done]|].
    intros [?%elem_of_nil|[_ ?]]; done.
  - rewrite fmap_cons in Hnd. apply NoDup_cons in Hnd as [Hk0 Hnd].
    change (set_all ((k0, p0) :: l) m) with (set_all l (<[k0 := p0]> m)).
    rewrite IH by done. rewrite fmap_cons, elem_of_cons, not_elem_of_cons, lookup_insert. simpl.
    case_decide as Hk.
    + subst k0. split.
      * intros [Hin|[Hnin [= <-]]]; [|by left; left].
        destruct Hk0. apply list_elem_of_fmap. by exists (k, p).
      * intros [[[= <-]|Hin]|[[? _] _]]; [|by left|done].
        right. split; [done|done].
    + split.
      * intros [Hin|[Hnin Hm]]; [by left; right|]. right. split; [split; [congruence|done]|done].
      * intros [[[= ? ?]|Hin]|[[? ?] ?]]; [congruence|by left|by right].
Qed.

Lemma placements_keys t : forall d lb, (placements t d lb).*1 ≡ₚ values t.
Proof.
  induction t as [|l IHl a x r IHr]; intros d lb; simpl; [done|].
  rewrite fmap_app, IHl, IHr. apply Permutation_middle.
Qed.

Lemma placements_rank t : forall d lb i v,
  values t !! i = Some v ->
  exists pos,
    (v, pos) ∈ placements t d lb /\
    Position.x pos
      = (CONFIG.PADDING + (lb + Z.of_nat i) * CONFIG.HORIZONTAL_SPACING)%Z /\
    refs t !! i = Some (Position.node pos).
Proof.
  induction t as [|l IHl a x r IHr]; intros d lb i v Hi; simpl in *; [done|].
  pose proof (size_values l) as Hvl. pose proof (size_refs l) as Hrl.
  destruct (decide (i < size l)) as [Hlt|Hge].
  - rewrite lookup_app_l in Hi by lia.
    destruct (IHl (d + 1)%Z lb i v Hi) as (pos & Hin & Hx & Href).
    exists pos. split_and!; [set_solver|done|].
    by rewrite lookup_app_l by lia.
  - rewrite lookup_app_r in Hi by lia. rewrite lookup_app_r by lia.
    rewrite Hvl in Hi. rewrite Hrl.
    destruct (i - size l) as [|j] eqn:Ej; simpl in Hi.
    + injection Hi as <-. eexists. split; [by left|]. simpl. split; [|done].
      rewrite width_size. do 2 f_equal. lia.
    + destruct (IHr (d + 1)%Z (lb + width l + 1)%Z j v Hi) as (pos & Hin & Hx & Href).
      exists pos. split_and!; [set_solver| |done].
      rewrite Hx, width_size. do 2 f_equal. lia.
Qed.

Lemma placements_depth t : forall d lb v k,
  depth v t = Some k ->
  exists pos,
    (v, pos) ∈ placements t d lb /\
    Position.y pos
      = (CONFIG.PADDING + (d + Z.of_nat k) * CONFIG.VERTICAL_SPACING)%Z.
Proof.
  induction t as [|l IHl a x r IHr]; intros d lb v k; simpl; [done|].
  destruct (v =? x)%Z eqn:Heq.
  - intros [= <-]. apply Z.eqb_eq in Heq as ->. eexists. split; [by left|].
    simpl. do 2 f_equal. lia.
  - destruct (depth v l) as [kl|] eqn:El.
    + intros [= <-]. destruct (IHl (d + 1)%Z lb v kl El) as (pos & Hin & Hy).
      exists pos. split; [set_solver|]. rewrite Hy. do 2 f_equal. lia.
    + destruct (depth v r) as [kr|] eqn:Er; [|done].
      intros [= <-].
      destruct (IHr (d + 1)%Z (lb + width l + 1)%Z v kr Er) as (pos & Hin & Hy).
      exists pos. split; [set_solver|]. rewrite Hy. do 2 f_equal. lia.
Qed.

Lemma subtree_values s t :
  subtree s t -> exists pre post, values t = pre ++ values s ++ post.
Proof.
  induction 1 as [t|s l a x r _ (pre & post & E)|s l a x r _ (pre & post & E)]; simpl.
  - exists [], []. by rewrite app_nil_r.
  - exists pre, (post ++ x :: values r). rewrite E. by rewrite <- !app_assoc.
  - exists (values l ++ x :: pre), post. rewrite E.
    by rewrite <- !app_assoc, <- app_comm_cons.
Qed.

Lemma computePositions_spec fuel h p t :
  repr h p t ->
  height t <= fuel ->
  computePositions fuel h p = Some (set_all (placements t 0 0) ∅).
Proof.
  intros Hrep Hfuel. unfold computePositions.
  destruct p as [a|]; [|by inversion Hrep].
  destruct (calculateWidths_spec t fuel h (Some a) ∅ Hrep Hfuel)
    as (w & -> & Hok & Hcov).
  { intros b z. by rewrite lookup_empty. }
  simpl. apply assignPositions_spec; auto.
Qed.

Lemma lookup_mid {A} (pre l post : list A) j x :
  l !! j = Some x -> (pre ++ l ++ post) !! (length pre + j) = Some x.
Proof.
  intros Hj. rewrite lookup_app_r by lia.
  replace (length pre + j - length pre) with j by lia.
  by apply lookup_app_l_Some.
Qed.

(** The map [computePositions] returns on a tree with distinct values. *)
Lemma layout_lookup t v pos :
  NoDup (values t) ->
  set_all (placements t 0 0) ∅ !! v = Some pos <-> (v, pos) ∈ placements t 0 0.
Proof.
  intros Hnd. rewrite lookup_set_all by (by rewrite placements_keys).
  rewrite lookup_empty. naive_solver.
Qed.

Lemma layout_column t i v pos :
  NoDup (values t) ->
  values t !! i = Some v ->
  set_all (placements t 0 0) ∅ !! v = Some pos ->
  Position.x pos = (CONFIG.PADDING + Z.of_nat i * CONFIG.HORIZONTAL_SPACING)%Z /\
  refs t !! i = Some (Position.node pos).
Proof.
  intros Hnd Hi Hpos.
  destruct (placements_rank t 0 0 i v Hi) as (pos' & Hin & Hx & Href).
  apply layout_lookup in Hin; [|done].
  assert (pos' = pos) as -> by congruence. by rewrite Hx.
Qed.

(** ** Concrete runs *)

Example run_insert_into_empty :
  insert 0 50 new_BinarySearchTree = Some ([inserted_as_root 50], single) /\
  description (inserted_as_root 50) = "Inserted 50 as root"%string.
Proof. split; reflexivity. Qed.

Example run_inorder_of_sample :
  exists steps,
    (let* _ := insertAll 3 sample_values in inorderTraversal 3) new_BinarySearchTree
      = Some (steps, sample) /\
    visited_values steps = [20; 30; 40; 50; 60; 70; 80]%Z.
Proof. eexists. split; [cbv; reflexivity|reflexivity]. Qed.

Example run_duplicate_insert :
  (let* _ := insert 1 30 in insert 1 30) new_BinarySearchTree
  = Some ([visiting 30; comparing 30 30; already_exists 30 30],
          {| root := Some 0;
             heap := [mkBSTNode 30 None None; mkBSTNode 30 None None] |}).
Proof. reflexivity. Qed.

Example run_search_missing :
  exists s,
    insertAll 2 [50; 30; 70]%Z new_BinarySearchTree = Some (tt, s) /\
    search 2 99 s
    = Some ([visiting 50; comparing 99 50; moving_right 99 50;
             visiting 70; comparing 99 70; moving_right 99 70;
             not_found 99], s).
Proof. eexists. split; [cbv; reflexivity|reflexivity]. Qed.

Example run_clear_then_insert :
  (let* _ := insertAll 3 [50; 30; 70; 20; 40]%Z in
   let* _ := clear in
   insert 0 99) new_BinarySearchTree
  = Some ([inserted_as_root 99],
          {| root := Some 5;
             heap := [mkBSTNode 50 (Some 1) (Some 2);
                      mkBSTNode 30 (Some 3) (Some 4);
                      mkBSTNode 70 None None;
                      mkBSTNode 20 None None;
                      mkBSTNode 40 None None;
                      mkBSTNode 99 None None] |}).
Proof. reflexivity. Qed.

Example run_out_of_fuel : insert 2 65 sample = None.
Proof. reflexivity. Qed.

Example run_layout_of_sample :
  computePositions 3 (heap sample) (root sample)
  = Some (list_to_map
            [(20, Position.mk 50 210 3); (30, Position.mk 110 130 1);
             (40, Position.mk 170 210 4); (50, Position.mk 230 50 0);
             (60, Position.mk 290 210 5); (70, Position.mk 350 130 2);
             (80, Position.mk 410 210 6)]%Z).
Proof. by vm_compute. Qed.

(** * The claims *)

(** C1. For every sequence of insert calls starting from an empty tree (a new
    one, or one that was cleared), the BST property holds after each insert:
    with [vs] the values inserted, the run reaches, after the first [k] of
    them, a tree that satisfies [BSTProperty], and goes on from there with the
    remaining values; this for every [k]. *)
Theorem C1_bst_property_after_every_insert (s0 : BinarySearchTree) (vs : list Z)
    (k fuel : nat) :
  root s0 = None ->
  length vs <= fuel ->
  exists s,
    insertAll fuel (take k vs) s0 = Some (tt, s) /\
    insertAll fuel vs s0 = insertAll fuel (drop k vs) s /\
    BSTProperty s.
Proof.
  intros Hroot Hfuel.
  destruct (built_spec s0 (take k vs) fuel Hroot) as (s & t & Hrun & Hrep & Hbst & _).
  { rewrite length_take. lia. }
  exists s. split_and!; [done| |by eapply bst_BSTProperty].
  rewrite <- (take_drop k vs) at 1. rewrite insertAll_app. unfold bind. by rewrite Hrun.
Qed.

Lemma C1_witness :
  root new_BinarySearchTree = None /\
  length sample_values <= 7 /\
  exists s,
    insertAll 7 (take 5 sample_values) new_BinarySearchTree = Some (tt, s) /\
    insertAll 7 sample_values new_BinarySearchTree = insertAll 7 (drop 5 sample_values) s /\
    BSTProperty s.
Proof.
  split; [reflexivity|].
  split; [simpl; lia|].
  apply (C1_bst_property_after_every_insert new_BinarySearchTree sample_values 5 7).
  - reflexivity.
  - simpl; lia.
Defined.

(** C2. On a tree built by inserting [vs] into an empty tree, [search v] ends
    in a FOUND step for node [v] when [v] was inserted, and in a NOT_FOUND
    step with a null node when it was not (the empty tree included). *)
Theorem C2_search_finds_exactly_the_inserted_values (s0 : BinarySearchTree)
    (vs : list Z) (v : Z) (fuel : nat) :
  root s0 = None ->
  length vs <= fuel ->
  exists s steps st,
    insertAll fuel vs s0 = Some (tt, s) /\
    search fuel v s = Some (steps, s) /\
    last steps = Some st /\
    if decide (v ∈ vs)
    then action st = FOUND /\ node st = Some v
    else action st = NOT_FOUND /\ node st = None.
Proof.
  intros Hroot Hfuel.
  destruct (built_spec s0 vs fuel Hroot Hfuel) as (s & t & Hrun & Hrep & Hbst & Hval & Hh).
  pose proof (search_spec fuel v s t Hrep Hh) as Hsearch.
  pose proof (bst_hit v t Hbst) as Hhit. rewrite Hval in Hhit.
  destruct t as [|l a x r].
  - exists s, [tree_is_empty v], (tree_is_empty v). split_and!; [done..|].
    case_decide as Hin; [|done]. apply Hhit in Hin. discriminate.
  - destruct (search_steps_snoc v (Node l a x r)) as (k & st & E & _ & Hst).
    exists s, (search_steps v (Node l a x r)), st.
    split_and!; [done..|rewrite E; apply last_snoc|].
    case_decide as Hin.
    + apply Hhit in Hin. rewrite Hin in Hst. by subst st.
    + destruct (hit v (Node l a x r)); [by destruct Hin; apply Hhit|]. by subst st.
Qed.

Lemma C2_witness :
  root cleared_sample = None /\
  length [50; 30; 70]%Z <= 3 /\
  exists s steps st,
    insertAll 3 [50; 30; 70]%Z cleared_sample = Some (tt, s) /\
    search 3 99 s = Some (steps, s) /\
    last steps = Some st /\
    if decide (99%Z ∈ [50; 30; 70]%Z)
    then action st = FOUND /\ node st = Some 99%Z
    else action st = NOT_FOUND /\ node st = None.
Proof.
  split; [reflexivity|].
  split; [simpl; lia|].
  apply (C2_search_finds_exactly_the_inserted_values cleared_sample [50; 30; 70]%Z 99 3).
  - reflexivity.
  - simpl; lia.
Defined.

(** C3. Inserting a value already present leaves the tree as it was: the
    root is the same, every existing object keeps its value and both links,
    the same objects form the same tree (the node object the method creates
    up front is not part of it), and the returned steps end in a FOUND step.
    Inserting a value not present makes the tree gain exactly one node: the
    objects of the tree afterwards are those of before and the new object,
    and the values are those of before and the new value. *)
Theorem C3_duplicate_insert_changes_nothing (s : BinarySearchTree) (t : tree)
    (v : Z) (fuel : nat) :
  represents s t ->
  bst t ->
  height t <= fuel ->
  exists steps s',
    insert fuel v s = Some (steps, s') /\
    if decide (v ∈ values t) then
      root s' = root s /\
      (forall a n, heap s !! a = Some n -> heap s' !! a = Some n) /\
      represents s' t /\
      (forall a, reach (heap s') (root s') a <-> reach (heap s) (root s) a) /\
      exists st, last steps = Some st /\ action st = FOUND
    else
      exists t',
        represents s' t' /\
        refs t' ≡ₚ length (heap s) :: refs t /\
        values t' ≡ₚ v :: values t /\
        size t' = S (size t) /\
        (forall a, reach (heap s') (root s') a <->
                   a = length (heap s) \/ reach (heap s) (root s) a).
Proof.
  intros Hrep Hbst Hfuel.
  destruct (insert_spec fuel v s t Hrep Hfuel) as (s' & Hrun & Hrep' & Hmut).
  exists (insert_trace v t), s'. split; [done|].
  pose proof (bst_hit v t Hbst) as Hhit.
  case_decide as Hin.
  - apply Hhit in Hin. rewrite insert_tree_hit in Hrep' by done.
    destruct t as [|l a x r]; [done|]. rewrite Hin in Hmut. destruct Hmut as [Hroot Hheap].
    split_and!; [done| |done| |].
    + intros b n Hb. rewrite Hheap. by apply lookup_app_l_Some.
    + intros b. destruct Hrep as [Hrep _], Hrep' as [Hrep' _].
      split; intros Hb.
      * exact (refs_reach _ _ _ _ Hrep (reach_refs _ _ _ _ Hrep' Hb)).
      * exact (refs_reach _ _ _ _ Hrep' (reach_refs _ _ _ _ Hrep Hb)).
    + destruct (insert_steps_snoc v (Node l a x r)) as (k & st & E & _ & _ & Hst); [done|].
      rewrite Hin in Hst. exists st. unfold insert_trace. rewrite E, last_snoc. by subst st.
  - assert (hit v t = false) as Hh by (destruct (hit v t); [by destruct Hin; apply Hhit|done]).
    pose proof (refs_insert_tree (length (heap s)) v t Hh) as Hrefs.
    eexists. split_and!; [done|done|..].
    + by apply values_insert_tree.
    + by apply size_insert_tree.
    + intros b. destruct Hrep as [Hrep _], Hrep' as [Hrep' _].
      split.
      * intros Hb%(reach_refs _ _ _ _ Hrep'). rewrite Hrefs in Hb.
        apply elem_of_cons in Hb as [->|Hb]; [by left|right].
        exact (refs_reach _ _ _ _ Hrep Hb).
      * intros Hb. apply (refs_reach _ _ _ _ Hrep'). rewrite Hrefs. apply elem_of_cons.
        destruct Hb as [->|Hb]; [by left|right]. exact (reach_refs _ _ _ _ Hrep Hb).
Qed.

Lemma C3_witness :
  represents sample sample_tree /\ bst sample_tree /\ height sample_tree <= 3 /\
  exists steps s',
    insert 3 40 sample = Some (steps, s') /\
    if decide (40%Z ∈ values sample_tree) then
      root s' = root sample /\
      (forall a n, heap sample !! a = Some n -> heap s' !! a = Some n) /\
      represents s' sample_tree /\
      (forall a, reach (heap s') (root s') a <-> reach (heap sample) (root sample) a) /\
      exists st, last steps = Some st /\ action st = FOUND
    else
      exists t',
        represents s' t' /\
        refs t' ≡ₚ length (heap sample) :: refs sample_tree /\
        values t' ≡ₚ 40%Z :: values sample_tree /\
        size t' = S (size sample_tree) /\
        (forall a, reach (heap s') (root s') a <->
                   a = length (heap sample) \/ reach (heap sample) (root sample) a).
Proof.
  split; [apply sample_represents|].
  split; [apply sample_bst|].
  split; [simpl; lia|].
  apply (C3_duplicate_insert_changes_nothing sample sample_tree 40 3).
  - apply sample_represents.
  - apply sample_bst.
  - simpl; lia.
Defined.

(** C4, as stated, fails.  Inserting 30 into the tree holding 50 alone puts
    the new node at depth 1 (one link below the root) and returns four steps
    (visit 50, compare with 50, move left, inserted 30), not 2×1 + 1 = 3;
    counting the root as depth 1 instead, the claim would ask for 5. *)
Lemma C4_counterexample :
  exists steps s' t',
    insert 1 30 single = Some (steps, s') /\
    represents s' t' /\
    depth 30 t' = Some 1 /\
    length steps = 4 /\
    length steps <> 2 * 1 + 1.
Proof.
  exists [visiting 50; comparing 30 50; moving_left 30 50; inserted_left 30 50],
         {| root := Some 0;
            heap := [mkBSTNode 50 (Some 1) None; mkBSTNode 30 None None] |},
         (Node (Node Leaf 1 30 Leaf) 0 50 Leaf).
  split_and!; [reflexivity| |reflexivity|reflexivity|simpl; lia].
  split.
  - repeat (eapply repr_node'; [reflexivity| |]); apply repr_null.
  - apply (bool_decide_unpack (NoDup _)). by vm_compute.
Qed.

(** C4, amended.  On an empty tree [insert] returns exactly one step, the
    INSERTED step tagged with the new value.  On a non-empty tree it returns
    exactly 3×depth + 1 steps, the last one INSERTED, when the value is new
    and ends up at depth [depth], and exactly 3×depth + 3 steps, the last one
    FOUND, when the value duplicates the node at depth [depth] (the root
    having depth 0). *)
Theorem C4_insert_step_count (s : BinarySearchTree) (t : tree) (v : Z) (fuel : nat) :
  represents s t ->
  bst t ->
  height t <= fuel ->
  exists steps s' t' st,
    insert fuel v s = Some (steps, s') /\
    represents s' t' /\
    last steps = Some st /\
    if decide (root s = None) then
      steps = [st] /\ action st = INSERTED /\ node st = Some v
    else
      exists d, depth v t' = Some d /\
        if decide (v ∈ values t)
        then length steps = 3 * d + 3 /\ action st = FOUND
        else length steps = 3 * d + 1 /\ action st = INSERTED.
Proof.
  intros Hrep Hbst Hfuel.
  destruct (insert_spec fuel v s t Hrep Hfuel) as (s' & Hrun & Hrep' & _).
  pose proof (bst_hit v t Hbst) as Hhit.
  destruct Hrep as [Hrep Hnd].
  destruct t as [|l a x r].
  - apply repr_Leaf in Hrep.
    exists [inserted_as_root v], s', (insert_tree (length (heap s)) v Leaf), (inserted_as_root v).
    split_and!; [done..|]. by rewrite decide_True.
  - pose proof Hrep as (n & Hroot & _)%repr_Node.
    destruct (insert_steps_snoc v (Node l a x r)) as (k & st & E & _ & _ & Hst); [done|].
    exists (insert_steps v (Node l a x r)), s', (insert_tree (length (heap s)) v (Node l a x r)), st.
    split_and!; [done..|rewrite E; apply last_snoc|].
    rewrite decide_False by (by rewrite Hroot).
    destruct (hit v (Node l a x r)) eqn:Hh.
    + destruct (insert_steps_length_hit v _ Hbst Hh) as (d & Hd & Hlen).
      exists d. rewrite insert_tree_hit by done. split; [done|].
      rewrite decide_True by (by apply Hhit). split; [done|]. by subst st.
    + destruct (insert_steps_length_new (length (heap s)) v _ Hbst eq_refl Hh) as (d & Hd & Hlen).
      exists d. split; [done|].
      rewrite decide_False by (intros ?%Hhit; congruence). tauto.
Qed.

Lemma C4_witness :
  represents sample sample_tree /\ bst sample_tree /\ height sample_tree <= 3 /\
  exists steps s' t' st,
    insert 3 65 sample = Some (steps, s') /\
    represents s' t' /\
    last steps = Some st /\
    if decide (root sample = None) then
      steps = [st] /\ action st = INSERTED /\ node st = Some 65%Z
    else
      exists d, depth 65 t' = Some d /\
        if decide (65%Z ∈ values sample_tree)
        then length steps = 3 * d + 3 /\ action st = FOUND
        else length steps = 3 * d + 1 /\ action st = INSERTED.
Proof.
  split; [apply sample_represents|].
  split; [apply sample_bst|].
  split; [simpl; lia|].
  apply (C4_insert_step_count sample sample_tree 65 3).
  - apply sample_represents.
  - apply sample_bst.
  - simpl; lia.
Defined.

(** C5. On a tree built by inserting [vs] into an empty tree, the values of
    the VISITED steps of [inorderTraversal] are strictly ascending and are
    exactly the inserted values, each once; in [preorderTraversal] the VISITED
    step of every node comes before the VISITED step of each of its children,
    and in [postorderTraversal] it comes after. *)
Theorem C5_traversal_order_laws (s0 : BinarySearchTree) (vs : list Z) (fuel : nat) :
  root s0 = None ->
  length vs <= fuel ->
  exists s ino pre post,
    insertAll fuel vs s0 = Some (tt, s) /\
    inorderTraversal fuel s = Some (ino, s) /\
    preorderTraversal fuel s = Some (pre, s) /\
    postorderTraversal fuel s = Some (post, s) /\
    StronglySorted Z.lt (visited_values ino) /\
    (forall x, x ∈ visited_values ino <-> x ∈ vs) /\
    (forall p c, is_child s p c -> precedes (visited p) (visited c) pre) /\
    (forall p c, is_child s p c -> precedes (visited c) (visited p) post).
Proof.
  intros Hroot Hfuel.
  destruct (built_spec s0 vs fuel Hroot Hfuel) as (s & t & Hrun & Hrep & Hbst & Hval & Hh).
  exists s, (inorder_steps t), (preorder_steps t), (postorder_steps t).
  split_and!; [done| | | | | | |].
  - by apply inorderTraversal_spec.
  - by apply preorderTraversal_spec.
  - by apply postorderTraversal_spec.
  - rewrite visited_values_inorder. by apply bst_sorted.
  - intros x. by rewrite visited_values_inorder.
  - intros p c Hc. by eapply preorder_parent_first, is_child_child_in.
  - intros p c Hc. by eapply postorder_parent_last, is_child_child_in.
Qed.

Lemma C5_witness :
  root new_BinarySearchTree = None /\
  length sample_values <= 7 /\
  exists s ino pre post,
    insertAll 7 sample_values new_BinarySearchTree = Some (tt, s) /\
    inorderTraversal 7 s = Some (ino, s) /\
    preorderTraversal 7 s = Some (pre, s) /\
    postorderTraversal 7 s = Some (post, s) /\
    StronglySorted Z.lt (visited_values ino) /\
    (forall x, x ∈ visited_values ino <-> x ∈ sample_values) /\
    (forall p c, is_child s p c -> precedes (visited p) (visited c) pre) /\
    (forall p c, is_child s p c -> precedes (visited c) (visited p) post).
Proof.
  split; [reflexivity|].
  split; [simpl; lia|].
  apply (C5_traversal_order_laws new_BinarySearchTree sample_values 7).
  - reflexivity.
  - simpl; lia.
Defined.

(** C6. On a tree of [N] nodes each of the three traversals returns exactly
    [N] VISITED steps, one per node, and exactly [N - 1] movement steps (none
    when [N = 0]), one per link between a node and a child, and nothing
    else; on the empty tree all three return the empty sequence. *)
Theorem C6_traversal_step_counts (s : BinarySearchTree) (t : tree) (fuel : nat) :
  represents s t ->
  height t <= fuel ->
  exists ino pre post,
    inorderTraversal fuel s = Some (ino, s) /\
    preorderTraversal fuel s = Some (pre, s) /\
    postorderTraversal fuel s = Some (post, s) /\
    Forall (fun steps =>
              visited_count steps = size t /\
              move_count steps = size t - 1 /\
              length steps = size t + (size t - 1) /\
              visited_values steps ≡ₚ values t /\
              moves steps ≡ₚ links t)
           [ino; pre; post] /\
    (root s = None -> ino = [] /\ pre = [] /\ post = []).
Proof.
  intros Hrep Hfuel.
  exists (inorder_steps t), (preorder_steps t), (postorder_steps t).
  split_and!.
  - by apply inorderTraversal_spec.
  - by apply preorderTraversal_spec.
  - by apply postorderTraversal_spec.
  - assert (Hin : visited_count (inorder_steps t) = size t /\
                  move_count (inorder_steps t) = size t - 1 /\
                  length (inorder_steps t) = size t + (size t - 1) /\
                  visited_values (inorder_steps t) ≡ₚ values t /\
                  moves (inorder_steps t) ≡ₚ links t).
    { split_and!.
      - apply visited_count_inorder.
      - by rewrite move_count_moves, moves_inorder, length_links.
      - apply length_inorder_steps.
      - by rewrite visited_values_inorder.
      - by rewrite moves_inorder. }
    repeat apply Forall_cons_2; [done| | |apply Forall_nil_2].
    + unfold visited_count, move_count, moves, visited_values.
      by rewrite !preorder_inorder_perm.
    + unfold visited_count, move_count, moves, visited_values.
      by rewrite !postorder_inorder_perm.
  - intros Hroot. destruct Hrep as [Hrep _]. rewrite Hroot in Hrep.
    by inversion Hrep.
Qed.

Lemma C6_witness :
  represents sample sample_tree /\ height sample_tree <= 3 /\
  exists ino pre post,
    inorderTraversal 3 sample = Some (ino, sample) /\
    preorderTraversal 3 sample = Some (pre, sample) /\
    postorderTraversal 3 sample = Some (post, sample) /\
    Forall (fun steps =>
              visited_count steps = size sample_tree /\
              move_count steps = size sample_tree - 1 /\
              length steps = size sample_tree + (size sample_tree - 1) /\
              visited_values steps ≡ₚ values sample_tree /\
              moves steps ≡ₚ links sample_tree)
           [ino; pre; post] /\
    (root sample = None -> ino = [] /\ pre = [] /\ post = []).
Proof.
  split; [apply sample_represents|].
  split; [simpl; lia|].
  apply (C6_traversal_step_counts sample sample_tree 3).
  - apply sample_represents.
  - simpl; lia.
Defined.

(** C8. [search] and the three traversals never mutate the tree: run on a
    tree they return with the root and every node object (value, left child,
    right child) exactly as before; and on any store whatsoever, whenever they
    return, nothing has changed. *)
Theorem C8_search_and_traversals_do_not_mutate (s : BinarySearchTree) (t : tree)
    (v : Z) (fuel : nat) :
  represents s t ->
  height t <= fuel ->
  ((exists steps, search fuel v s = Some (steps, s)) /\
   (exists steps, inorderTraversal fuel s = Some (steps, s)) /\
   (exists steps, preorderTraversal fuel s = Some (steps, s)) /\
   (exists steps, postorderTraversal fuel s = Some (steps, s))) /\
  (readonly (search fuel v) /\
   readonly (inorderTraversal fuel) /\
   readonly (preorderTraversal fuel) /\
   readonly (postorderTraversal fuel)).
Proof.
  intros Hrep Hfuel. split; split_and!.
  - eexists. by apply search_spec.
  - eexists. by apply inorderTraversal_spec.
  - eexists. by apply preorderTraversal_spec.
  - eexists. by apply postorderTraversal_spec.
  - apply readonly_search.
  - apply readonly_traversals.
  - apply readonly_traversals.
  - apply readonly_traversals.
Qed.

Lemma C8_witness :
  represents sample sample_tree /\ height sample_tree <= 3 /\
  ((exists steps, search 3 60 sample = Some (steps, sample)) /\
   (exists steps, inorderTraversal 3 sample = Some (steps, sample)) /\
   (exists steps, preorderTraversal 3 sample = Some (steps, sample)) /\
   (exists steps, postorderTraversal 3 sample = Some (steps, sample))) /\
  (readonly (search 3 60) /\
   readonly (inorderTraversal 3) /\
   readonly (preorderTraversal 3) /\
   readonly (postorderTraversal 3)).
Proof.
  split; [apply sample_represents|].
  split; [simpl; lia|].
  apply (C8_search_and_traversals_do_not_mutate sample sample_tree 60 3).
  - apply sample_represents.
  - simpl; lia.
Defined.

(** C9. [clear] sets the root to null, touches no node and returns nothing;
    on an empty tree it changes nothing, and clearing twice is clearing once;
    [clear] followed by [insert v] (for 99 as for any other value) leaves a
    tree whose only node is the root holding [v], with both children null:
    no object of the earlier tree can be reached. *)
Theorem C9_clear_discards_the_tree (s : BinarySearchTree) (v : Z) (fuel : nat) :
  clear s = Some (tt, {| root := None; heap := heap s |}) /\
  (root s = None -> clear s = Some (tt, s)) /\
  (let* _ := clear in clear) s = clear s /\
  exists steps s',
    (let* _ := clear in insert fuel v) s = Some (steps, s') /\
    steps = [inserted_as_root v] /\
    root s' = Some (length (heap s)) /\
    heap s' !! length (heap s) = Some (mkBSTNode v None None) /\
    (forall a, reach (heap s') (root s') a -> a = length (heap s)).
Proof.
  split_and!.
  - done.
  - destruct s as [rt h]. simpl. by intros ->.
  - done.
  - exists [inserted_as_root v],
           {| root := Some (length (heap s));
              heap := heap s ++ [mkBSTNode v None None] |}.
    split; [reflexivity|]. cbn [root heap].
    assert (Hnew : (heap s ++ [mkBSTNode v None None]) !! length (heap s)
                   = Some (mkBSTNode v None None)) by apply list_lookup_middle, eq_refl.
    split_and!; [done..|].
    intros a Hreach. inversion Hreach as [|? n ? Hn Hr|? n ? Hn Hr]; subst; [done|..].
    + assert (n = mkBSTNode v None None) as -> by congruence. inversion Hr.
    + assert (n = mkBSTNode v None None) as -> by congruence. inversion Hr.
Qed.

Lemma C9_witness :
  root cleared_sample = None /\
  (clear cleared_sample = Some (tt, {| root := None; heap := heap cleared_sample |}) /\
   (root cleared_sample = None -> clear cleared_sample = Some (tt, cleared_sample)) /\
   (let* _ := clear in clear) cleared_sample = clear cleared_sample /\
   exists steps s',
     (let* _ := clear in insert 0 99) cleared_sample = Some (steps, s') /\
     steps = [inserted_as_root 99] /\
     root s' = Some (length (heap cleared_sample)) /\
     heap s' !! length (heap cleared_sample) = Some (mkBSTNode 99 None None) /\
     (forall a, reach (heap s') (root s') a -> a = length (heap cleared_sample))).
Proof.
  split; [reflexivity|].
  apply (C9_clear_discards_the_tree cleared_sample 99 0).
Defined.

(** C10. The steps returned by [insert] contain exactly one outcome step
    (INSERTED, FOUND or NOT_FOUND), it is the last step, and it is INSERTED
    when the value is new and FOUND when it is a duplicate; the steps returned
    by [search] contain exactly one outcome step, it is the last step, and it
    is FOUND or NOT_FOUND. *)
Theorem C10_one_outcome_step_at_the_end (s : BinarySearchTree) (t : tree)
    (v : Z) (fuel : nat) :
  represents s t ->
  bst t ->
  height t <= fuel ->
  (exists steps s' st,
     insert fuel v s = Some (steps, s') /\
     filter outcome steps = [st] /\
     last steps = Some st /\
     action st = if decide (v ∈ values t) then FOUND else INSERTED) /\
  (exists steps st,
     search fuel v s = Some (steps, s) /\
     filter outcome steps = [st] /\
     last steps = Some st /\
     action st = if decide (v ∈ values t) then FOUND else NOT_FOUND).
Proof.
  intros Hrep Hbst Hfuel.
  pose proof (bst_hit v t Hbst) as Hhit.
  split.
  - destruct (insert_spec fuel v s t Hrep Hfuel) as (s' & Hrun & _).
    destruct t as [|l a x r].
    + exists [inserted_as_root v], s', (inserted_as_root v).
      split_and!; [done..|]. by rewrite decide_False by (by intros ?%elem_of_nil).
    + destruct (insert_steps_snoc v (Node l a x r)) as (k & st & E & Hk & _ & Hst); [done|].
      exists (insert_steps v (Node l a x r)), s', st.
      assert (Hact : action st = if decide (v ∈ values (Node l a x r)) then FOUND else INSERTED).
      { destruct (hit v (Node l a x r)) eqn:Hh.
        - rewrite decide_True by (by apply Hhit). by subst st.
        - rewrite decide_False by (intros ?%Hhit; congruence). tauto. }
      split_and!; [done| |rewrite E; apply last_snoc|done].
      rewrite E. apply filter_outcome_snoc; [done|].
      unfold outcome. rewrite Hact. case_decide; auto.
  - pose proof (search_spec fuel v s t Hrep Hfuel) as Hrun.
    destruct t as [|l a x r].
    + exists [tree_is_empty v], (tree_is_empty v).
      split_and!; [done..|]. by rewrite decide_False by (by intros ?%elem_of_nil).
    + destruct (search_steps_snoc v (Node l a x r)) as (k & st & E & Hk & Hst).
      exists (search_steps v (Node l a x r)), st.
      assert (Hact : action st = if decide (v ∈ values (Node l a x r)) then FOUND else NOT_FOUND).
      { destruct (hit v (Node l a x r)) eqn:Hh.
        - rewrite decide_True by (by apply Hhit). by subst st.
        - rewrite decide_False by (intros ?%Hhit; congruence). by subst st. }
      split_and!; [done| |rewrite E; apply last_snoc|done].
      rewrite E. apply filter_outcome_snoc; [done|].
      unfold outcome. rewrite Hact. case_decide; auto.
Qed.

Lemma C10_witness :
  represents sample sample_tree /\ bst sample_tree /\ height sample_tree <= 3 /\
  (exists steps s' st,
     insert 3 65 sample = Some (steps, s') /\
     filter outcome steps = [st] /\
     last steps = Some st /\
     action st = if decide (65%Z ∈ values sample_tree) then FOUND else INSERTED) /\
  (exists steps st,
     search 3 65 sample = Some (steps, sample) /\
     filter outcome steps = [st] /\
     last steps = Some st /\
     action st = if decide (65%Z ∈ values sample_tree) then FOUND else NOT_FOUND).
Proof.
  split; [apply sample_represents|].
  split; [apply sample_bst|].
  split; [simpl; lia|].
  apply (C10_one_outcome_step_at_the_end sample sample_tree 65 3).
  - apply sample_represents.
  - apply sample_bst.
  - simpl; lia.
Defined.

(** C7. On a tree with distinct values (every search tree is one)
    [computePositions] returns a map that holds, for every node, exactly the
    position the two passes of the specification give it:
    [x = PADDING + (leftBound + width(left)) * HORIZONTAL_SPACING] and
    [y = PADDING + depth * VERTICAL_SPACING], with
    [width(node) = width(left) + 1 + width(right)].  The map depends on the
    tree alone.  The column of a node is its in-order rank, so columns are
    distinct; its row is its depth; below any node, every column of the left
    subtree lies left of the node's column and every column of the right
    subtree lies right of it.  On the empty tree the map is empty and so is
    the edge list. *)
Theorem C7_layout_columns_follow_inorder_rank (h : list BSTNode) (p : option ref)
    (t : tree) (fuel : nat) :
  repr h p t ->
  NoDup (values t) ->
  height t <= fuel ->
  exists positions,
    computePositions fuel h p = Some positions /\
    (forall v pos, positions !! v = Some pos <-> (v, pos) ∈ placements t 0 0) /\
    (forall fuel' h' p',
        repr h' p' t -> height t <= fuel' ->
        computePositions fuel' h' p' = Some positions) /\
    (forall i v, values t !! i = Some v ->
        exists pos,
          positions !! v = Some pos /\
          Position.x pos
            = (CONFIG.PADDING + Z.of_nat i * CONFIG.HORIZONTAL_SPACING)%Z /\
          refs t !! i = Some (Position.node pos)) /\
    (forall u w pu pw,
        positions !! u = Some pu -> positions !! w = Some pw -> u <> w ->
        Position.x pu <> Position.x pw) /\
    (forall v k, depth v t = Some k ->
        exists pos,
          positions !! v = Some pos /\
          Position.y pos
            = (CONFIG.PADDING + Z.of_nat k * CONFIG.VERTICAL_SPACING)%Z) /\
    (forall l a c r u w pu pc pw,
        subtree (Node l a c r) t ->
        u ∈ values l -> w ∈ values r ->
        positions !! u = Some pu ->
        positions !! c = Some pc ->
        positions !! w = Some pw ->
        (Position.x pu < Position.x pc < Position.x pw)%Z) /\
    (p = None -> positions = ∅ /\ collectEdges fuel h p positions = Some []).
Proof.
  intros Hrep Hnd Hfuel.
  exists (set_all (placements t 0 0) ∅). split_and!.
  - by apply computePositions_spec.
  - intros v pos. by apply layout_lookup.
  - intros fuel' h' p' Hrep' Hfuel'. by apply computePositions_spec.
  - intros i v Hi.
    destruct (placements_rank t 0 0 i v Hi) as (pos & Hin & Hx & Href).
    exists pos. split_and!; [by apply layout_lookup| |done].
    rewrite Hx. do 2 f_equal; lia.
  - intros u w pu pw Hu Hw Hne Hx.
    pose proof Hu as Hu'. pose proof Hw as Hw'.
    apply layout_lookup in Hu', Hw'; [|done..].
    assert (u ∈ values t) as [i Hi]%list_elem_of_lookup.
    { rewrite <- (placements_keys t 0 0). apply list_elem_of_fmap. by exists (u, pu). }
    assert (w ∈ values t) as [j Hj]%list_elem_of_lookup.
    { rewrite <- (placements_keys t 0 0). apply list_elem_of_fmap. by exists (w, pw). }
    destruct (layout_column t i u pu Hnd Hi Hu) as [Hxu _].
    destruct (layout_column t j w pw Hnd Hj Hw) as [Hxw _].
    rewrite Hxu, Hxw in Hx. unfold CONFIG.PADDING, CONFIG.HORIZONTAL_SPACING in Hx.
    assert (i = j) as -> by lia. congruence.
  - intros v k Hk.
    destruct (placements_depth t 0 0 v k Hk) as (pos & Hin & Hy).
    exists pos. split; [by apply layout_lookup|]. rewrite Hy. do 2 f_equal; lia.
  - intros l a c r u w pu pc pw Hsub Hu Hw Hpu Hpc Hpw.
    destruct (subtree_values _ _ Hsub) as (pre & post & E). simpl in E.
    apply list_elem_of_lookup in Hu as [j Hj]. apply list_elem_of_lookup in Hw as [k Hk].
    pose proof (lookup_lt_Some _ _ _ Hj) as Hjlt.
    assert (Hiu : values t !! (length pre + j) = Some u).
    { rewrite E. apply lookup_mid. by apply lookup_app_l_Some. }
    assert (Hic : values t !! (length pre + length (values l)) = Some c).
    { rewrite E. apply lookup_mid. by apply list_lookup_middle. }
    assert (Hiw : values t !! (length pre + (length (values l) + S k)) = Some w).
    { rewrite E. apply lookup_mid. rewrite lookup_app_r by lia.
      replace (length (values l) + S k - length (values l)) with (S k) by lia. done. }
    destruct (layout_column t _ u pu Hnd Hiu Hpu) as [-> _].
    destruct (layout_column t _ c pc Hnd Hic Hpc) as [-> _].
    destruct (layout_column t _ w pw Hnd Hiw Hpw) as [-> _].
    unfold CONFIG.PADDING, CONFIG.HORIZONTAL_SPACING. lia.
  - intros ->. inversion Hrep; subst. split; [done|]. by destruct fuel.
Qed.

Lemma C7_witness :
  repr (heap sample) (root sample) sample_tree /\
  NoDup (values sample_tree) /\
  height sample_tree <= 3 /\
  exists positions,
    computePositions 3 (heap sample) (root sample) = Some positions /\
    (forall v pos, positions !! v = Some pos <-> (v, pos) ∈ placements sample_tree 0 0) /\
    (forall fuel' h' p',
        repr h' p' sample_tree -> height sample_tree <= fuel' ->
        computePositions fuel' h' p' = Some positions) /\
    (forall i v, values sample_tree !! i = Some v ->
        exists pos,
          positions !! v = Some pos /\
          Position.x pos
            = (CONFIG.PADDING + Z.of_nat i * CONFIG.HORIZONTAL_SPACING)%Z /\
          refs sample_tree !! i = Some (Position.node pos)) /\
    (forall u w pu pw,
        positions !! u = Some pu -> positions !! w = Some pw -> u <> w ->
        Position.x pu <> Position.x pw) /\
    (forall v k, depth v sample_tree = Some k ->
        exists pos,
          positions !! v = Some pos /\
          Position.y pos
            = (CONFIG.PADDING + Z.of_nat k * CONFIG.VERTICAL_SPACING)%Z) /\
    (forall l a c r u w pu pc pw,
        subtree (Node l a c r) sample_tree ->
        u ∈ values l -> w ∈ values r ->
        positions !! u = Some pu ->
        positions !! c = Some pc ->
        positions !! w = Some pw ->
        (Position.x pu < Position.x pc < Position.x pw)%Z) /\
    (root sample = None ->
     positions = ∅ /\ collectEdges 3 (heap sample) (root sample) positions = Some []).
Proof.
  split; [apply sample_represents|].
  split; [apply sorted_NoDup, bst_sorted, sample_bst|].
  split; [simpl; lia|].
  apply (C7_layout_columns_follow_inorder_rank (heap sample) (root sample) sample_tree 3).
  - apply sample_represents.
  - apply sorted_NoDup, bst_sorted, sample_bst.
  - simpl; lia.
Defined.

(** * More of the engine *)

(** *** [insert] and [search] walk the same path *)

Lemma insert_search_same_path v t :
  is_node t = true ->
  exists k a b, insert_steps v t = k ++ [a] /\ search_steps v t = k ++ [b].
Proof.
  induction t as [|l IHl c x r IHr]; [done|]. intros _. simpl.
  destruct (v <? x)%Z eqn:Hlt; [|destruct (v >? x)%Z eqn:Hgt].
  - assert ((v =? x)%Z = false) as -> by lia.
    destruct l as [|ll la lx lr].
    + by exists [visiting x; comparing v x; moving_left v x], (inserted_left v x), (not_found v).
    + destruct IHl as (k & a & b & Ei & Es); [done|].
      exists (visiting x :: comparing v x :: moving_left v x :: k), a, b.
      by rewrite Ei, Es.
  - assert ((v =? x)%Z = false) as -> by lia.
    destruct r as [|rl ra rx rr].
    + by exists [visiting x; comparing v x; moving_right v x], (inserted_right v x), (not_found v).
    + destruct IHr as (k & a & b & Ei & Es); [done|].
      exists (visiting x :: comparing v x :: moving_right v x :: k), a, b.
      by rewrite Ei, Es.
  - assert ((v =? x)%Z = true) as -> by lia.
    by exists [visiting x; comparing v x], (already_exists v x), (found v x).
Qed.

(** *** What [insert] does to later searches *)

Lemma height_insert_tree n v t : height (insert_tree n v t) <= S (height t).
Proof.
  induction t as [|l IHl a x r IHr]; simpl; [lia|].
  destruct (v <? x)%Z; [|destruct (v >? x)%Z]; simpl; lia.
Qed.

Lemma hit_insert_tree_same n v t : hit v (insert_tree n v t) = true.
Proof.
  induction t as [|l IHl a x r IHr]; simpl.
  - by rewrite Z.ltb_irrefl, Z.gtb_ltb, Z.ltb_irrefl.
  - destruct (v <? x)%Z eqn:Hlt; [|destruct (v >? x)%Z eqn:Hgt]; simpl;
      by rewrite ?Hlt, ?Hgt.
Qed.

Lemma hit_insert_tree_other n v w t : w <> v -> hit w (insert_tree n v t) = hit w t.
Proof.
  intros Hne. induction t as [|l IHl a x r IHr]; simpl.
  - destruct (w <? v)%Z eqn:?; [done|]. destruct (w >? v)%Z eqn:?; [done|]. lia.
  - destruct (v <? x)%Z; [|destruct (v >? x)%Z]; simpl; [| |done].
    + by rewrite IHl.
    + by rewrite IHr.
Qed.

(** The last step of [search], whatever the tree. *)
Lemma search_last fuel w s t :
  represents s t ->
  height t <= fuel ->
  exists steps st,
    search fuel w s = Some (steps, s) /\ last steps = Some st /\
    if hit w t then action st = FOUND /\ node st = Some w
    else action st = NOT_FOUND /\ node st = None.
Proof.
  intros Hrep Hfuel. rewrite (search_spec fuel w s t Hrep Hfuel).
  destruct t as [|l a x r].
  - by exists [tree_is_empty w], (tree_is_empty w).
  - destruct (search_steps_snoc w (Node l a x r)) as (k & st & E & _ & Hst).
    exists (search_steps w (Node l a x r)), st.
    split_and!; [done|rewrite E; apply last_snoc|].
    destruct (hit w (Node l a x r)); by subst st.
Qed.

(** *** Lengths of the traces *)

Lemma length_insert_steps v t :
  is_node t = true -> 1 <= length (insert_steps v t) <= 3 * height t + 1.
Proof.
  induction t as [|l IHl a x r IHr]; [done|]. intros _. simpl.
  destruct (v <? x)%Z; [|destruct (v >? x)%Z]; simpl; [| |lia].
  - destruct l; [simpl; lia|]. specialize (IHl eq_refl). simpl in *. lia.
  - destruct r; [simpl; lia|]. specialize (IHr eq_refl). simpl in *. lia.
Qed.

Lemma length_search_steps v t : 1 <= length (search_steps v t) <= 3 * height t + 1.
Proof.
  induction t as [|l IHl a x r IHr]; simpl; [lia|].
  destruct (v =? x)%Z; [|destruct (v <? x)%Z]; simpl; lia.
Qed.

(** *** The nodes the steps name *)

Lemma holds_values s t x : represents s t -> holds s x <-> x ∈ values t.
Proof.
  intros [Hrep _]. unfold holds. split.
  - intros (a & n & Hreach & Ha & <-). by eapply reach_values.
  - induction Hrep as [|a n l r Ha Hl IHl Hr IHr]; simpl; [by intros ?%elem_of_nil|].
    rewrite elem_of_app, elem_of_cons. intros [Hx|[->|Hx]].
    + destruct (IHl Hx) as (b & m & ? & ? & ?). exists b, m.
      split_and!; [|done..]. by eapply reach_left.
    + exists a, n. split_and!; [constructor|done..].
    + destruct (IHr Hx) as (b & m & ? & ? & ?). exists b, m.
      split_and!; [|done..]. by eapply reach_right.
Qed.

Lemma insert_steps_nodes n v t :
  Forall (fun st => exists x, node st = Some x /\ x ∈ values (insert_tree n v t))
         (insert_steps v t).
Proof.
  induction t as [|l IHl a x r IHr]; simpl; [constructor|].
  assert (Hx : forall t', x ∈ values (Node t' a x r) /\ x ∈ values (Node l a x t')).
  { intros t'. simpl. set_solver. }
  destruct (v <? x)%Z; [|destruct (v >? x)%Z].
  - repeat (apply Forall_cons; split; [exists x; split; [done|apply Hx]|]).
    destruct l as [|ll la lx lr].
    + apply Forall_cons; split; [|constructor]. exists v. split; [done|]. simpl. set_solver.
    + eapply Forall_impl; [exact IHl|]. intros st (y & ? & ?). exists y. split; [done|].
      simpl. set_solver.
  - repeat (apply Forall_cons; split; [exists x; split; [done|apply Hx]|]).
    destruct r as [|rl ra rx rr].
    + apply Forall_cons; split; [|constructor]. exists v. split; [done|]. simpl. set_solver.
    + eapply Forall_impl; [exact IHr|]. intros st (y & ? & ?). exists y. split; [done|].
      simpl in *. set_solver.
  - repeat (apply Forall_cons; split; [exists x; split; [done|apply Hx]|]). constructor.
Qed.

Lemma search_steps_nodes v t :
  Forall (fun st => match node st with
                    | Some x => x ∈ values t
                    | None => action st = NOT_FOUND
                    end)
         (search_steps v t).
Proof.
  induction t as [|l IHl a x r IHr]; simpl; [by repeat constructor|].
  assert (Hx : x ∈ values l ++ x :: values r) by set_solver.
  destruct (v =? x)%Z; [|destruct (v <? x)%Z].
  - repeat (apply Forall_cons; split; [exact Hx|]). constructor.
  - repeat (apply Forall_cons; split; [exact Hx|]).
    eapply Forall_impl; [exact IHl|]. intros st. simpl. destruct (node st); [set_solver|done].
  - repeat (apply Forall_cons; split; [exact Hx|]).
    eapply Forall_impl; [exact IHr|]. intros st. simpl. destruct (node st); [set_solver|done].
Qed.

Lemma inorder_steps_nodes t :
  Forall (fun st => exists x, node st = Some x /\ x ∈ values t) (inorder_steps t).
Proof.
  induction t as [|l IHl a x r IHr]; simpl; [constructor|].
  assert (Hx : x ∈ values l ++ x :: values r) by set_solver.
  apply Forall_app; split; [|apply Forall_cons; split; [by exists x|]].
  - unfold descend. destruct (is_node l); [|constructor].
    apply Forall_cons; split; [by exists x|].
    eapply Forall_impl; [exact IHl|]. intros st (y & ? & ?). exists y. set_solver.
  - unfold descend. destruct (is_node r); [|constructor].
    apply Forall_cons; split; [by exists x|].
    eapply Forall_impl; [exact IHr|]. intros st (y & ? & ?). exists y. set_solver.
Qed.

(** *** [getTreeStructure] *)

Lemma buildStructure_spec t : forall fuel s p parentId side nodes edges i,
  repr (heap s) p t ->
  height t <= fuel ->
  _buildStructure fuel p parentId side nodes edges i s
  = Some ((nodes ++ structure_nodes t side i,
           edges ++ structure_edges t parentId side i), s).
Proof.
  induction t as [|l IHl a x r IHr]; intros fuel s p parentId side nodes edges i Hrep Hfuel.
  - apply repr_Leaf in Hrep as ->. destruct fuel; cbn; unfold ret; by rewrite !app_nil_r.
  - apply repr_Node in Hrep as (n & -> & Ha & <- & Hl & Hr).
    destruct fuel as [|fuel]; simpl in Hfuel; [lia|].
    cbn [_buildStructure structure_nodes structure_edges].
    unfold bind at 1, load. rewrite Ha. unfold bind.
    assert (El : forall nodes' edges',
      match left n with
      | Some _ => _buildStructure fuel (left n) (Some i) side_left nodes' edges' (i * 2)
      | None => ret (nodes', edges')
      end s = Some ((nodes' ++ structure_nodes l side_left (i * 2),
                     edges' ++ structure_edges l (Some i) side_left (i * 2)), s)).
    { intros nodes' edges'. destruct (left n) eqn:E.
      - apply IHl; [done|lia].
      - inversion Hl. unfold ret. simpl. by rewrite !app_nil_r. }
    rewrite El. cbn [fst snd].
    assert (Er : forall nodes' edges',
      match right n with
      | Some _ => _buildStructure fuel (right n) (Some i) side_right nodes' edges' (i * 2 + 1)
      | None => ret (nodes', edges')
      end s = Some ((nodes' ++ structure_nodes r side_right (i * 2 + 1),
                     edges' ++ structure_edges r (Some i) side_right (i * 2 + 1)), s)).
    { intros nodes' edges'. destruct (right n) eqn:E.
      - apply IHr; [done|lia].
      - inversion Hr. unfold ret. simpl. by rewrite !app_nil_r. }
    rewrite Er. destruct parentId; simpl; by rewrite <- !app_assoc.
Qed.

Lemma getTreeStructure_spec fuel s t :
  represents s t ->
  height t <= fuel ->
  getTreeStructure fuel s
  = Some ((structure_nodes t side_root 1, structure_edges t None side_root 1), s).
Proof.
  intros [Hrep _] Hfuel. unfold getTreeStructure, bind, getRoot.
  by erewrite buildStructure_spec.
Qed.

Lemma visited_values_preorder t : visited_values (preorder_steps t) = preorder_values t.
Proof.
  induction t as [|l IHl a x r IHr]; simpl; [done|].
  change (visited x :: ?k) with ([visited x] ++ k).
  rewrite !visited_values_app, !visited_values_descend, IHl, IHr by (by constructor).
  destruct l, r; simpl; by rewrite ?app_nil_r.
Qed.

Lemma structure_nodes_values t : forall side i,
  StructNode.value <$> structure_nodes t side i = preorder_values t.
Proof.
  induction t as [|l IHl a x r IHr]; intros side i; simpl; [done|].
  by rewrite fmap_app, IHl, IHr.
Qed.

Lemma structure_edges_to t : forall p side i,
  (i `div` 2 = p)%Z ->
  structure_edges t (Some p) side i = edge_to <$> structure_nodes t side i.
Proof.
  induction t as [|l IHl a x r IHr]; intros p side i Hp; simpl; [done|].
  rewrite fmap_app, <- (IHl i), <- (IHr i).
  - unfold edge_to. simpl. by rewrite Hp.
  - symmetry. apply (Z.div_unique_pos _ 2 i 1); lia.
  - by apply Z.div_mul.
Qed.

Lemma structure_edges_root t i :
  structure_edges t None side_root i = edge_to <$> tail (structure_nodes t side_root i).
Proof.
  destruct t as [|l a x r]; simpl; [done|].
  rewrite fmap_app, <- !(structure_edges_to _ i); [done|..].
  - symmetry. apply (Z.div_unique_pos _ 2 i 1); lia.
  - by apply Z.div_mul.
Qed.

Lemma structure_nodes_ids t : forall side i,
  StructNode.id <$> structure_nodes t side i = id_along i <$> paths t.
Proof.
  induction t as [|l IHl a x r IHr]; intros side i; simpl; [done|].
  rewrite !fmap_app, IHl, IHr, <- !list_fmap_compose. done.
Qed.

Lemma id_along_snoc i p b :
  id_along i (p ++ [b]) = (if b then id_along i p * 2 + 1 else id_along i p * 2)%Z.
Proof. unfold id_along. by rewrite foldl_app. Qed.

Lemma id_along_ge i p : (1 <= i)%Z -> (i <= id_along i p)%Z.
Proof.
  intros Hi. induction p as [|b p IH] using rev_ind; [simpl; lia|].
  rewrite id_along_snoc. destruct b; lia.
Qed.

Lemma id_along_inj i : (1 <= i)%Z -> Inj (=) (=) (id_along i).
Proof.
  intros Hi p. induction p as [|b p IH] using rev_ind; intros q Hq.
  - destruct q as [|c q] using rev_ind; [done|].
    rewrite id_along_snoc in Hq. pose proof (id_along_ge i q Hi).
    simpl in Hq. destruct c; lia.
  - destruct q as [|c q _] using rev_ind.
    + rewrite id_along_snoc in Hq. pose proof (id_along_ge i p Hi).
      simpl in Hq. destruct b; lia.
    + rewrite !id_along_snoc in Hq.
      assert (b = c /\ id_along i p = id_along i q) as [-> Hpq] by (destruct b, c; split; (done || lia)).
      by rewrite (IH q Hpq).
Qed.

Lemma NoDup_paths t : NoDup (paths t).
Proof.
  induction t as [|l IHl a x r IHr]; simpl; [constructor|].
  apply NoDup_cons. split.
  - rewrite elem_of_app, !list_elem_of_fmap. intros [(? & ? & _)|(? & ? & _)]; done.
  - apply NoDup_app. split_and!.
    + apply (NoDup_fmap_2 _). done.
    + intros p (? & -> & _)%list_elem_of_fmap (? & ? & _)%list_elem_of_fmap. done.
    + apply (NoDup_fmap_2 _). done.
Qed.

Lemma structure_nodes_ids_NoDup t side i :
  (1 <= i)%Z -> NoDup (StructNode.id <$> structure_nodes t side i).
Proof.
  intros Hi. rewrite structure_nodes_ids.
  pose proof (id_along_inj i Hi). apply (NoDup_fmap_2 (id_along i)), NoDup_paths.
Qed.

Lemma structure_nodes_bound t : forall side i,
  (1 <= i)%Z ->
  Forall (fun nd => (i <= StructNode.id nd)%Z /\
                    (2 * StructNode.id nd < (i + 1) * 2 ^ Z.of_nat (height t))%Z)
         (structure_nodes t side i).
Proof.
  induction t as [|l IHl a x r IHr]; intros side i Hi; [constructor|].
  cbn [structure_nodes height].
  assert (Hpow : (2 ^ Z.of_nat (S (Nat.max (height l) (height r)))
                  = 2 * 2 ^ Z.of_nat (Nat.max (height l) (height r)))%Z).
  { rewrite Nat2Z.inj_succ. apply Z.pow_succ_r. lia. }
  assert (Hl : (0 < 2 ^ Z.of_nat (height l) <= 2 ^ Z.of_nat (Nat.max (height l) (height r)))%Z).
  { split; [apply Z.pow_pos_nonneg; lia|apply Z.pow_le_mono_r; lia]. }
  assert (Hr : (0 < 2 ^ Z.of_nat (height r) <= 2 ^ Z.of_nat (Nat.max (height l) (height r)))%Z).
  { split; [apply Z.pow_pos_nonneg; lia|apply Z.pow_le_mono_r; lia]. }
  rewrite Hpow. apply Forall_cons. split; [simpl; nia|].
  apply Forall_app. split.
  - eapply Forall_impl; [apply (IHl side_left (i * 2)%Z); lia|].
    intros nd [? ?]. split; nia.
  - eapply Forall_impl; [apply (IHr side_right (i * 2 + 1)%Z); lia|].
    intros nd [? ?]. split; nia.
Qed.

Lemma structure_nodes_parity t : forall side i,
  side = (if Z.even i then side_left else side_right) ->
  Forall (fun nd => StructNode.position nd
                    = if Z.even (StructNode.id nd) then side_left else side_right)
         (structure_nodes t side i).
Proof.
  induction t as [|l IHl a x r IHr]; intros side i Hside; simpl; [constructor|].
  apply Forall_cons. split; [done|]. apply Forall_app. split.
  - apply IHl. rewrite Z.even_mul. simpl. by rewrite orb_true_r.
  - apply IHr. rewrite Z.even_add, Z.even_mul. simpl. by rewrite orb_true_r.
Qed.

Lemma length_structure_nodes t side i : length (structure_nodes t side i) = size t.
Proof.
  rewrite <- (length_fmap StructNode.id), structure_nodes_ids, length_fmap.
  induction t as [|l IHl a x r IHr]; simpl; [done|].
  rewrite length_app, !length_fmap. lia.
Qed.

(** *** [collectEdges] *)

Lemma traverse_spec positions t : forall fuel h p edges,
  repr h p t ->
  height t <= fuel ->
  traverse fuel h positions p edges = Some (edges ++ edge_list positions t).
Proof.
  induction t as [|l IHl a x r IHr]; intros fuel h p edges Hrep Hfuel.
  - apply repr_Leaf in Hrep as ->. destruct fuel; cbn; by rewrite app_nil_r.
  - apply repr_Node in Hrep as (n & -> & Ha & <- & Hl & Hr).
    destruct fuel as [|fuel]; simpl in Hfuel; [lia|].
    cbn [traverse edge_list]. rewrite Ha. cbn [mbind option_bind].
    assert (El : forall edges',
      match left n with
      | Some l0 =>
        h !! l0 ≫= fun ln =>
        traverse fuel h positions (left n)
                 (edges' ++ [mkEdge (positions !! value n) (positions !! value ln) dir_left])
      | None => Some edges'
      end = Some (edges' ++ match root_value l with
                            | Some c => mkEdge (positions !! value n) (positions !! c) dir_left
                                        :: edge_list positions l
                            | None => []
                            end)).
    { intros edges'. destruct (left n) as [l0|] eqn:E.
      - inversion Hl as [|? nl ? ? Hl0]; subst.
        rewrite Hl0; cbn [mbind option_bind].
        rewrite (IHl fuel h (Some l0)); [|done|lia].
        simpl; by rewrite <- app_assoc.
      - inversion Hl. simpl. by rewrite app_nil_r. }
    rewrite El. cbn [mbind option_bind].
    assert (Er : forall edges',
      match right n with
      | Some r0 =>
        h !! r0 ≫= fun rn =>
        traverse fuel h positions (right n)
                 (edges' ++ [mkEdge (positions !! value n) (positions !! value rn) dir_right])
      | None => Some edges'
      end = Some (edges' ++ match root_value r with
                            | Some c => mkEdge (positions !! value n) (positions !! c) dir_right
                                        :: edge_list positions r
                            | None => []
                            end)).
    { intros edges'. destruct (right n) as [r0|] eqn:E.
      - inversion Hr as [|? nr ? ? Hr0]; subst.
        rewrite Hr0; cbn [mbind option_bind].
        rewrite (IHr fuel h (Some r0)); [|done|lia].
        simpl; by rewrite <- app_assoc.
      - inversion Hr. simpl. by rewrite app_nil_r. }
    rewrite Er. by rewrite <- app_assoc.
Qed.

Lemma length_edge_list positions t : length (edge_list positions t) = size t - 1.
Proof.
  induction t as [|l IHl a x r IHr]; simpl; [done|].
  rewrite length_app. destruct l, r; simpl in *; lia.
Qed.

Lemma width_nonneg t : (0 <= width t)%Z.
Proof. rewrite width_size. lia. Qed.

Lemma edge_list_well_placed positions t : forall d lb,
  (forall v p, (v, p) ∈ placements t d lb -> positions !! v = Some p) ->
  Forall well_placed (edge_list positions t).
Proof.
  induction t as [|l IHl a x r IHr]; intros d lb Hpos; simpl; [constructor|].
  simpl in Hpos.
  assert (Hx := Hpos x _ (list_elem_of_here _ _)).
  assert (Hposl : forall v p, (v, p) ∈ placements l (d + 1) lb -> positions !! v = Some p).
  { intros v p Hin. apply Hpos. set_solver. }
  assert (Hposr : forall v p, (v, p) ∈ placements r (d + 1) (lb + width l + 1) ->
                              positions !! v = Some p).
  { intros v p Hin. apply Hpos. set_solver. }
  apply Forall_app. split.
  - destruct l as [|ll la lx lr]; simpl; [constructor|].
    apply Forall_cons. split; [|by apply (IHl (d + 1)%Z lb)].
    eexists _, _. split_and!; [exact Hx|apply Hposl; simpl; by left|..]; simpl.
    + unfold CONFIG.VERTICAL_SPACING. lia.
    + pose proof (width_nonneg lr). unfold CONFIG.HORIZONTAL_SPACING. lia.
  - destruct r as [|rl ra rx rr]; simpl; [constructor|].
    apply Forall_cons. split; [|by apply (IHr (d + 1)%Z (lb + width l + 1)%Z)].
    eexists _, _. split_and!; [exact Hx|apply Hposr; simpl; by left|..]; simpl.
    + unfold CONFIG.VERTICAL_SPACING. lia.
    + pose proof (width_nonneg rl). unfold CONFIG.HORIZONTAL_SPACING. lia.
Qed.

(** *** The renderer's own [computePositions] *)

Lemma calculateWidths_root fuel h a t :
  repr h (Some a) t ->
  height t <= fuel ->
  exists w, calculateWidths fuel h (Some a) ∅ = Some (width t, w) /\
            w !! a = Some (width t) /\
            assignPositions fuel h w (Some a) 0 0 ∅ = Some (set_all (placements t 0 0) ∅).
Proof.
  intros Hrep Hfuel.
  destruct (calculateWidths_spec t fuel h (Some a) ∅ Hrep Hfuel) as (w & Hw & Hok & Hcov).
  { intros b z. by rewrite lookup_empty. }
  exists w. split_and!; [done| |by apply assignPositions_spec; auto].
  destruct (Hcov a) as [z Hz].
  { left. inversion Hrep; subst. simpl. set_solver. }
  destruct (Hok a z Hz) as (t' & Ht' & ->).
  rewrite Hz. by rewrite (repr_inj _ _ _ _ Ht' Hrep).
Qed.

(** *** Largest coordinates *)

Lemma Math_max_spec x xs :
  Math_max x xs ∈ x :: xs /\ Forall (fun y => (y <= Math_max x xs)%Z) (x :: xs).
Proof.
  unfold Math_max. revert x. induction xs as [|z xs IH]; intros x; simpl.
  - split; [by left|]. by repeat constructor.
  - destruct (IH (x `max` z)%Z) as [Hin Hall].
    apply Forall_cons in Hall as [Hm Hall]. split.
    + apply elem_of_cons in Hin as [Hin|Hin]; [|by do 2 right].
      rewrite Hin. destruct (Z.max_spec x z) as [[_ ->]|[_ ->]]; [right; left|left]; done.
    + repeat (apply Forall_cons; split); [lia|lia|done].
Qed.

Lemma Math_max_eq x xs m :
  m ∈ x :: xs -> (forall y, y ∈ x :: xs -> (y <= m)%Z) -> Math_max x xs = m.
Proof.
  intros Hin Hle. destruct (Math_max_spec x xs) as [Hmax Hall].
  rewrite Forall_forall in Hall. apply Z.le_antisymm; auto.
Qed.

Lemma placements_x_le t : forall d lb v pos,
  (v, pos) ∈ placements t d lb ->
  (CONFIG.PADDING + lb * CONFIG.HORIZONTAL_SPACING <= Position.x pos
   <= CONFIG.PADDING + (lb + width t - 1) * CONFIG.HORIZONTAL_SPACING)%Z.
Proof.
  unfold CONFIG.PADDING, CONFIG.HORIZONTAL_SPACING.
  induction t as [|l IHl a x r IHr]; intros d lb v pos; simpl; [by intros ?%elem_of_nil|].
  pose proof (width_nonneg l). pose proof (width_nonneg r).
  rewrite elem_of_cons, elem_of_app. intros [[= -> ->]|[Hin|Hin]].
  - simpl. unfold CONFIG.PADDING, CONFIG.HORIZONTAL_SPACING. lia.
  - apply IHl in Hin. lia.
  - apply IHr in Hin. lia.
Qed.

Lemma placements_y_le t : forall d lb v pos,
  (v, pos) ∈ placements t d lb ->
  (CONFIG.PADDING + d * CONFIG.VERTICAL_SPACING <= Position.y pos
   <= CONFIG.PADDING + (d + Z.of_nat (height t) - 1) * CONFIG.VERTICAL_SPACING)%Z.
Proof.
  unfold CONFIG.PADDING, CONFIG.VERTICAL_SPACING.
  induction t as [|l IHl a x r IHr]; intros d lb v pos; [by intros ?%elem_of_nil|].
  cbn [placements height].
  rewrite elem_of_cons, elem_of_app. intros [[= -> ->]|[Hin|Hin]].
  - simpl. unfold CONFIG.PADDING, CONFIG.VERTICAL_SPACING. lia.
  - apply IHl in Hin. lia.
  - apply IHr in Hin. lia.
Qed.

Lemma placements_x_max t : forall d lb,
  is_node t = true ->
  exists v pos, (v, pos) ∈ placements t d lb /\
    Position.x pos = (CONFIG.PADDING + (lb + width t - 1) * CONFIG.HORIZONTAL_SPACING)%Z.
Proof.
  intros d lb Hn.
  assert (is_Some (values t !! (size t - 1))) as [v Hv].
  { apply lookup_lt_is_Some. rewrite size_values. destruct t; simpl in *; [done|lia]. }
  destruct (placements_rank t d lb _ v Hv) as (pos & Hin & Hx & _).
  exists v, pos. split; [done|]. rewrite Hx, width_size.
  destruct t; simpl in *; [done|]. do 2 f_equal. lia.
Qed.

Lemma placements_y_max t : forall d lb,
  is_node t = true ->
  exists v pos, (v, pos) ∈ placements t d lb /\
    Position.y pos
    = (CONFIG.PADDING + (d + Z.of_nat (height t) - 1) * CONFIG.VERTICAL_SPACING)%Z.
Proof.
  induction t as [|l IHl a x r IHr]; intros d lb; [done|]. intros _.
  cbn [placements height].
  destruct (decide (height l <= height r)) as [Hle|Hgt].
  - destruct r as [|rl ra rx rr].
    + assert (height l = 0) as Hl by (simpl in Hle; lia).
      eexists _, _. split; [by left|]. simpl. rewrite Hl. simpl. do 2 f_equal. lia.
    + destruct (IHr (d + 1)%Z (lb + width l + 1)%Z eq_refl) as (v & pos & Hin & Hy).
      exists v, pos. split; [set_solver|]. rewrite Hy. do 2 f_equal. lia.
  - destruct l as [|ll la lx lr]; [simpl in Hgt; lia|].
    destruct (IHl (d + 1)%Z lb eq_refl) as (v & pos & Hin & Hy).
    exists v, pos. split; [set_solver|]. rewrite Hy. do 2 f_equal. lia.
Qed.

Lemma elem_of_map_values (m : gmap Z Position.t) pos :
  pos ∈ (map_to_list m).*2 <-> exists v, m !! v = Some pos.
Proof.
  rewrite list_elem_of_fmap. split.
  - intros ([v p] & -> & Hin). exists v. by apply elem_of_map_to_list.
  - intros (v & Hv). exists (v, pos). split; [done|]. by apply elem_of_map_to_list.
Qed.

(** *** [cloneTree] *)

Lemma cloneTree_spec t : forall fuel rt h p,
  repr h p t ->
  height t <= fuel ->
  exists c k t',
    cloneTree fuel p (mkBST rt h) = Some (c, mkBST rt (h ++ k)) /\
    repr (h ++ k) c t' /\
    unlabel t' = unlabel t /\
    Forall (fun b => length h <= b) (refs t') /\
    NoDup (refs t') /\
    length k = size t.
Proof.
  induction t as [|l IHl a x r IHr]; intros fuel rt h p Hrep Hfuel.
  - apply repr_Leaf in Hrep as ->. exists None, [], Leaf.
    split_and!; [destruct fuel; cbn; unfold ret; by rewrite app_nil_r|constructor|done
                |constructor|constructor|done].
  - apply repr_Node in Hrep as (n & -> & Ha & <- & Hl & Hr).
    destruct fuel as [|fuel]; simpl in Hfuel; [lia|].
    destruct (IHl fuel rt h (left n)) as (cl & k1 & tl & El & Hrl & Hul & Hgl & Hndl & Hk1);
      [done|lia|].
    destruct (IHr fuel rt (h ++ k1) (right n))
      as (cr & k2 & tr & Er & Hrr & Hur & Hgr & Hndr & Hk2);
      [by apply repr_app|lia|].
    set (c := length ((h ++ k1) ++ k2)).
    exists (Some c), (k1 ++ k2 ++ [mkBSTNode (value n) cl cr]), (Node tl c (value n) tr).
    split_and!.
    + cbn [cloneTree]. unfold bind at 1, load. cbn [heap]. rewrite Ha.
      unfold bind at 1. rewrite El. unfold bind at 1. rewrite Er.
      unfold bind, newObject, ret. cbn [heap root]. subst c.
      by rewrite <- !app_assoc.
    + rewrite !app_assoc. eapply repr_node'.
      * apply list_lookup_middle. done.
      * by apply repr_app, repr_app.
      * by apply repr_app.
    + simpl. by rewrite Hul, Hur.
    + simpl. apply Forall_app. split; [done|]. apply Forall_cons. split.
      * subst c. rewrite !length_app. lia.
      * eapply Forall_impl; [exact Hgr|]. intros b. rewrite length_app. lia.
    + simpl. apply NoDup_app. split_and!; [done| |].
      * intros b Hb. pose proof (repr_refs_lt _ _ _ _ Hrl Hb) as Hlt.
        rewrite Forall_forall in Hgr. intros [->|Hb']%elem_of_cons.
        -- subst c. rewrite length_app in Hlt. lia.
        -- apply Hgr in Hb'. lia.
      * apply NoDup_cons. split; [|done].
        intros Hc%(repr_refs_lt _ _ _ _ Hrr). lia.
    + rewrite !length_app. simpl. lia.
Qed.

Lemma values_unlabel t : values (unlabel t) = values t.
Proof. induction t as [|l IHl a x r IHr]; simpl; [done|]. by rewrite IHl, IHr. Qed.

Lemma width_unlabel t : width (unlabel t) = width t.
Proof. induction t as [|l IHl a x r IHr]; simpl; [done|]. by rewrite IHl, IHr. Qed.

Lemma height_unlabel t : height (unlabel t) = height t.
Proof. induction t as [|l IHl a x r IHr]; simpl; [done|]. by rewrite IHl, IHr. Qed.

Lemma placements_unlabel t : forall d lb,
  prod_map id coordinates <$> placements (unlabel t) d lb
  = prod_map id coordinates <$> placements t d lb.
Proof.
  induction t as [|l IHl a x r IHr]; intros d lb; simpl; [done|].
  by rewrite !fmap_app, IHl, IHr, !width_unlabel.
Qed.

(** The coordinates [computePositions] gives a value depend on values and
    shape alone. *)
Lemma layout_coordinates t t' v :
  NoDup (values t) ->
  unlabel t' = unlabel t ->
  coordinates <$> set_all (placements t' 0 0) ∅ !! v
  = coordinates <$> set_all (placements t 0 0) ∅ !! v.
Proof.
  intros Hnd Hu.
  assert (Hnd' : NoDup (values t')) by (by rewrite <- values_unlabel, Hu, values_unlabel).
  assert (Hpl : prod_map id coordinates <$> placements t' 0 0
                = prod_map id coordinates <$> placements t 0 0).
  { by rewrite <- placements_unlabel, Hu, placements_unlabel. }
  assert (Hone : forall t0, NoDup (values t0) -> forall xy,
            coordinates <$> set_all (placements t0 0 0) ∅ !! v = Some xy <->
            (v, xy) ∈ prod_map id coordinates <$> placements t0 0 0).
  { intros t0 Hnd0 xy. rewrite fmap_Some, list_elem_of_fmap. split.
    - intros (pos & Hpos & ->). exists (v, pos). split; [done|]. by apply layout_lookup.
    - intros ([v' pos] & [= -> ->] & Hin). exists pos. split; [|done]. by apply layout_lookup. }
  apply option_eq. intros xy. by rewrite !Hone, Hpl.
Qed.

(** *** Traces depend on values and shape alone *)

Lemma unlabel_insert_tree n v t : unlabel (insert_tree n v t) = insert_tree 0 v (unlabel t).
Proof.
  induction t as [|l IHl a x r IHr]; simpl; [done|].
  destruct (v <? x)%Z; [|destruct (v >? x)%Z]; simpl; by rewrite ?IHl, ?IHr.
Qed.

Lemma insert_steps_unlabel v t : insert_steps v (unlabel t) = insert_steps v t.
Proof.
  induction t as [|l IHl a x r IHr]; simpl; [done|].
  rewrite IHl, IHr. by destruct l, r.
Qed.

Lemma search_steps_unlabel v t : search_steps v (unlabel t) = search_steps v t.
Proof. induction t as [|l IHl a x r IHr]; simpl; [done|]. by rewrite IHl, IHr. Qed.

Lemma is_node_unlabel t : is_node (unlabel t) = is_node t.
Proof. by destruct t. Qed.

Lemma inorder_steps_unlabel t : inorder_steps (unlabel t) = inorder_steps t.
Proof.
  induction t as [|l IHl a x r IHr]; simpl; [done|].
  unfold descend. by rewrite IHl, IHr, !is_node_unlabel.
Qed.

Lemma preorder_steps_unlabel t : preorder_steps (unlabel t) = preorder_steps t.
Proof.
  induction t as [|l IHl a x r IHr]; simpl; [done|].
  unfold descend. by rewrite IHl, IHr, !is_node_unlabel.
Qed.

Lemma postorder_steps_unlabel t : postorder_steps (unlabel t) = postorder_steps t.
Proof.
  induction t as [|l IHl a x r IHr]; simpl; [done|].
  unfold descend. by rewrite IHl, IHr, !is_node_unlabel.
Qed.

Lemma insert_trace_unlabel v t : insert_trace v (unlabel t) = insert_trace v t.
Proof. destruct t; [done|]. apply (insert_steps_unlabel v (Node _ _ _ _)). Qed.

Lemma insertAll_shape vs : forall fuel s t,
  represents s t ->
  size t + length vs <= fuel ->
  exists s' t',
    insertAll fuel vs s = Some (tt, s') /\
    represents s' t' /\
    unlabel t' = built_shape vs (unlabel t) /\
    size t' <= size t + length vs.
Proof.
  induction vs as [|v vs IH]; intros fuel s t Hrep Hfuel.
  - exists s, t. split_and!; [done..|simpl; lia].
  - simpl in Hfuel. pose proof (height_le_size t).
    destruct (insert_spec fuel v s t) as (s1 & Hrun & Hrep1 & _); [done|lia|].
    pose proof (size_insert_tree_le (length (heap s)) v t).
    destruct (IH fuel s1 _ Hrep1) as (s' & t' & Hrun' & Hrep' & Hshape & Hsz); [lia|].
    exists s', t'. cbn [insertAll]. unfold bind. rewrite Hrun.
    split_and!; [done..| |simpl; lia].
    rewrite Hshape, unlabel_insert_tree. done.
Qed.

(** * The animator *)

Module AnimatorFacts.
Import BSTAnimator.

(** Callbacks and highlighting only add to the calls made. *)
Lemma notifyStatus_eq a : _notifyStatus a = set_log (log a ++ status_calls a) a.
Proof.
  destruct a as [st i pl sp tid c1 c2 c3 tm nt lg].
  unfold _notifyStatus, status_calls, set_log, emit. simpl.
  destruct c3; simpl; by rewrite ?app_nil_r.
Qed.

Lemma highlightStep_eq step b a :
  _highlightStep step b a = set_log (log a ++ step_calls step b a) a.
Proof.
  destruct a as [st i pl sp tid c1 c2 c3 tm nt lg].
  unfold _highlightStep, step_calls, drawing, set_log, emit. simpl.
  destruct b, (node step), (action step), c1; simpl; by rewrite <- ?app_assoc, ?app_nil_r.
Qed.

Lemma highlights_app l1 l2 : highlights (l1 ++ l2) = highlights l1 ++ highlights l2.
Proof. apply omap_app. Qed.

Lemma completions_app l1 l2 : completions (l1 ++ l2) = completions l1 + completions l2.
Proof. unfold completions. by rewrite omap_app, length_app. Qed.

Lemma on_screen_app l1 l2 : on_screen (l1 ++ l2) = foldl screen_after (on_screen l1) l2.
Proof. apply foldl_app. Qed.

Lemma status_calls_facts a :
  highlights (status_calls a) = [] /\ completions (status_calls a) = 0 /\
  forall shown, foldl screen_after shown (status_calls a) = shown.
Proof. unfold status_calls. by destruct (onStatusChange a). Qed.

Lemma step_calls_facts step b a :
  highlights (step_calls step b a) = highlights_of [step] /\
  completions (step_calls step b a) = 0 /\
  forall shown, foldl screen_after shown (step_calls step b a)
                = (if b then [] else shown) ++ drawing step.
Proof.
  unfold step_calls, drawing, highlights_of. simpl.
  destruct b, (node step), (action step), (onStepChange a); simpl;
    split_and!; try done; intros shown; by rewrite ?app_nil_r, <- ?app_assoc.
Qed.

(** The loop of [stepBackward] reads only steps below its bound. *)
Lemma replay_spec n : forall i a,
  i + n <= length (steps a) ->
  exists l,
    replay i n a = Some (set_log (log a ++ l) a) /\
    completions l = 0 /\
    forall shown, exists drawn, foldl screen_after shown l = shown ++ drawn.
Proof.
  induction n as [|n IH]; intros i a Hle.
  - exists []. split_and!; [|done|].
    + simpl. destruct a. unfold set_log. simpl. by rewrite app_nil_r.
    + intros shown. exists []. by rewrite app_nil_r.
  - destruct (lookup_lt_is_Some_2 (steps a) i) as [step Hstep]; [lia|].
    cbn [replay]. rewrite Hstep. cbn [mbind option_bind].
    rewrite highlightStep_eq.
    destruct (IH (S i) (set_log (log a ++ step_calls step false a) a)) as (l & Hrun & Hc & Hs).
    { simpl. lia. }
    exists (step_calls step false a ++ l). split_and!.
    + rewrite Hrun. unfold set_log. simpl. by rewrite <- app_assoc.
    + rewrite completions_app, Hc. by destruct (step_calls_facts step false a) as (_ & -> & _).
    + intros shown. rewrite foldl_app.
      destruct (step_calls_facts step false a) as (_ & _ & ->).
      destruct (Hs (shown ++ drawing step)) as [drawn ->].
      exists (drawing step ++ drawn). by rewrite <- app_assoc.
Qed.

Lemma executeStep_done a :
  isPlaying a = false \/ length (steps a) <= currentIndex a ->
  _executeStep a
  = Some (set_log (log a ++ status_calls (set_isPlaying false a)
                         ++ if onComplete a then [ev_onComplete] else [])
                  (set_isPlaying false a)).
Proof.
  intros H. unfold _executeStep.
  assert (negb (isPlaying a) || (length (steps a) <=? currentIndex a) = true) as ->.
  { destruct H as [->|H]; [done|]. apply orb_true_iff. right. by apply Nat.leb_le. }
  rewrite notifyStatus_eq. destruct a as [st i pl sp tid c1 c2 c3 tm nt lg].
  unfold set_log, set_isPlaying, emit. simpl. destruct c2; simpl; by rewrite <- ?app_assoc, ?app_nil_r.
Qed.

Lemma executeStep_next a step :
  isPlaying a = true ->
  steps a !! currentIndex a = Some step ->
  _executeStep a
  = Some (mk (steps a) (S (currentIndex a)) true (speed a) (Some (nextTimer a))
             (onStepChange a) (onComplete a) (onStatusChange a)
             (timers a ++ [nextTimer a]) (S (nextTimer a))
             (log a ++ step_calls step true a
                    ++ status_calls (set_currentIndex (S (currentIndex a)) a))).
Proof.
  intros Hp Hstep. unfold _executeStep. rewrite Hp.
  pose proof (lookup_lt_Some _ _ _ Hstep) as Hlt.
  assert ((length (steps a) <=? currentIndex a) = false) as -> by (apply Nat.leb_gt; lia).
  rewrite Hstep. cbn [negb orb mbind option_bind].
  rewrite highlightStep_eq, notifyStatus_eq.
  destruct a as [st i pl sp tid c1 c2 c3 tm nt lg]. simpl in *. subst pl.
  unfold setTimeout, set_timeoutId, set_nextTimer, set_timers, set_log, set_currentIndex,
    status_calls, step_calls. simpl. by rewrite <- !app_assoc.
Qed.

Lemma stepForward_next a step :
  steps a !! currentIndex a = Some step ->
  stepForward a
  = Some (set_log (log a ++ step_calls step true a
                         ++ status_calls (set_currentIndex (S (currentIndex a)) a)
                         ++ if (length (steps a) <=? S (currentIndex a)) && onComplete a
                            then [ev_onComplete] else [])
                  (set_currentIndex (S (currentIndex a)) a)).
Proof.
  intros Hstep. unfold stepForward.
  pose proof (lookup_lt_Some _ _ _ Hstep) as Hlt.
  assert ((currentIndex a <? length (steps a)) = true) as -> by (apply Nat.ltb_lt; lia).
  rewrite Hstep. cbn [mbind option_bind].
  rewrite highlightStep_eq, notifyStatus_eq.
  destruct a as [st i pl sp tid c1 c2 c3 tm nt lg]. simpl in *.
  unfold set_log, set_currentIndex, status_calls, step_calls, emit. simpl.
  destruct (length st <=? S i), c2; simpl; by rewrite <- ?app_assoc, ?app_nil_r.
Qed.

Lemma stepForward_end a : length (steps a) <= currentIndex a -> stepForward a = Some a.
Proof.
  intros H. unfold stepForward.
  by assert ((currentIndex a <? length (steps a)) = false) as -> by (apply Nat.ltb_ge; lia).
Qed.

Lemma stepBackward_start a : currentIndex a = 0 -> stepBackward a = Some a.
Proof. intros H. unfold stepBackward. by rewrite H. Qed.

Lemma stepBackward_spec a i :
  currentIndex a = S i ->
  S i <= length (steps a) ->
  exists l,
    stepBackward a = Some (set_log (log a ++ l) (set_currentIndex i a)) /\
    completions l = 0 /\
    on_screen (log a ++ l) = match i with
                             | O => []
                             | S j => from_option drawing [] (steps a !! j)
                             end.
Proof.
  intros Hi Hle. unfold stepBackward. rewrite Hi. cbn [Nat.ltb Nat.leb].
  replace (S i - 1) with i by lia.
  set (a1 := emit ev_clearHighlights (set_currentIndex i a)).
  change (currentIndex a1) with i.
  destruct i as [|j].
  - cbn [replay mbind option_bind]. change (currentIndex a1) with 0.
    cbn [Nat.ltb Nat.leb].
    change (Some a1 ≫= _) with (Some (_notifyStatus a1)). rewrite notifyStatus_eq.
    destruct (status_calls_facts a1) as (_ & Hc & Hs).
    exists ([ev_clearHighlights] ++ status_calls a1). split_and!.
    + subst a1. unfold set_log, emit, set_currentIndex. simpl. by rewrite <- !app_assoc.
    + by rewrite completions_app, Hc.
    + by rewrite !on_screen_app, foldl_app, Hs.
  - destruct (replay_spec (S j) 0 a1) as (lr & Hrun & Hcr & Hsr).
    { subst a1. simpl. lia. }
    rewrite Hrun. cbn [mbind option_bind].
    set (a2 := set_log (log a1 ++ lr) a1).
    change (currentIndex a2) with (S j). change (steps a2) with (steps a).
    destruct (lookup_lt_is_Some_2 (steps a) j) as [step Hstep]; [lia|].
    replace (S j - 1) with j by lia.
    cbn [Nat.ltb Nat.leb]. rewrite Hstep. cbn [mbind option_bind from_option].
    rewrite highlightStep_eq.
    set (a3 := set_log (log a2 ++ step_calls step true a2) a2).
    rewrite notifyStatus_eq.
    destruct (step_calls_facts step true a2) as (_ & Hc2 & Hs2).
    destruct (status_calls_facts a3) as (_ & Hc3 & Hs3).
    exists ([ev_clearHighlights] ++ lr ++ step_calls step true a2 ++ status_calls a3).
    split_and!.
    + subst a3 a2 a1. unfold set_log, emit, set_currentIndex. simpl.
      by rewrite <- !app_assoc.
    + by rewrite !completions_app, Hcr, Hc2, Hc3.
    + by rewrite !on_screen_app, !foldl_app, Hs3, Hs2.
Qed.

End AnimatorFacts.

(** * Further properties of the code *)

(** X1. [insert v] and [search v], run on the same tree, walk the same path:
    both return with the same steps up to the last one, which alone tells
    them apart. *)
Theorem X1_insert_and_search_walk_the_same_path (s : BinarySearchTree) (t : tree)
    (v : Z) (fuel : nat) :
  represents s t ->
  height t <= fuel ->
  exists s' k a b,
    insert fuel v s = Some (k ++ [a], s') /\
    search fuel v s = Some (k ++ [b], s).
Proof.
  intros Hrep Hfuel.
  destruct (insert_spec fuel v s t Hrep Hfuel) as (s' & Hrun & _).
  rewrite Hrun, (search_spec fuel v s t Hrep Hfuel).
  destruct t as [|l c x r].
  - by exists s', [], (inserted_as_root v), (tree_is_empty v).
  - destruct (insert_search_same_path v (Node l c x r)) as (k & a & b & Ei & Es); [done|].
    exists s', k, a, b. unfold insert_trace. by rewrite Ei, Es.
Qed.

Lemma X1_witness :
  represents sample sample_tree /\ height sample_tree <= 3 /\
  exists s' k a b,
    insert 3 65 sample = Some (k ++ [a], s') /\
    search 3 65 sample = Some (k ++ [b], sample).
Proof.
  split; [apply sample_represents|].
  split; [simpl; lia|].
  apply (X1_insert_and_search_walk_the_same_path sample sample_tree 65 3).
  - apply sample_represents.
  - simpl; lia.
Defined.

(** X2. After [insert v], [search v] ends in a FOUND step for [v], and the
    search for any other value ends exactly as it did before the insert
    (same action, same node). *)
Theorem X2_insert_then_search (s : BinarySearchTree) (t : tree) (v : Z) (fuel : nat) :
  represents s t ->
  height t < fuel ->
  exists steps s',
    insert fuel v s = Some (steps, s') /\
    (exists found_steps st,
        search fuel v s' = Some (found_steps, s') /\
        last found_steps = Some st /\
        action st = FOUND /\ node st = Some v) /\
    (forall w, w <> v ->
        exists before after st1 st2,
          search fuel w s = Some (before, s) /\
          search fuel w s' = Some (after, s') /\
          last before = Some st1 /\ last after = Some st2 /\
          action st1 = action st2 /\ node st1 = node st2).
Proof.
  intros Hrep Hfuel.
  destruct (insert_spec fuel v s t Hrep) as (s' & Hrun & Hrep' & _); [lia|].
  pose proof (height_insert_tree (length (heap s)) v t) as Hh.
  exists (insert_trace v t), s'. split_and!; [done| |].
  - destruct (search_last fuel v s' _ Hrep') as (steps & st & Hs & Hl & Hst); [lia|].
    rewrite hit_insert_tree_same in Hst. by exists steps, st.
  - intros w Hne.
    destruct (search_last fuel w s t Hrep) as (st1s & st1 & Hs1 & Hl1 & Hst1); [lia|].
    destruct (search_last fuel w s' _ Hrep') as (st2s & st2 & Hs2 & Hl2 & Hst2); [lia|].
    rewrite hit_insert_tree_other in Hst2 by done.
    exists st1s, st2s, st1, st2. split_and!; [done..| |].
    + destruct (hit w t); destruct Hst1 as [-> _], Hst2 as [-> _]; done.
    + destruct (hit w t); destruct Hst1 as [_ ->], Hst2 as [_ ->]; done.
Qed.

Lemma X2_witness :
  represents sample sample_tree /\ height sample_tree < 4 /\
  exists steps s',
    insert 4 65 sample = Some (steps, s') /\
    (exists found_steps st,
        search 4 65 s' = Some (found_steps, s') /\
        last found_steps = Some st /\
        action st = FOUND /\ node st = Some 65%Z) /\
    (forall w, w <> 65%Z ->
        exists before after st1 st2,
          search 4 w sample = Some (before, sample) /\
          search 4 w s' = Some (after, s') /\
          last before = Some st1 /\ last after = Some st2 /\
          action st1 = action st2 /\ node st1 = node st2).
Proof.
  split; [apply sample_represents|].
  split; [simpl; lia|].
  apply (X2_insert_then_search sample sample_tree 65 4).
  - apply sample_represents.
  - simpl; lia.
Defined.

(** X3. The traces of [insert] and [search] are never empty and never longer
    than three steps per level of the tree plus one. *)
Theorem X3_trace_length_is_bounded_by_height (s : BinarySearchTree) (t : tree)
    (v : Z) (fuel : nat) :
  represents s t ->
  height t <= fuel ->
  exists si s' ss,
    insert fuel v s = Some (si, s') /\
    search fuel v s = Some (ss, s) /\
    1 <= length si <= 3 * height t + 1 /\
    1 <= length ss <= 3 * height t + 1.
Proof.
  intros Hrep Hfuel.
  destruct (insert_spec fuel v s t Hrep Hfuel) as (s' & Hrun & _).
  rewrite Hrun, (search_spec fuel v s t Hrep Hfuel).
  exists (insert_trace v t), s',
         (match t with Leaf => [tree_is_empty v] | Node _ _ _ _ => search_steps v t end).
  split; [done|]. split; [done|].
  destruct t as [|l a x r]; [simpl; lia|].
  split; [by apply length_insert_steps|apply length_search_steps].
Qed.

Lemma X3_witness :
  represents sample sample_tree /\ height sample_tree <= 3 /\
  exists si s' ss,
    insert 3 65 sample = Some (si, s') /\
    search 3 65 sample = Some (ss, sample) /\
    1 <= length si <= 3 * height sample_tree + 1 /\
    1 <= length ss <= 3 * height sample_tree + 1.
Proof.
  split; [apply sample_represents|].
  split; [simpl; lia|].
  apply (X3_trace_length_is_bounded_by_height sample sample_tree 65 3).
  - apply sample_represents.
  - simpl; lia.
Defined.

(** X4. Every step names a node that is there to be highlighted: each step of
    [insert] carries a value the tree holds once the insert is done, each step
    of [search] carries a value the tree holds or, for the NOT_FOUND step
    only, null, and each step of the three traversals carries a value the tree
    holds. *)
Theorem X4_steps_name_nodes_of_the_tree (s : BinarySearchTree) (t : tree)
    (v : Z) (fuel : nat) :
  represents s t ->
  height t <= fuel ->
  (exists steps s',
      insert fuel v s = Some (steps, s') /\
      Forall (fun st => exists x, node st = Some x /\ holds s' x) steps) /\
  (exists steps,
      search fuel v s = Some (steps, s) /\
      Forall (fun st => match node st with
                        | Some x => holds s x
                        | None => action st = NOT_FOUND
                        end) steps) /\
  (exists ino pre post,
      inorderTraversal fuel s = Some (ino, s) /\
      preorderTraversal fuel s = Some (pre, s) /\
      postorderTraversal fuel s = Some (post, s) /\
      Forall (fun st => exists x, node st = Some x /\ holds s x)
             (ino ++ pre ++ post)).
Proof.
  intros Hrep Hfuel. split_and!.
  - destruct (insert_spec fuel v s t Hrep Hfuel) as (s' & Hrun & Hrep' & _).
    exists (insert_trace v t), s'. split; [done|].
    destruct t as [|l a x r].
    + apply Forall_cons; split; [|constructor]. exists v. split; [done|].
      apply (holds_values _ _ _ Hrep'). simpl. set_solver.
    + eapply Forall_impl; [apply (insert_steps_nodes (length (heap s)))|].
      intros st (y & ? & ?). exists y. split; [done|]. by apply (holds_values _ _ _ Hrep').
  - eexists. split; [by apply search_spec|].
    destruct t as [|l a x r]; [by repeat constructor|].
    eapply Forall_impl; [apply search_steps_nodes|].
    intros st. simpl. destruct (node st); [|done].
    intros Hz. by apply (holds_values _ _ _ Hrep).
  - exists (inorder_steps t), (preorder_steps t), (postorder_steps t).
    split_and!; [by apply inorderTraversal_spec|by apply preorderTraversal_spec
                |by apply postorderTraversal_spec|].
    rewrite preorder_inorder_perm, postorder_inorder_perm, !Forall_app.
    assert (Forall (fun st => exists x, node st = Some x /\ holds s x) (inorder_steps t)).
    { eapply Forall_impl; [apply inorder_steps_nodes|].
      intros st (y & ? & ?). exists y. split; [done|]. by apply (holds_values _ _ _ Hrep). }
    done.
Qed.

Lemma X4_witness :
  represents sample sample_tree /\ height sample_tree <= 3 /\
  (exists steps s',
      insert 3 65 sample = Some (steps, s') /\
      Forall (fun st => exists x, node st = Some x /\ holds s' x) steps) /\
  (exists steps,
      search 3 65 sample = Some (steps, sample) /\
      Forall (fun st => match node st with
                        | Some x => holds sample x
                        | None => action st = NOT_FOUND
                        end) steps) /\
  (exists ino pre post,
      inorderTraversal 3 sample = Some (ino, sample) /\
      preorderTraversal 3 sample = Some (pre, sample) /\
      postorderTraversal 3 sample = Some (post, sample) /\
      Forall (fun st => exists x, node st = Some x /\ holds sample x)
             (ino ++ pre ++ post)).
Proof.
  split; [apply sample_represents|].
  split; [simpl; lia|].
  apply (X4_steps_name_nodes_of_the_tree sample sample_tree 65 3).
  - apply sample_represents.
  - simpl; lia.
Defined.

(** X5. [getTreeStructure] leaves the tree as it is and lists one node record
    per node, in the order in which [preorderTraversal] visits them, and one
    edge record per node other than the root, in the same order: the edge
    leads to that node, from the node whose id is half of its id (rounded
    down), and its direction is the node's position.  (Ids are exact for
    trees up to height 53.) *)
Theorem X5_tree_structure_lists_nodes_in_preorder (s : BinarySearchTree) (t : tree)
    (fuel : nat) :
  represents s t ->
  height t <= fuel ->
  height t <= 53 ->
  exists nodes edges pre,
    getTreeStructure fuel s = Some ((nodes, edges), s) /\
    preorderTraversal fuel s = Some (pre, s) /\
    StructNode.value <$> nodes = visited_values pre /\
    length nodes = size t /\
    length edges = size t - 1 /\
    edges = edge_to <$> tail nodes.
Proof.
  intros Hrep Hfuel _.
  exists (structure_nodes t side_root 1), (structure_edges t None side_root 1),
         (preorder_steps t).
  split_and!.
  - by apply getTreeStructure_spec.
  - by apply preorderTraversal_spec.
  - by rewrite structure_nodes_values, visited_values_preorder.
  - apply length_structure_nodes.
  - rewrite structure_edges_root, length_fmap.
    pose proof (length_structure_nodes t side_root 1) as Hlen.
    destruct (structure_nodes t side_root 1); simpl in *; lia.
  - apply structure_edges_root.
Qed.

Lemma X5_witness :
  represents sample sample_tree /\ height sample_tree <= 3 /\ height sample_tree <= 53 /\
  exists nodes edges pre,
    getTreeStructure 3 sample = Some ((nodes, edges), sample) /\
    preorderTraversal 3 sample = Some (pre, sample) /\
    StructNode.value <$> nodes = visited_values pre /\
    length nodes = size sample_tree /\
    length edges = size sample_tree - 1 /\
    edges = edge_to <$> tail nodes.
Proof.
  split; [apply sample_represents|].
  split; [simpl; lia|].
  split; [simpl; lia|].
  apply (X5_tree_structure_lists_nodes_in_preorder sample sample_tree 3).
  - apply sample_represents.
  - simpl; lia.
  - simpl; lia.
Defined.

(** X6. The ids [getTreeStructure] hands out identify the nodes: on a tree
    of height at most 53 they are pairwise distinct, at least 1 and below
    2^height; the first record is the root, with id 1 and position 'root';
    every other record has position 'left' when its id is even and 'right'
    when it is odd. *)
Theorem X6_tree_structure_ids_are_distinct (s : BinarySearchTree) (t : tree)
    (fuel : nat) :
  represents s t ->
  height t <= fuel ->
  height t <= 53 ->
  exists nodes edges,
    getTreeStructure fuel s = Some ((nodes, edges), s) /\
    NoDup (StructNode.id <$> nodes) /\
    Forall (fun nd => (1 <= StructNode.id nd < 2 ^ Z.of_nat (height t))%Z) nodes /\
    (forall nd, head nodes = Some nd ->
                StructNode.id nd = 1%Z /\ StructNode.position nd = side_root) /\
    Forall (fun nd => StructNode.position nd
                      = if Z.even (StructNode.id nd) then side_left else side_right)
           (tail nodes).
Proof.
  intros Hrep Hfuel _.
  exists (structure_nodes t side_root 1), (structure_edges t None side_root 1).
  split_and!.
  - by apply getTreeStructure_spec.
  - by apply structure_nodes_ids_NoDup.
  - eapply Forall_impl; [apply (structure_nodes_bound t side_root 1); lia|].
    intros nd [? ?]. simpl in *. lia.
  - destruct t; simpl; [done|]. by intros nd [= <-].
  - destruct t as [|l a x r]; simpl; [constructor|].
    apply Forall_app. split; by apply structure_nodes_parity.
Qed.

Lemma X6_witness :
  represents sample sample_tree /\ height sample_tree <= 3 /\ height sample_tree <= 53 /\
  exists nodes edges,
    getTreeStructure 3 sample = Some ((nodes, edges), sample) /\
    NoDup (StructNode.id <$> nodes) /\
    Forall (fun nd => (1 <= StructNode.id nd < 2 ^ Z.of_nat (height sample_tree))%Z) nodes /\
    (forall nd, head nodes = Some nd ->
                StructNode.id nd = 1%Z /\ StructNode.position nd = side_root) /\
    Forall (fun nd => StructNode.position nd
                      = if Z.even (StructNode.id nd) then side_left else side_right)
           (tail nodes).
Proof.
  split; [apply sample_represents|].
  split; [simpl; lia|].
  split; [simpl; lia|].
  apply (X6_tree_structure_ids_are_distinct sample sample_tree 3).
  - apply sample_represents.
  - simpl; lia.
  - simpl; lia.
Defined.

(** X7. On the positions [computePositions] has just computed for a tree with
    distinct values, [collectEdges] returns one edge per child link, and every
    edge can be drawn: both of its ends have a position (the renderer reads
    their [x] and [y]), the child end lies exactly one row below the parent
    end, to its left for a 'left' edge and to its right for a 'right' one. *)
Theorem X7_collected_edges_are_well_placed (h : list BSTNode) (p : option ref)
    (t : tree) (fuel : nat) :
  repr h p t ->
  NoDup (values t) ->
  height t <= fuel ->
  exists positions edges,
    computePositions fuel h p = Some positions /\
    collectEdges fuel h p positions = Some edges /\
    length edges = size t - 1 /\
    Forall well_placed edges.
Proof.
  intros Hrep Hnd Hfuel.
  exists (set_all (placements t 0 0) ∅), (edge_list (set_all (placements t 0 0) ∅) t).
  split_and!.
  - by apply computePositions_spec.
  - unfold collectEdges. by erewrite traverse_spec.
  - apply length_edge_list.
  - apply (edge_list_well_placed _ t 0 0). intros v pos. by apply layout_lookup.
Qed.

Lemma X7_witness :
  repr (heap sample) (root sample) sample_tree /\
  NoDup (values sample_tree) /\
  height sample_tree <= 3 /\
  exists positions edges,
    computePositions 3 (heap sample) (root sample) = Some positions /\
    collectEdges 3 (heap sample) (root sample) positions = Some edges /\
    length edges = size sample_tree - 1 /\
    Forall well_placed edges.
Proof.
  split; [apply sample_represents|].
  split; [apply sorted_NoDup, bst_sorted, sample_bst|].
  split; [simpl; lia|].
  apply (X7_collected_edges_are_well_placed (heap sample) (root sample) sample_tree 3).
  - apply sample_represents.
  - apply sorted_NoDup, bst_sorted, sample_bst.
  - simpl; lia.
Defined.

(** X8. The renderer's own [computePositions] forgets whatever positions it
    held from an earlier tree: its map afterwards, and the positions it
    returns, are exactly those the React [computePositions] computes for the
    same tree, and the width it returns is the number of nodes.  With no tree
    it returns width 0 and leaves its map empty. *)
Theorem X8_renderer_positions_are_recomputed_from_scratch (h : list BSTNode)
    (p : option ref) (t : tree) (fuel : nat) (stale : gmap Z Position.t) :
  repr h p t ->
  height t <= fuel ->
  exists positions,
    computePositions fuel h p = Some positions /\
    BSTRenderer_computePositions fuel h p stale
    = Some (Computed.mk (Z.of_nat (size t))
                        (match p with Some _ => Some positions | None => None end),
            positions).
Proof.
  intros Hrep Hfuel.
  exists (set_all (placements t 0 0) ∅). split; [by apply computePositions_spec|].
  unfold BSTRenderer_computePositions. destruct p as [a|].
  - destruct (calculateWidths_root fuel h a t Hrep Hfuel) as (w & -> & Ha & Hassign).
    cbn [mbind option_bind]. rewrite Hassign. cbn [mbind option_bind]. rewrite Ha.
    rewrite width_size.
    assert ((Z.of_nat (size t) =? 0)%Z = false) as ->; [|done].
    apply Z.eqb_neq. inversion Hrep; subst. simpl. lia.
  - by inversion Hrep.
Qed.

Lemma X8_witness :
  repr (heap sample) (root sample) sample_tree /\ height sample_tree <= 3 /\
  exists positions,
    computePositions 3 (heap sample) (root sample) = Some positions /\
    BSTRenderer_computePositions 3 (heap sample) (root sample)
                                 {[ 99%Z := Position.mk 50 50 0 ]}
    = Some (Computed.mk (Z.of_nat (size sample_tree))
                        (match root sample with Some _ => Some positions | None => None end),
            positions).
Proof.
  split; [apply sample_represents|].
  split; [simpl; lia|].
  apply (X8_renderer_positions_are_recomputed_from_scratch
           (heap sample) (root sample) sample_tree 3).
  - apply sample_represents.
  - simpl; lia.
Defined.

(** X9. The drawing is sized to the tree: for a tree of [N >= 1] nodes (with
    distinct values) and height [H], laid out by [computePositions], the SVG
    is [60 N + 115] wide and [80 H + 95] high, and every node circle (radius
    [NODE_RADIUS] around its position) lies inside it; with no positions it
    is 400 by 300. *)
Theorem X9_drawing_contains_every_node (h : list BSTNode) (p : option ref)
    (t : tree) (fuel : nat) :
  repr h p t ->
  NoDup (values t) ->
  height t <= fuel ->
  exists positions,
    computePositions fuel h p = Some positions /\
    svgWidth positions
      = (match p with Some _ => 60 * Z.of_nat (size t) + 115 | None => 400 end)%Z /\
    svgHeight positions
      = (match p with Some _ => 80 * Z.of_nat (height t) + 95 | None => 300 end)%Z /\
    (forall v pos, positions !! v = Some pos ->
       (0 <= Position.x pos - CONFIG.NODE_RADIUS /\
        Position.x pos + CONFIG.NODE_RADIUS <= svgWidth positions /\
        0 <= Position.y pos - CONFIG.NODE_RADIUS /\
        Position.y pos + CONFIG.NODE_RADIUS <= svgHeight positions)%Z).
Proof.
  intros Hrep Hnd Hfuel.
  set (positions := set_all (placements t 0 0) ∅).
  assert (Hlook : forall v pos, positions !! v = Some pos <-> (v, pos) ∈ placements t 0 0).
  { intros v pos. by apply layout_lookup. }
  assert (Hw : svgWidth positions = (match p with Some _ => 60 * Z.of_nat (size t) + 115 | None => 400 end)%Z).
  { unfold svgWidth. destruct Hrep as [|a n l r Ha Hl Hr].
    - subst positions. simpl. by rewrite map_to_list_empty.
    - set (t := Node l a (value n) r) in *.
      destruct (placements_x_max t 0 0 eq_refl) as (v & pos & Hin & Hx).
      assert (Hpos : pos ∈ (map_to_list positions).*2).
      { apply elem_of_map_values. exists v. by apply Hlook. }
      destruct ((map_to_list positions).*2) as [|q qs] eqn:E; [by apply elem_of_nil in Hpos|].
      rewrite (Math_max_eq _ _ (Position.x pos)).
      + rewrite Hx, width_size. unfold CONFIG.PADDING, CONFIG.HORIZONTAL_SPACING, CONFIG.NODE_RADIUS. lia.
      + change (Position.x q :: (Position.x <$> qs)) with (Position.x <$> (q :: qs)).
        apply list_elem_of_fmap. by exists pos.
      + change (Position.x q :: (Position.x <$> qs)) with (Position.x <$> (q :: qs)).
        intros y (q' & -> & Hq')%list_elem_of_fmap.
        rewrite <- E in Hq'. apply elem_of_map_values in Hq' as (v' & Hv').
        apply Hlook, placements_x_le in Hv'. lia. }
  assert (Hh : svgHeight positions = (match p with Some _ => 80 * Z.of_nat (height t) + 95 | None => 300 end)%Z).
  { unfold svgHeight. destruct Hrep as [|a n l r Ha Hl Hr].
    - subst positions. simpl. by rewrite map_to_list_empty.
    - set (t := Node l a (value n) r) in *.
      destruct (placements_y_max t 0 0 eq_refl) as (v & pos & Hin & Hy).
      assert (Hpos : pos ∈ (map_to_list positions).*2).
      { apply elem_of_map_values. exists v. by apply Hlook. }
      destruct ((map_to_list positions).*2) as [|q qs] eqn:E; [by apply elem_of_nil in Hpos|].
      rewrite (Math_max_eq _ _ (Position.y pos)).
      + rewrite Hy. unfold CONFIG.PADDING, CONFIG.VERTICAL_SPACING, CONFIG.NODE_RADIUS. lia.
      + change (Position.y q :: (Position.y <$> qs)) with (Position.y <$> (q :: qs)).
        apply list_elem_of_fmap. by exists pos.
      + change (Position.y q :: (Position.y <$> qs)) with (Position.y <$> (q :: qs)).
        intros y (q' & -> & Hq')%list_elem_of_fmap.
        rewrite <- E in Hq'. apply elem_of_map_values in Hq' as (v' & Hv').
        apply Hlook, placements_y_le in Hv'. lia. }
  exists positions. split_and!; [by apply computePositions_spec|done..|].
  intros v pos Hv. rewrite Hw, Hh. apply Hlook in Hv.
  pose proof (placements_x_le _ _ _ _ _ Hv) as Hx.
  pose proof (placements_y_le _ _ _ _ _ Hv) as Hy.
  rewrite width_size in Hx.
  unfold CONFIG.PADDING, CONFIG.HORIZONTAL_SPACING, CONFIG.VERTICAL_SPACING,
    CONFIG.NODE_RADIUS in *.
  destruct Hrep; [by apply elem_of_nil in Hv|]. lia.
Qed.

Lemma X9_witness :
  repr (heap sample) (root sample) sample_tree /\
  NoDup (values sample_tree) /\
  height sample_tree <= 3 /\
  exists positions,
    computePositions 3 (heap sample) (root sample) = Some positions /\
    svgWidth positions
      = (match root sample with Some _ => 60 * Z.of_nat (size sample_tree) + 115 | None => 400 end)%Z /\
    svgHeight positions
      = (match root sample with Some _ => 80 * Z.of_nat (height sample_tree) + 95 | None => 300 end)%Z /\
    (forall v pos, positions !! v = Some pos ->
       (0 <= Position.x pos - CONFIG.NODE_RADIUS /\
        Position.x pos + CONFIG.NODE_RADIUS <= svgWidth positions /\
        0 <= Position.y pos - CONFIG.NODE_RADIUS /\
        Position.y pos + CONFIG.NODE_RADIUS <= svgHeight positions)%Z).
Proof.
  split; [apply sample_represents|].
  split; [apply sorted_NoDup, bst_sorted, sample_bst|].
  split; [simpl; lia|].
  apply (X9_drawing_contains_every_node (heap sample) (root sample) sample_tree 3).
  - apply sample_represents.
  - apply sorted_NoDup, bst_sorted, sample_bst.
  - simpl; lia.
Defined.

(** X10. [cloneTree] makes a copy and touches nothing: the tree object and
    every existing node object are as before, the copy has the same values in
    the same shape, it is made of new objects only (none shared with the
    original, none used twice), one per node. *)
Theorem X10_clone_is_a_fresh_copy (s : BinarySearchTree) (t : tree) (fuel : nat) :
  represents s t ->
  height t <= fuel ->
  exists c s' t',
    cloneTree fuel (root s) s = Some (c, s') /\
    root s' = root s /\
    (forall a n, heap s !! a = Some n -> heap s' !! a = Some n) /\
    represents s' t /\
    repr (heap s') c t' /\
    unlabel t' = unlabel t /\
    NoDup (refs t') /\
    (forall b, b ∈ refs t' -> b ∉ refs t) /\
    length (heap s') = length (heap s) + size t.
Proof.
  intros [Hrep Hnd] Hfuel. destruct s as [rt h]. cbn [root heap] in *.
  destruct (cloneTree_spec t fuel rt h rt Hrep Hfuel)
    as (c & k & t' & Hrun & Hrep' & Hu & Hge & Hnd' & Hk).
  exists c, (mkBST rt (h ++ k)), t'. cbn [root heap].
  split_and!; [done|done| |split; [by apply repr_app|done]|done..| |].
  - intros a n Ha. by apply lookup_app_l_Some.
  - intros b Hb Hb'. rewrite Forall_forall in Hge. apply Hge in Hb.
    apply (repr_refs_lt _ _ _ _ Hrep) in Hb'. lia.
  - rewrite length_app. lia.
Qed.

Lemma X10_witness :
  represents sample sample_tree /\ height sample_tree <= 3 /\
  exists c s' t',
    cloneTree 3 (root sample) sample = Some (c, s') /\
    root s' = root sample /\
    (forall a n, heap sample !! a = Some n -> heap s' !! a = Some n) /\
    represents s' sample_tree /\
    repr (heap s') c t' /\
    unlabel t' = unlabel sample_tree /\
    NoDup (refs t') /\
    (forall b, b ∈ refs t' -> b ∉ refs sample_tree) /\
    length (heap s') = length (heap sample) + size sample_tree.
Proof.
  split; [apply sample_represents|].
  split; [simpl; lia|].
  apply (X10_clone_is_a_fresh_copy sample sample_tree 3).
  - apply sample_represents.
  - simpl; lia.
Defined.

(** X11. Laying out the clone, as the React application does, gives every
    value the coordinates that laying out the live tree gives it: the two
    position maps have the same keys and, key by key, the same [x] and [y]. *)
Theorem X11_clone_is_laid_out_like_the_tree (s : BinarySearchTree) (t : tree)
    (fuel : nat) :
  represents s t ->
  NoDup (values t) ->
  height t <= fuel ->
  exists c s' of_tree of_clone,
    cloneTree fuel (root s) s = Some (c, s') /\
    computePositions fuel (heap s) (root s) = Some of_tree /\
    computePositions fuel (heap s') c = Some of_clone /\
    forall v, coordinates <$> of_clone !! v = coordinates <$> of_tree !! v.
Proof.
  intros [Hrep Hnd] Hndv Hfuel. destruct s as [rt h]. cbn [root heap] in *.
  destruct (cloneTree_spec t fuel rt h rt Hrep Hfuel)
    as (c & k & t' & Hrun & Hrep' & Hu & _).
  exists c, (mkBST rt (h ++ k)), (set_all (placements t 0 0) ∅),
         (set_all (placements t' 0 0) ∅). cbn [root heap].
  split_and!; [done|by apply computePositions_spec| |].
  - apply computePositions_spec; [done|].
    by rewrite <- height_unlabel, Hu, height_unlabel.
  - intros v. by apply layout_coordinates.
Qed.

Lemma X11_witness :
  represents sample sample_tree /\ NoDup (values sample_tree) /\
  height sample_tree <= 3 /\
  exists c s' of_tree of_clone,
    cloneTree 3 (root sample) sample = Some (c, s') /\
    computePositions 3 (heap sample) (root sample) = Some of_tree /\
    computePositions 3 (heap s') c = Some of_clone /\
    forall v, coordinates <$> of_clone !! v = coordinates <$> of_tree !! v.
Proof.
  split; [apply sample_represents|].
  split; [apply sorted_NoDup, bst_sorted, sample_bst|].
  split; [simpl; lia|].
  apply (X11_clone_is_laid_out_like_the_tree sample sample_tree 3).
  - apply sample_represents.
  - apply sorted_NoDup, bst_sorted, sample_bst.
  - simpl; lia.
Defined.

(** X12. What a tree replays depends on the values inserted and their order,
    not on what the tree object went through before: building from the same
    values on two empty trees (new, or cleared after any earlier use) gives
    trees on which every search and every traversal returns the same steps,
    and on which a further insert returns the same steps. *)
Theorem X12_same_inserts_give_the_same_traces (s1 s2 : BinarySearchTree)
    (vs : list Z) (fuel : nat) :
  root s1 = None ->
  root s2 = None ->
  length vs < fuel ->
  exists t1 t2,
    insertAll fuel vs s1 = Some (tt, t1) /\
    insertAll fuel vs s2 = Some (tt, t2) /\
    (exists ino pre post,
        inorderTraversal fuel t1 = Some (ino, t1) /\
        inorderTraversal fuel t2 = Some (ino, t2) /\
        preorderTraversal fuel t1 = Some (pre, t1) /\
        preorderTraversal fuel t2 = Some (pre, t2) /\
        postorderTraversal fuel t1 = Some (post, t1) /\
        postorderTraversal fuel t2 = Some (post, t2)) /\
    (forall w, exists steps,
        search fuel w t1 = Some (steps, t1) /\
        search fuel w t2 = Some (steps, t2)) /\
    (forall w, exists steps u1 u2,
        insert fuel w t1 = Some (steps, u1) /\
        insert fuel w t2 = Some (steps, u2)).
Proof.
  intros Hr1 Hr2 Hfuel.
  destruct (insertAll_shape vs fuel s1 Leaf) as (t1 & a1 & Hrun1 & Hrep1 & Hsh1 & Hsz1);
    [by apply represents_empty|simpl; lia|].
  destruct (insertAll_shape vs fuel s2 Leaf) as (t2 & a2 & Hrun2 & Hrep2 & Hsh2 & Hsz2);
    [by apply represents_empty|simpl; lia|].
  assert (Hsh : unlabel a2 = unlabel a1) by congruence.
  pose proof (height_le_size a1). pose proof (height_le_size a2). simpl in Hsz1, Hsz2.
  exists t1, t2. split_and!; [done..| | |].
  - exists (inorder_steps a1), (preorder_steps a1), (postorder_steps a1).
    split_and!.
    + apply inorderTraversal_spec; [done|lia].
    + rewrite <- inorder_steps_unlabel, <- Hsh, inorder_steps_unlabel.
      apply inorderTraversal_spec; [done|lia].
    + apply preorderTraversal_spec; [done|lia].
    + rewrite <- preorder_steps_unlabel, <- Hsh, preorder_steps_unlabel.
      apply preorderTraversal_spec; [done|lia].
    + apply postorderTraversal_spec; [done|lia].
    + rewrite <- postorder_steps_unlabel, <- Hsh, postorder_steps_unlabel.
      apply postorderTraversal_spec; [done|lia].
  - intros w. eexists. split; [apply search_spec; [done|lia]|].
    rewrite (search_spec fuel w t2 a2); [|done|lia].
    do 2 f_equal.
    assert (Hs : search_steps w a2 = search_steps w a1)
      by (by rewrite <- search_steps_unlabel, Hsh, search_steps_unlabel).
    destruct a1, a2; simpl in Hsh; try discriminate; done.
  - intros w.
    destruct (insert_spec fuel w t1 a1 Hrep1) as (u1 & Hi1 & _); [lia|].
    destruct (insert_spec fuel w t2 a2 Hrep2) as (u2 & Hi2 & _); [lia|].
    exists (insert_trace w a1), u1, u2. split; [done|].
    by rewrite <- insert_trace_unlabel, <- Hsh, insert_trace_unlabel.
Qed.

Lemma X12_witness :
  root new_BinarySearchTree = None /\
  root cleared_sample = None /\
  length sample_values < 8 /\
  exists t1 t2,
    insertAll 8 sample_values new_BinarySearchTree = Some (tt, t1) /\
    insertAll 8 sample_values cleared_sample = Some (tt, t2) /\
    (exists ino pre post,
        inorderTraversal 8 t1 = Some (ino, t1) /\
        inorderTraversal 8 t2 = Some (ino, t2) /\
        preorderTraversal 8 t1 = Some (pre, t1) /\
        preorderTraversal 8 t2 = Some (pre, t2) /\
        postorderTraversal 8 t1 = Some (post, t1) /\
        postorderTraversal 8 t2 = Some (post, t2)) /\
    (forall w, exists steps,
        search 8 w t1 = Some (steps, t1) /\
        search 8 w t2 = Some (steps, t2)) /\
    (forall w, exists steps u1 u2,
        insert 8 w t1 = Some (steps, u1) /\
        insert 8 w t2 = Some (steps, u2)).
Proof.
  split; [reflexivity|].
  split; [reflexivity|].
  split; [simpl; lia|].
  apply (X12_same_inserts_give_the_same_traces
           new_BinarySearchTree cleared_sample sample_values 8).
  - reflexivity.
  - reflexivity.
  - simpl; lia.
Defined.
